(** * Verification of the asynchronous proxy pool manager

    A shallow embedding of [proxy_manager.py]: the three control loops
    (ingestion, eviction, promotion) that share one remote store.

    - Python values decoded from JSON are the inductive [pyval]; Python
      strings are lists of code points; numbers (JSON numbers and the
      readings of [time.time()]) are exact integers, so float rounding is
      abstracted away.
    - Coroutines are programs of a free monad [prog] over the events of the
      process: HTTP calls of the shared session, clock readings, logging,
      the semaphore, the lock and the shared known set.  A [Raise] node is a
      Python exception of class [Exception]; interruption and cancellation
      of the process are outside the model.
    - The environment ([Env]) answers probes and the bulk source, decides
      which store requests fail, and gives the clock.  The remote store is
      state of the [World].
    - [asyncio.gather] runs a pool of tasks under a schedule, one event at
      a time; a task that waits for the semaphore or the lock does not
      move. *)

From stdpp Require Import base tactics option list gmap sets.
From Stdlib Require Import ZArith NArith String Ascii Lia.

Set Warnings "-register-all".
Abbreviation length := List.length.
Open Scope Z_scope.

(** ** Python values *)

Module Py.

(** A Python [str]: the list of its code points. *)
Abbreviation str := (list N).

(** A string literal of the source. *)
Definition u (s : string) : str := N_of_ascii <$> list_ascii_of_string s.
#[global] Arguments u _ : simpl never.

(** [str.isspace] for one code point (the table of CPython's
    [_PyUnicode_IsWhitespace]). *)
Definition isspace (c : N) : bool :=
  ((9 <=? c) && (c <=? 13) || (28 <=? c) && (c <=? 32) ||
   (c =? 133) || (c =? 160) || (c =? 5760) ||
   (8192 <=? c) && (c <=? 8202) ||
   (c =? 8232) || (c =? 8233) || (c =? 8239) || (c =? 8287) ||
   (c =? 12288))%N.

Fixpoint lstrip (s : str) : str :=
  match s with
  | c :: s' => if isspace c then lstrip s' else s
  | [] => []
  end.

Definition rstrip (s : str) : str := rev (lstrip (rev s)).

(** [s.strip()] *)
Definition strip (s : str) : str := rstrip (lstrip s).

(** [s.split(sep)] for a one-character separator: never the empty list. *)
Fixpoint split (sep : N) (s : str) : list str :=
  match s with
  | [] => [[]]
  | c :: s' =>
      if (c =? sep)%N then [] :: split sep s'
      else match split sep s' with
           | h :: t => (c :: h) :: t
           | [] => [[c]]
           end
  end.

(** The values [response.json()] can return. *)
Inductive pyval :=
| PNone
| PBool (b : bool)
| PNum (z : Z)
| PStr (s : str)
| PList (l : list pyval)
| PDict (d : list (str * pyval)).

(** Truth value of an object, as [if x:] tests it. *)
Definition truthy (v : pyval) : bool :=
  match v with
  | PNone => false
  | PBool b => b
  | PNum z => negb (z =? 0)
  | PStr s => negb (bool_decide (s = []))
  | PList l => match l with [] => false | _ => true end
  | PDict d => match d with [] => false | _ => true end
  end.

(** Hashable values up to Python equality: [True == 1] and [False == 0]
    are one element of a set. *)
Inductive hval :=
| HNone
| HNum (z : Z)
| HStr (s : str).

#[global] Instance hval_eq_dec : EqDecision hval.
Proof. solve_decision. Defined.

#[global] Instance hval_countable : Countable hval.
Proof.
  refine (inj_countable'
    (λ h, match h with
          | HNone => inl ()
          | HNum z => inr (inl z)
          | HStr s => inr (inr s)
          end)
    (λ x, match x with
          | inl _ => HNone
          | inr (inl z) => HNum z
          | inr (inr s) => HStr s
          end) _).
  by intros [].
Defined.

(** The exceptions of class [Exception] that the program can meet. *)
Inductive exn :=
| ClientError
| TimeoutError
| JSONDecodeError
| AttributeError
| TypeError.

(** Evaluation of an expression: an exception or a value. *)
#[global] Instance result_ret : MRet (sum exn) := λ A, inr.
#[global] Instance result_bind : MBind (sum exn) := λ A B f x,
  match x with
  | inl e => inl e
  | inr a => f a
  end.

(** [hash(v)]: lists and dicts are unhashable. *)
Definition hash (v : pyval) : exn + hval :=
  match v with
  | PNone => inr HNone
  | PBool b => inr (HNum (if b then 1 else 0))
  | PNum z => inr (HNum z)
  | PStr s => inr (HStr s)
  | PList _ | PDict _ => inl TypeError
  end.

(** Lookup in a dict given by its items. *)
Fixpoint lookup_item (k : str) (d : list (str * pyval)) : option pyval :=
  match d with
  | [] => None
  | (k', v) :: d' => if bool_decide (k' = k) then Some v else lookup_item k d'
  end.

(** [val.get(k, default)]: only a dict has the method. *)
Definition get (val : pyval) (k : str) (dflt : pyval) : exn + pyval :=
  match val with
  | PDict d => inr (default dflt (lookup_item k d))
  | _ => inl AttributeError
  end.

(** [data.items()] *)
Definition items (data : pyval) : exn + list (str * pyval) :=
  match data with
  | PDict d => inr d
  | _ => inl AttributeError
  end.

(** A number as an operand of float arithmetic ([bool] is an [int]). *)
Definition number (v : pyval) : exn + Z :=
  match v with
  | PNum z => inr z
  | PBool b => inr (if b then 1 else 0)
  | _ => inl TypeError
  end.

(** [len(data)] *)
Definition len (data : pyval) : exn + Z :=
  match data with
  | PStr s => inr (Z.of_nat (length s))
  | PList l => inr (Z.of_nat (length l))
  | PDict d => inr (Z.of_nat (length d))
  | _ => inl TypeError
  end.

End Py.
Import Py.

(** ** Events and programs *)

(** The two collections of the remote store, addressed by their URLs. *)
Inductive collection := Working | Stable.

#[global] Instance collection_eq_dec : EqDecision collection.
Proof. solve_decision. Defined.

(** What the program reads of an HTTP response: the status, and the body as
    [response.text()] or [response.json()] give it ([None]: reading the
    body raises). *)
Record response := Response {
  status : Z;
  text : option str;
  json : option pyval;
}.

(** An HTTP call of the session either raises or gives a response. *)
Inductive reply :=
| Raised (e : exn)
| Resp (r : response).

Inductive level := DEBUG | INFO | WARNING | ERROR.

(** A set object on the heap. *)
Definition ref := nat.

(** The coroutines handed to [asyncio.gather]. *)
Inductive task :=
| ValidateAndAdd (proxy_addr : str) (existing_proxies : ref)
| CheckAndDelete (key : str) (proxy_addr : pyval).

Inductive event : Type → Type :=
| HttpBulk : event reply
    (* session.get(PROXY_API_URL, timeout=15) *)
| HttpProbe (proxy_addr : pyval) : event reply
    (* session.get(CHECK_URL, proxy=f"http://{proxy_addr}", timeout=...) *)
| HttpGet (url : collection) : event reply
    (* session.get(f"{url}.json") *)
| HttpPost (url : collection) (data : pyval) : event reply
    (* session.post(f"{url}.json", json=data) *)
| HttpDelete (url : collection) (key : str) : event reply
    (* session.delete(f"{url}/{key}.json") *)
| Time : event Z
| Sleep (secs : Z) : event unit
| Log (l : level) (msg : string) : event unit
| SemAcquire : event unit
| SemRelease : event unit
| LockAcquire : event unit
| LockRelease : event unit
| NewSet (s : gset hval) : event ref
| SetContains (r : ref) (x : hval) : event bool
| SetAdd (r : ref) (x : hval) : event unit
| Gather (tasks : list task) : event (option exn).

Inductive prog (A : Type) : Type :=
| Ret (a : A)
| Raise (e : exn)
| Vis {X : Type} (e : event X) (k : X → prog A).
Arguments Ret {A} a.
Arguments Raise {A} e.
Arguments Vis {A X} e k.

Fixpoint bind {A B} (p : prog A) (f : A → prog B) : prog B :=
  match p with
  | Ret a => f a
  | Raise e => Raise e
  | Vis e k => Vis e (λ x, bind (k x) f)
  end.

#[global] Instance prog_ret : MRet prog := λ A, Ret.
#[global] Instance prog_bind : MBind prog := λ A B f p, bind p f.
#[global] Instance prog_fmap : FMap prog := λ A B f p, bind p (λ a, Ret (f a)).

(** [try: p except Exception as e: h e] *)
Fixpoint try_except {A} (p : prog A) (h : exn → prog A) : prog A :=
  match p with
  | Ret a => Ret a
  | Raise e => h e
  | Vis e k => Vis e (λ x, try_except (k x) h)
  end.

(** [try: p finally: q] *)
Definition finally {A} (p : prog A) (q : prog unit) : prog A :=
  r ← try_except (inr <$> p) (λ e, Ret (inl e));
  q;;
  match r : exn + A with
  | inl e => Raise e
  | inr a => Ret a
  end.

Definition trigger {X} (e : event X) : prog X := Vis e Ret.

Definition lift {A} (x : exn + A) : prog A :=
  match x with
  | inl e => Raise e
  | inr a => Ret a
  end.

(** [async with session.get(...) as response:] and its siblings *)
Definition enter (r : reply) : prog response :=
  match r with
  | Raised ex => Raise ex
  | Resp x => Ret x
  end.

Definition request (e : event reply) : prog response :=
  r ← trigger e; enter r.

(** [await response.json()] *)
Definition read_json (r : response) : prog pyval :=
  match json r with
  | Some v => Ret v
  | None => Raise JSONDecodeError
  end.

(** [await response.text()] *)
Definition read_text (r : response) : prog str :=
  match text r with
  | Some s => Ret s
  | None => Raise ClientError
  end.

Definition log (l : level) (msg : string) : prog unit := trigger (Log l msg).

(** [async with semaphore:] *)
Definition with_semaphore {A} (body : prog A) : prog A :=
  trigger SemAcquire;; finally body (trigger SemRelease).

(** [async with lock:] *)
Definition with_lock {A} (body : prog A) : prog A :=
  trigger LockAcquire;; finally body (trigger LockRelease).

(** [await asyncio.gather] of the tasks *)
Definition gather (tasks : list task) : prog unit :=
  r ← trigger (Gather tasks);
  match r with
  | Some e => Raise e
  | None => Ret ()
  end.

(** ** The program *)

(** Configuration *)
Definition FIREBASE_BASE_URL : collection := Working.
Definition STABLE_PROXIES_URL : collection := Stable.
Definition CONCURRENCY_LIMIT : nat := 200.
Definition FETCH_INTERVAL : Z := 20.
Definition CLEANUP_INTERVAL : Z := 2.
Definition STABILITY_CHECK_INTERVAL : Z := 30.
Definition STABILITY_THRESHOLD : Z := 600.

Definition is_proxy_alive (proxy_addr : pyval) : prog bool :=
  try_except
    (response ← request (HttpProbe proxy_addr);
     Ret (status response =? 200))
    (λ _, Ret false).

(** The set comprehension
    [{val.get("address") for val in data.values() if val.get("address")}]. *)
Fixpoint addresses (vals : list pyval) : prog (gset hval) :=
  match vals with
  | [] => Ret ∅
  | val :: vals' =>
      address ← lift (get val (u "address") PNone);
      if truthy address then
        h ← lift (hash address);
        s ← addresses vals';
        Ret ({[h]} ∪ s)
      else addresses vals'
  end.

Definition get_existing_proxies (url : collection) : prog (gset hval) :=
  try_except
    (response ← request (HttpGet url);
     if status response =? 200 then
       data ← read_json response;
       if truthy data then
         its ← lift (items data);
         addresses its.*2
       else Ret ∅
     else Ret ∅)
    (λ e, log ERROR "Firebase read error";; Ret ∅).

Definition proxy_data (proxy_addr : str) (last_checked created_at : Z) : pyval :=
  PDict [(u "address", PStr proxy_addr);
         (u "last_checked", PNum last_checked);
         (u "created_at", PNum created_at);
         (u "status", PStr (u "active"))].

Definition validate_and_add (proxy_addr : str) (existing_proxies : ref)
    : prog unit :=
  with_semaphore
    (let proxy_addr := strip proxy_addr in
     if bool_decide (proxy_addr = []) then Ret () else
     known ← with_lock (trigger (SetContains existing_proxies (HStr proxy_addr)));
     if known : bool then Ret () else
     alive ← is_proxy_alive (PStr proxy_addr);
     if alive : bool then
       last_checked ← trigger Time;
       created_at ← trigger Time;
       try_except
         (res ← request (HttpPost FIREBASE_BASE_URL
                           (proxy_data proxy_addr last_checked created_at));
          if status res =? 200 then
            log INFO "[+] ADDED";;
            with_lock (trigger (SetAdd existing_proxies (HStr proxy_addr)))
          else Ret ())
         (λ e, log ERROR "Error adding")
     else Ret ()).

(** One iteration of [fetch_and_store_loop]; the semaphore and the lock are
    created once, before the loop. *)
Definition fetch_and_store_cycle : prog unit :=
  try_except
    (response ← request HttpBulk;
     if status response =? 200 then
       text ← read_text response;
       let proxies := split 10 (strip text) in
       log INFO "API provided proxies. Validating...";;
       existing_set ← get_existing_proxies FIREBASE_BASE_URL;
       existing ← trigger (NewSet existing_set);
       let tasks := (λ p, ValidateAndAdd p existing) <$> proxies in
       gather tasks;;
       log INFO "Fetch & Validation cycle complete."
     else log ERROR "API Error")
    (λ e, log ERROR "Fetcher loop error");;
  trigger (Sleep FETCH_INTERVAL).

Definition check_and_delete (key : str) (proxy_addr : pyval) : prog unit :=
  with_semaphore
    (alive ← is_proxy_alive proxy_addr;
     if negb alive then
       try_except
         (res ← request (HttpDelete FIREBASE_BASE_URL key);
          if status res =? 200 then log WARNING "[-] REMOVED" else Ret ())
         (λ e, log ERROR "Delete error")
     else Ret ()).

(** The list comprehension of [cleanup_loop]:
    [[check_and_delete(..., key, val.get("address"))
      for key, val in data.items() if val.get("address")]]. *)
Fixpoint cleanup_tasks (its : list (str * pyval)) : prog (list task) :=
  match its with
  | [] => Ret []
  | (key, val) :: its' =>
      address ← lift (get val (u "address") PNone);
      if truthy address then
        tasks ← cleanup_tasks its';
        Ret (CheckAndDelete key address :: tasks)
      else cleanup_tasks its'
  end.

(** One iteration of [cleanup_loop]. *)
Definition cleanup_cycle : prog unit :=
  try_except
    (response ← request (HttpGet FIREBASE_BASE_URL);
     if status response =? 200 then
       data ← read_json response;
       if truthy data then
         lift (len data);;
         log INFO "Scanning proxies in DB...";;
         its ← lift (items data);
         tasks ← cleanup_tasks its;
         gather tasks
       else log DEBUG "DB is empty."
     else log ERROR "Firebase fetch error")
    (λ e, log ERROR "Cleanup loop error");;
  trigger (Sleep CLEANUP_INTERVAL).

Definition stable_data (p_addr : pyval) (current_time : Z) (key : str)
    (age : Z) : pyval :=
  PDict [(u "address", p_addr);
         (u "promoted_at", PNum current_time);
         (u "original_key", PStr key);
         (u "age_seconds", PNum age)].

(** [age = current_time - val.get("created_at", current_time)] *)
Definition age_of (current_time : Z) (val : pyval) : exn + Z :=
  created_at ← get val (u "created_at") (PNum current_time);
  created_at ← number created_at;
  mret (current_time - created_at).

Section Promotion.
(** The promotion loop for a threshold; the program runs it at
    [STABILITY_THRESHOLD]. *)
Variable threshold : Z.

(** The body of the [for key, val in data.items()] loop. *)
Definition promote (current_time : Z) (key : str) (val : pyval)
    (stable_existing : gset hval) : prog (gset hval) :=
  p_addr ← lift (get val (u "address") PNone);
  age ← lift (age_of current_time val);
  if threshold <=? age then
    h ← lift (hash p_addr);
    if bool_decide (h ∉ stable_existing) then
      res ← request (HttpPost STABLE_PROXIES_URL
                       (stable_data p_addr current_time key age));
      if status res =? 200 then
        log INFO "[*] PROMOTED to stable";;
        Ret ({[h]} ∪ stable_existing)
      else Ret stable_existing
    else Ret stable_existing
  else Ret stable_existing.

Fixpoint promote_all (current_time : Z) (its : list (str * pyval))
    (stable_existing : gset hval) : prog (gset hval) :=
  match its with
  | [] => Ret stable_existing
  | (key, val) :: its' =>
      stable_existing ← promote current_time key val stable_existing;
      promote_all current_time its' stable_existing
  end.

(** One iteration of [stability_monitor_loop]. *)
Definition stability_cycle : prog unit :=
  try_except
    (response ← request (HttpGet FIREBASE_BASE_URL);
     if status response =? 200 then
       data ← read_json response;
       if truthy data then
         current_time ← trigger Time;
         stable_existing ← get_existing_proxies STABLE_PROXIES_URL;
         its ← lift (items data);
         promote_all current_time its stable_existing;;
         Ret ()
       else Ret ()
     else log ERROR "Firebase (Stability) fetch error")
    (λ e, log ERROR "Stability monitor error");;
  trigger (Sleep STABILITY_CHECK_INTERVAL).
End Promotion.

Definition stability_monitor_cycle : prog unit :=
  stability_cycle STABILITY_THRESHOLD.

(** The body of a task of the pool. *)
Definition task_body (t : task) : prog unit :=
  match t with
  | ValidateAndAdd proxy_addr existing_proxies =>
      validate_and_add proxy_addr existing_proxies
  | CheckAndDelete key proxy_addr => check_and_delete key proxy_addr
  end.

(** ** The environment and the world *)

(** A collection of the remote store: the items of its JSON object, in the
    order the store lists them. *)
Abbreviation store := (list (str * pyval)).

(** What the program cannot decide: the answers of the bulk source and of
    the proxies, which requests to the store fail (and what the program
    sees then), and the clock.  Each is asked with the number of requests
    and clock readings made so far. *)
Record Env := {
  bulk_reply : nat → reply;
  probe_reply : nat → pyval → reply;
  store_fault : nat → option reply;
  clock : nat → Z;
}.

(** The requests the process makes, with their answers, and its log. *)
Inductive io :=
| IoBulk (r : reply)
| IoProbe (proxy_addr : pyval) (r : reply)
| IoGet (url : collection) (r : reply)
| IoPost (url : collection) (data : pyval) (r : reply)
| IoDelete (url : collection) (key : str) (r : reply)
| IoLog (l : level) (msg : string)
| IoSleep (secs : Z).

Record World := {
  working : store;          (* the working set, at the remote store *)
  stable : store;           (* the stable set, at the remote store *)
  next_key : nat;           (* the store's key generator *)
  tick : nat;               (* requests and clock readings so far *)
  trace : list io;          (* oldest first *)
  permits : nat;            (* the loop's semaphore *)
  locked : bool;            (* the loop's lock *)
  sets : list (gset hval);  (* the set objects shared by tasks *)
}.

Definition coll (c : collection) (w : World) : store :=
  match c with
  | Working => working w
  | Stable => stable w
  end.

Definition set_coll (c : collection) (s : store) (w : World) : World :=
  {| working := match c with Working => s | Stable => working w end;
     stable := match c with Working => stable w | Stable => s end;
     next_key := next_key w; tick := tick w; trace := trace w;
     permits := permits w; locked := locked w; sets := sets w |}.

Definition bump_key (w : World) : World :=
  {| working := working w; stable := stable w; next_key := S (next_key w);
     tick := tick w; trace := trace w;
     permits := permits w; locked := locked w; sets := sets w |}.

(** A request or clock reading was made. *)
Definition advance (w : World) : World :=
  {| working := working w; stable := stable w; next_key := next_key w;
     tick := S (tick w); trace := trace w;
     permits := permits w; locked := locked w; sets := sets w |}.

Definition record (x : io) (w : World) : World :=
  {| working := working w; stable := stable w; next_key := next_key w;
     tick := tick w; trace := trace w ++ [x];
     permits := permits w; locked := locked w; sets := sets w |}.

Definition set_permits (n : nat) (w : World) : World :=
  {| working := working w; stable := stable w; next_key := next_key w;
     tick := tick w; trace := trace w;
     permits := n; locked := locked w; sets := sets w |}.

Definition set_locked (b : bool) (w : World) : World :=
  {| working := working w; stable := stable w; next_key := next_key w;
     tick := tick w; trace := trace w;
     permits := permits w; locked := b; sets := sets w |}.

Definition set_sets (l : list (gset hval)) (w : World) : World :=
  {| working := working w; stable := stable w; next_key := next_key w;
     tick := tick w; trace := trace w;
     permits := permits w; locked := locked w; sets := l |}.

(** *** The remote store, as the REST surface describes it *)

Definition ok (body : pyval) : reply :=
  Resp {| status := 200; text := None; json := Some body |}.

(** [GET {collection}.json]: the object of all items, [null] when empty. *)
Definition store_json (s : store) : pyval :=
  match s with
  | [] => PNone
  | _ => PDict s
  end.

(** The key the store generates for its [n]-th insert. *)
Definition key_of (n : nat) : str := u "-N" ++ [N.of_nat n].

Definition store_insert (key : str) (data : pyval) (s : store) : store :=
  s ++ [(key, data)].

Definition store_delete (key : str) (s : store) : store :=
  filter (λ it, it.1 ≠ key) s.

(** ** Running programs *)

(** One event of a task or of a loop, except [Gather]: the answer ([None]
    while the semaphore or the lock is not available) and the world after. *)
Definition handle_basic (env : Env) {X} (e : event X) (w : World)
    : option X * World :=
  match e in event X return option X * World with
  | HttpBulk =>
      let r := bulk_reply env (tick w) in
      (Some r, advance (record (IoBulk r) w))
  | HttpProbe proxy_addr =>
      let r := probe_reply env (tick w) proxy_addr in
      (Some r, advance (record (IoProbe proxy_addr r) w))
  | HttpGet c =>
      let r := match store_fault env (tick w) with
               | Some r => r
               | None => ok (store_json (coll c w))
               end in
      (Some r, advance (record (IoGet c r) w))
  | HttpPost c data =>
      match store_fault env (tick w) with
      | Some r => (Some r, advance (record (IoPost c data r) w))
      | None =>
          let key := key_of (next_key w) in
          let r := ok (PDict [(u "name", PStr key)]) in
          (Some r,
           advance (record (IoPost c data r)
             (bump_key (set_coll c (store_insert key data (coll c w)) w))))
      end
  | HttpDelete c key =>
      match store_fault env (tick w) with
      | Some r => (Some r, advance (record (IoDelete c key r) w))
      | None =>
          let r := ok PNone in
          (Some r,
           advance (record (IoDelete c key r)
             (set_coll c (store_delete key (coll c w)) w)))
      end
  | Time => (Some (clock env (tick w)), advance w)
  | Sleep secs => (Some (), record (IoSleep secs) w)
  | Log l msg => (Some (), record (IoLog l msg) w)
  | SemAcquire =>
      match permits w with
      | O => (None, w)
      | S n => (Some (), set_permits n w)
      end
  | SemRelease => (Some (), set_permits (S (permits w)) w)
  | LockAcquire =>
      if locked w then (None, w) else (Some (), set_locked true w)
  | LockRelease => (Some (), set_locked false w)
  | NewSet s => (Some (length (sets w)), set_sets (sets w ++ [s]) w)
  | SetContains r x =>
      (Some (bool_decide (x ∈ default ∅ (sets w !! r))), w)
  | SetAdd r x => (Some (), set_sets (alter (λ s, {[x]} ∪ s) r (sets w)) w)
  | Gather _ => (None, w)
  end.

(** The tasks of one [asyncio.gather]. *)
Abbreviation pool := (list (prog unit)).

(** The event loop resumes task [i] for one event. *)
Definition step_task (env : Env) (c : pool * World) (i : nat) : pool * World :=
  match c.1 !! i with
  | Some (Vis e k) =>
      match handle_basic env e c.2 with
      | (Some x, w') => (<[i := k x]> c.1, w')
      | (None, _) => c
      end
  | _ => c
  end.

Definition run_pool (env : Env) (sched : list nat) (c : pool * World)
    : pool * World :=
  foldl (step_task env) c sched.

(** What [await asyncio.gather] gives once the schedule is used up: the
    exception of a task that raised, [Some None] when every task returned,
    [None] while a task is still pending. *)
Fixpoint gather_result (ps : pool) : option (option exn) :=
  match ps with
  | [] => Some None
  | p :: ps' =>
      match p, gather_result ps' with
      | Raise e, _ => Some (Some e)
      | _, Some (Some e) => Some (Some e)
      | Ret _, r => r
      | Vis _ _, _ => None
      end
  end.

(** The order in which the event loop resumes the tasks of a gather of [n]
    tasks. *)
Definition schedule := nat → list nat.

Definition handle (env : Env) (sched : schedule) {X} (e : event X) (w : World)
    : option X * World :=
  match e in event X return option X * World with
  | Gather tasks =>
      let c := run_pool env (sched (length tasks)) (task_body <$> tasks, w) in
      (gather_result c.1, c.2)
  | e => handle_basic env e w
  end.

Inductive outcome (A : Type) :=
| Done (a : A)
| Failed (e : exn)
| Pending.
Arguments Done {A} a.
Arguments Failed {A} e.
Arguments Pending {A}.

(** A loop's code, run to its end. *)
Fixpoint exec (env : Env) (sched : schedule) {A} (p : prog A) (w : World)
    : outcome A * World :=
  match p with
  | Ret a => (Done a, w)
  | Raise e => (Failed e, w)
  | Vis e k =>
      match handle env sched e w with
      | (Some x, w') => exec env sched (k x) w'
      | (None, w') => (Pending, w')
      end
  end.

(** ** Notions used to state the properties *)

(** The verdict of one probe, read off the proxy's answer. *)
Definition alive (r : reply) : bool :=
  match r with
  | Resp x => status x =? 200
  | Raised _ => false
  end.

(** The requests and log lines made between two worlds of one run. *)
Definition since (w w' : World) : list io :=
  drop (length (trace w)) (trace w').

(** A world in which a loop starts a cycle: every permit of its semaphore
    is free and its lock is open. *)
Definition idle (w : World) : Prop :=
  permits w = CONCURRENCY_LIMIT ∧ locked w = false.

(** An environment with a serving store, a clock that reads [100 + n] at
    its [n]-th tick, every proxy alive, and a bulk source that lists the
    first address twice with a dead one in between. *)
Definition some_addr : str := u "1.2.3.4:8080".

Definition demo_env : Env :=
  {| bulk_reply := λ _,
       Resp {| status := 200;
               text := Some (some_addr ++ [10%N] ++ u "bad:entry" ++ [10%N]
                             ++ some_addr ++ [10%N]);
               json := None |};
     probe_reply := λ _ a,
       match a with
       | PStr s =>
           if bool_decide (s = some_addr) then ok PNone
           else Raised TimeoutError
       | _ => Raised TimeoutError
       end;
     store_fault := λ _, None;
     clock := λ n, 100 + Z.of_nat n |}.

(** The same with every proxy dead. *)
Definition dead_env : Env :=
  {| bulk_reply := bulk_reply demo_env;
     probe_reply := λ _ _, Raised TimeoutError;
     store_fault := λ _, None;
     clock := clock demo_env |}.

(** No task of a gather is ever resumed. *)
Definition never : schedule := λ _, [].

Definition empty_world : World :=
  {| working := []; stable := []; next_key := 0; tick := 0; trace := [];
     permits := CONCURRENCY_LIMIT; locked := false; sets := [] |}.

(** A world whose working set holds one record, created 700 seconds before
    the clock of [demo_env] starts. *)
Definition old_key : str := u "-Nold".

Definition aged_world : World :=
  {| working := [(old_key, proxy_data some_addr (-600) (-600))];
     stable := []; next_key := 0; tick := 0; trace := [];
     permits := CONCURRENCY_LIMIT; locked := false; sets := [] |}.

(** *** Which events a program can make *)

(** Every event the program can make, whatever it is answered, is in [P]. *)
Fixpoint all_events (P : ∀ X, event X → Prop) {A} (p : prog A) : Prop :=
  match p with
  | Ret _ | Raise _ => True
  | Vis e k => P _ e ∧ ∀ x, all_events P (k x)
  end.

(** The same for a loop: the events of the tasks it gathers count too. *)
Definition with_tasks (P : ∀ X, event X → Prop) : ∀ X, event X → Prop :=
  λ X e,
    match e with
    | Gather tasks => Forall (λ t, all_events P (task_body t)) tasks
    | _ => P X e
    end.

Definition any_event : ∀ X, event X → Prop := λ _ _, True.

(** The events of one validation task for the stripped candidate [a]. *)
Definition validate_events (a : str) (existing : ref) : ∀ X, event X → Prop :=
  λ X e,
    match e with
    | SemAcquire | SemRelease | LockAcquire | LockRelease | Time | Log _ _ =>
        True
    | SetContains r x | SetAdd r x => r = existing ∧ x = HStr a
    | HttpProbe proxy_addr => proxy_addr = PStr a
    | HttpPost url data =>
        url = Working ∧ ∃ t1 t2, data = proxy_data a t1 t2
    | _ => False
    end.

(** The events of one check task. *)
Definition check_events (key : str) (proxy_addr : pyval)
    : ∀ X, event X → Prop :=
  λ X e,
    match e with
    | SemAcquire | SemRelease | Log _ _ => True
    | HttpProbe a => a = proxy_addr
    | HttpDelete url k => url = Working ∧ k = key
    | _ => False
    end.

(** The trace only grows. *)
Definition trace_grows : relation World :=
  λ w w', trace w `prefix_of` trace w'.

(** No delete that targets the stable collection. *)
Definition no_stable_delete : ∀ X, event X → Prop :=
  λ X e,
    match e with
    | HttpDelete Stable _ => False
    | _ => True
    end.

(** No insert request at all. *)
Definition no_post : ∀ X, event X → Prop :=
  λ X e,
    match e with
    | HttpPost _ _ => False
    | _ => True
    end.

(** Every insert request made between two worlds is in [Φ]. *)
Definition sound_posts (Φ : collection → pyval → Prop) : relation World :=
  λ w w', trace w `prefix_of` trace w' ∧
          ∀ c data r, IoPost c data r ∈ since w w' → Φ c data.

(** Every item of a collection was there before or was posted since. *)
Definition posted_only (c : collection) : relation World :=
  λ w w', trace w `prefix_of` trace w' ∧
          ∀ it, it ∈ coll c w' →
                it ∈ coll c w ∨ ∃ r, IoPost c it.2 r ∈ since w w'.

(** [data] is the StableRecord of an entry of [its] whose age at the scan
    time [t] has reached the threshold. *)
Definition promoted_from (thr t : Z) (its : list (str * pyval))
    : collection → pyval → Prop :=
  λ c data,
    c = Stable ∧
    ∃ key val p_addr age,
      (key, val) ∈ its ∧
      get val (u "address") PNone = inr p_addr ∧ age_of t val = inr age ∧
      thr ≤ age ∧ data = stable_data p_addr t key age.

(** [data] is an object with the fields [fields] and no other: its keys
    are those of [fields], and [data.get] reads each field as given. *)
Definition has_fields (data : pyval) (fields : list (str * pyval)) : Prop :=
  (∃ d, data = PDict d ∧ d.*1 = fields.*1) ∧
  Forall (λ f, get data f.1 PNone = inr f.2) fields.

(** [data] is, field by field, the StableRecord of an entry of [its] whose
    age at the scan time [t] has reached the threshold: the entry's
    address, the scan time, the entry's key and the age. *)
Definition promoted_record (thr t : Z) (its : list (str * pyval))
    (data : pyval) : Prop :=
  ∃ key val p_addr age,
    (key, val) ∈ its ∧
    get val (u "address") PNone = inr p_addr ∧ age_of t val = inr age ∧
    thr ≤ age ∧
    has_fields data [(u "address", p_addr);
                     (u "promoted_at", PNum t);
                     (u "original_key", PStr key);
                     (u "age_seconds", PNum age)].

(** The record has the string [a] as its address. *)
Definition has_address (a : str) (val : pyval) : bool :=
  match get val (u "address") PNone with
  | inr (PStr s) => bool_decide (s = a)
  | _ => false
  end.

(** The number of records of a collection with address [a]. *)
Definition count_address (a : str) (s : store) : nat :=
  length (filter (λ it, has_address a it.2) s).
#[global] Arguments count_address : simpl never.

(** A record of the stable set that [get_existing_proxies] can read: an
    object whose address, if any, is hashable. *)
Definition stable_ok (val : pyval) : Prop :=
  ∃ p h, get val (u "address") PNone = inr p ∧ hash p = inr h.

(** A record of the working set that the promotion loop can read: moreover
    its [created_at], if any, is a number. *)
Definition record_ok (val : pyval) : Prop :=
  stable_ok val ∧ ∀ t, ∃ age, age_of t val = inr age.

(** The known-stable snapshot agrees with the stable set about [a], of
    which there is at most one record. *)
Definition snapshot_inv (a : str) (S : gset hval) (st : store) : Prop :=
  (count_address a st ≤ 1)%nat ∧ (HStr a ∈ S ↔ count_address a st = 1%nat).

(** A world whose working set holds one record without [created_at]. *)
Definition legacy_record : list (str * pyval) := [(u "address", PStr some_addr)].

Definition legacy_world : World :=
  {| working := [(old_key, PDict legacy_record)];
     stable := []; next_key := 0; tick := 0; trace := [];
     permits := CONCURRENCY_LIMIT; locked := false; sets := [] |}.

(** The three loops, and runs of the program as sequences of their
    cycles, each with the schedule of its gather. *)
Inductive loop := Ingestion | Eviction | Promotion.

Definition cycle_of (l : loop) : prog unit :=
  match l with
  | Ingestion => fetch_and_store_cycle
  | Eviction => cleanup_cycle
  | Promotion => stability_monitor_cycle
  end.

Definition run_cycles (env : Env) (cycles : list (loop * schedule)) (w : World)
    : World :=
  foldl (λ w c, (exec env c.2 (cycle_of c.1) w).2) w cycles.

(** The stable set keeps every record, in place, and every delete request
    goes to the working set. *)
Definition stable_kept : relation World :=
  λ w w', trace w `prefix_of` trace w' ∧
          stable w `prefix_of` stable w' ∧
          ∀ c k r, IoDelete c k r ∈ since w w' → c = Working.

(** The record has no address, or an empty one, or is no record at all. *)
Definition lacks_address (val : pyval) : Prop :=
  ∀ a, get val (u "address") PNone = inr a → truthy a = false.

(** An answer of the store that the program takes for a failure: the call
    raises, the status is not 200, or the body does not decode. *)
Definition unreadable (r : reply) : Prop :=
  match r with
  | Raised _ => True
  | Resp x => status x ≠ 200 ∨ json x = None
  end.

(** Every failure of the store is one the program can see. *)
Definition honest (env : Env) : Prop :=
  ∀ n r, store_fault env n = Some r → unreadable r.

(** The events that leave the entry under [key] alone and probe only
    non-empty addresses. *)
Definition spares (key : str) : ∀ X, event X → Prop :=
  λ X e,
    match e with
    | HttpDelete _ k => k ≠ key
    | HttpProbe a => truthy a = true
    | HttpPost _ _ => False
    | _ => True
    end.

(** Between two worlds the entry [(key, val)] was not deleted, only
    non-empty addresses were probed, and the working set lost at most
    entries. *)
Definition spared (key : str) (val : pyval) : relation World :=
  λ w w', trace w `prefix_of` trace w' ∧
          (∀ c r, IoDelete c key r ∉ since w w') ∧
          (∀ a r, IoProbe a r ∈ since w w' → truthy a = true) ∧
          (working w' `sublist_of` working w) ∧
          ((key, val) ∈ working w → (key, val) ∈ working w').

(** What the eviction cycle does once its read is answered. *)
Definition cleanup_rest (r : reply) : prog unit :=
  try_except
    (response ← enter r;
     if status response =? 200 then
       data ← read_json response;
       if truthy data then
         lift (len data);;
         log INFO "Scanning proxies in DB...";;
         its ← lift (items data);
         tasks ← cleanup_tasks its;
         gather tasks
       else log DEBUG "DB is empty."
     else log ERROR "Firebase fetch error")
    (λ e, log ERROR "Cleanup loop error");;
  trigger (Sleep CLEANUP_INTERVAL).

(** A world whose working set holds a record without address before a
    record with one. *)
Definition orphan_record : pyval := PDict [(u "status", PStr (u "active"))].

Definition orphan_world : World :=
  {| working := [(old_key, orphan_record);
                 (u "-Nnew", proxy_data some_addr 0 0)];
     stable := []; next_key := 0; tick := 0; trace := [];
     permits := CONCURRENCY_LIMIT; locked := false; sets := [] |}.

(** *** Schedules *)

(** No task makes more events than this. *)
Definition task_steps : nat := 13.

(** The tasks are resumed in turn, round after round. *)
Fixpoint rounds (r n : nat) : list nat :=
  match r with
  | O => []
  | S r' => seq 0 n ++ rounds r' n
  end.

Definition round_robin : schedule := λ n, rounds (task_steps * n) n.

(** The order of the asyncio event loop when every probe takes longer than
    starting the tasks: each task runs up to its first request (four events
    of a validation task), then the tasks are resumed in turn as their
    answers arrive. *)
Definition asyncio_order : schedule :=
  λ n, (i ← seq 0 n; replicate 4 i) ++ (i ← seq 0 n; replicate 9 i).

(** Where a task stands with respect to the semaphore and the lock. *)
Inductive phase := Out | InSem | InLock.

#[global] Instance phase_eq_dec : EqDecision phase.
Proof. solve_decision. Defined.

(** The events that never wait and leave the semaphore and lock alone. *)
Definition plain {X} (e : event X) : Prop :=
  match e with
  | SemAcquire | SemRelease | LockAcquire | LockRelease | Gather _ => False
  | _ => True
  end.

(** A task that, from phase [ph], makes at most [n] events, never raises,
    acquires and releases the semaphore and the lock in a nested way, and
    returns holding neither. *)
Fixpoint bracketed (ph : phase) (n : nat) (p : prog unit) {struct p} : Prop :=
  match p with
  | Ret _ => ph = Out
  | Raise _ => False
  | Vis e k =>
      match n with
      | O => False
      | S n' =>
          match e, ph with
          | SemAcquire, Out => ∀ x, bracketed InSem n' (k x)
          | SemRelease, InSem => ∀ x, bracketed Out n' (k x)
          | LockAcquire, InSem => ∀ x, bracketed InLock n' (k x)
          | LockRelease, InLock => ∀ x, bracketed InSem n' (k x)
          | e, _ => plain e ∧ ∀ x, bracketed ph n' (k x)
          end
      end
  end.

(** The tasks of a pool with their phases and bounds, the permits and the
    lock accounted for. *)
Definition holds_sem (a : phase * nat) : nat :=
  match a.1 with Out => 0 | _ => 1 end.

Definition holds_lock (a : phase * nat) : nat :=
  match a.1 with InLock => 1 | _ => 0 end.

Definition pool_ok (ann : list (phase * nat)) (c : pool * World) : Prop :=
  Forall2 (λ a p, bracketed a.1 a.2 p) ann c.1 ∧
  (permits c.2 + sum_list_with holds_sem ann = CONCURRENCY_LIMIT)%nat ∧
  sum_list_with holds_lock ann = (if locked c.2 then 1 else 0)%nat.

(** Task [i] can make its next event now. *)
Definition enabled (env : Env) (c : pool * World) (i : nat) : Prop :=
  match c.1 !! i with
  | Some (Vis e k) => is_Some (handle_basic env e c.2).1
  | _ => False
  end.

Definition all_returned (ps : pool) : Prop :=
  Forall (λ p, p = Ret ()) ps.

(** The events of a loop that never wait, a gather being one of tasks that
    are all [bracketed]. *)
Definition completes : ∀ X, event X → Prop :=
  λ X e,
    match e with
    | Gather tasks => True
    | SemAcquire | SemRelease | LockAcquire | LockRelease => False
    | _ => True
    end.

(** The events a pool may still make, counted by the bounds of its tasks. *)
Definition budget (ann : list (phase * nat)) : nat := sum_list_with snd ann.

(** The answer of the store to a read made in world [w]. *)
Definition store_reply (env : Env) (url : collection) (w : World) : reply :=
  match store_fault env (tick w) with
  | Some r => r
  | None => ok (store_json (coll url w))
  end.

(** The sleep that ends a cycle of each loop. *)
Definition interval (l : loop) : Z :=
  match l with
  | Ingestion => FETCH_INTERVAL
  | Eviction => CLEANUP_INTERVAL
  | Promotion => STABILITY_CHECK_INTERVAL
  end.

(** The part of [validate_and_add] after a successful probe. *)
Definition insert_record (proxy_addr : str) (existing_proxies : ref)
    : prog unit :=
  last_checked ← trigger Time;
  created_at ← trigger Time;
  try_except
    (res ← request (HttpPost FIREBASE_BASE_URL
                      (proxy_data proxy_addr last_checked created_at));
     if status res =? 200 then
       log INFO "[+] ADDED";;
       with_lock (trigger (SetAdd existing_proxies (HStr proxy_addr)))
     else Ret ())
    (λ e, log ERROR "Error adding").

(** The part of [validate_and_add] after the blank test. *)
Definition validate_checked (proxy_addr : str) (existing_proxies : ref)
    : prog unit :=
  known ← with_lock (trigger (SetContains existing_proxies (HStr proxy_addr)));
  if known : bool then Ret () else
  alive ← is_proxy_alive (PStr proxy_addr);
  if alive : bool then insert_record proxy_addr existing_proxies else Ret ().

(** The events that are neither requests nor clock readings. *)
Definition local_event : ∀ X, event X → Prop :=
  λ X e,
    match e with
    | SemAcquire | SemRelease | LockAcquire | LockRelease
    | SetContains _ _ | SetAdd _ _ | NewSet _ | Log _ _ | Sleep _ => True
    | _ => False
    end.

(** No request was made and the clock was not read. *)
Definition same_tick : relation World := λ w w', tick w' = tick w.

(** ** Notions used to state further properties *)

(** *** Footprints of the loops *)

(** Between two worlds every request and log line is in [Ψ], and the two
    collections changed along [Rw] and [Rs]. *)
Definition keeps (Ψ : io → Prop) (Rw Rs : relation store) : relation World :=
  λ w w', trace w `prefix_of` trace w' ∧
          (∀ x, x ∈ since w w' → Ψ x) ∧
          Rw (working w) (working w') ∧ Rs (stable w) (stable w').

(** Nothing is deleted, and every insert goes to collection [c]. *)
Definition inserts_into (c : collection) : ∀ X, event X → Prop :=
  λ X e,
    match e with
    | HttpDelete _ _ => False
    | HttpPost url _ => url = c
    | _ => True
    end.

Definition io_inserts_into (c : collection) (x : io) : Prop :=
  match x with
  | IoDelete _ _ _ => False
  | IoPost url _ _ => url = c
  | _ => True
  end.

(** Nothing is inserted, and every delete goes to the working set. *)
Definition removes_only : ∀ X, event X → Prop :=
  λ X e,
    match e with
    | HttpPost _ _ => False
    | HttpDelete url _ => url = Working
    | _ => True
    end.

Definition io_removes_only (x : io) : Prop :=
  match x with
  | IoPost _ _ _ => False
  | IoDelete url _ _ => url = Working
  | _ => True
  end.

(** No proxy is probed. *)
Definition no_probe : ∀ X, event X → Prop :=
  λ X e,
    match e with
    | HttpProbe _ => False
    | _ => True
    end.

Definition io_no_probe (x : io) : Prop :=
  match x with
  | IoProbe _ _ => False
  | _ => True
  end.

(** An address as the ingestion loop uses it: not empty, and without
    whitespace at either end. *)
Definition clean (s : str) : Prop :=
  s ≠ [] ∧
  (∀ c, head s = Some c → isspace c = false) ∧
  (∀ c, last s = Some c → isspace c = false).

(** Every probe is for a clean address and every insert is a ProxyRecord
    of one. *)
Definition clean_event : ∀ X, event X → Prop :=
  λ X e,
    match e with
    | HttpProbe a => ∃ s, a = PStr s ∧ clean s
    | HttpPost url data =>
        url = Working ∧ ∃ s t1 t2, data = proxy_data s t1 t2 ∧ clean s
    | _ => True
    end.

Definition io_clean (x : io) : Prop :=
  match x with
  | IoProbe a _ => ∃ s, a = PStr s ∧ clean s
  | IoPost url data _ =>
      url = Working ∧ ∃ s t1 t2, data = proxy_data s t1 t2 ∧ clean s
  | _ => True
  end.

(** An answer of the bulk source that gives the loop no list: the call
    raises, the status is not 200, or the body cannot be read. *)
Definition no_list (r : reply) : Prop :=
  match r with
  | Raised _ => True
  | Resp x => status x ≠ 200 ∨ text x = None
  end.

(** What an event leaves in the trace when it is answered with [x]. *)
Definition io_of {X} (e : event X) : X → list io :=
  match e in event X return X → list io with
  | HttpBulk => λ r, [IoBulk r]
  | HttpProbe a => λ r, [IoProbe a r]
  | HttpGet c => λ r, [IoGet c r]
  | HttpPost c data => λ r, [IoPost c data r]
  | HttpDelete c key => λ r, [IoDelete c key r]
  | Sleep secs => λ _, [IoSleep secs]
  | Log l msg => λ _, [IoLog l msg]
  | _ => λ _, []
  end.

(** *** Tasks that run interleaved *)

(** A task of a pool that stands at [p] in world [w].  Whatever the other
    tasks do meanwhile, as long as they move the world along [I] and keep
    [Inv]: each event the task makes is allowed by [Q] in the world where
    it is made, and once the task has returned, [F] holds. *)
Fixpoint respects (env : Env) (I : relation World) (Inv : World → Prop)
    (Q : World → ∀ X, event X → Prop) (F : World → Prop)
    (w : World) (p : prog unit) : Prop :=
  match p with
  | Ret _ => ∀ w1, I w w1 → Inv w1 → F w1
  | Raise _ => True
  | Vis e k =>
      ∀ w1, I w w1 → Inv w1 →
        Q w1 _ e ∧
        ∀ x, (handle_basic env e w1).1 = Some x →
             respects env I Inv Q F (handle_basic env e w1).2 (k x)
  end.

(** What is known of the world and stays true as it moves along [I]. *)
Definition stable_under (I : relation World) (K : World → Prop) : Prop :=
  ∀ w w', I w w' → K w → K w'.

(** The event is no delete request. *)
Definition not_delete {X} (e : event X) : Prop :=
  match e with
  | HttpDelete _ _ => False
  | _ => True
  end.

(** Every item of a trace is allowed by [J], given the items before it. *)
Definition preceded (J : list io → io → Prop) (tr : list io) : Prop :=
  ∀ tr1 y tr2, tr = tr1 ++ y :: tr2 → J tr1 y.

(** *** Validation tasks *)

(** The address is in the known set. *)
Definition known (existing : ref) (a : str) (w : World) : Prop :=
  HStr a ∈ default ∅ (sets w !! existing).

(** The set objects only grow. *)
Definition sets_grow : relation World :=
  λ w w', ∀ r x, x ∈ default ∅ (sets w !! r) → x ∈ default ∅ (sets w' !! r).

(** The store serves every request. *)
Definition serving (env : Env) : Prop := ∀ n, store_fault env n = None.

(** What the tasks of an ingestion cycle do to the world, together. *)
Definition ingest_rely : relation World :=
  λ w w', trace w `prefix_of` trace w' ∧ sets_grow w w' ∧
          working w `prefix_of` working w'.

(** An insert is justified after the trace [tr] of a gather started in
    [wg] for the candidates [cands]: it is the ProxyRecord of a candidate
    whose probe, in [tr], was answered 200, and that the known set lacked
    at some point of the gather. *)
Definition justified (env : Env) (wg : World) (existing : ref)
    (cands : list str) (tr : list io) (data : pyval) : Prop :=
  ∃ a t1 t2 n wc,
    data = proxy_data a t1 t2 ∧ a ∈ cands ∧
    IoProbe (PStr a) (probe_reply env n (PStr a)) ∈ tr ∧
    alive (probe_reply env n (PStr a)) = true ∧
    ingest_rely wg wc ∧ ¬ known existing a wc.

Definition io_justified (env : Env) (wg : World) (existing : ref)
    (cands : list str) (tr : list io) (y : io) : Prop :=
  match y with
  | IoPost c data _ => c = Working ∧ justified env wg existing cands tr data
  | _ => True
  end.

(** With a serving store, every address of the known set has a record in
    the working set. *)
Definition known_stored (env : Env) (existing : ref) (w : World) : Prop :=
  serving env →
  ∀ b, known existing b w → (0 < count_address b (working w))%nat.

(** What a validation task may do in world [w] of a cycle started in
    [w0], whose gather started in [wg]. *)
Definition ingest_guar (env : Env) (w0 wg : World) (existing : ref)
    (cands : list str) (w : World) : ∀ X, event X → Prop :=
  λ X e,
    match e with
    | HttpPost c data =>
        c = Working ∧ justified env wg existing cands (since w0 w) data
    | SetAdd r x =>
        serving env → r = existing →
        ∀ b, x = HStr b → (0 < count_address b (working w))%nat
    | HttpDelete _ _ | NewSet _ => False
    | _ => True
    end.

Definition ingest_inv (env : Env) (w0 wg : World) (existing : ref)
    (cands : list str) (w : World) : Prop :=
  trace w0 `prefix_of` trace w ∧
  preceded (io_justified env wg existing cands) (since w0 w) ∧
  known_stored env existing w.

(** What the validation task for a candidate whose proxy always answers
    has achieved, with a serving store, once it has returned. *)
Definition stored (env : Env) (a : str) (w : World) : Prop :=
  serving env → a ≠ [] →
  (∀ n, alive (probe_reply env n (PStr a)) = true) →
  (0 < count_address a (working w))%nat.

Definition task_stored (env : Env) (t : task) : World → Prop :=
  match t with
  | ValidateAndAdd p _ => stored env (strip p)
  | _ => λ _, True
  end.

(** The candidates of the cycle started in [w], stripped. *)
Definition candidates (env : Env) (w : World) : list str :=
  match bulk_reply env (tick w) with
  | Resp x =>
      match text x with
      | Some t => strip <$> split 10 (strip t)
      | None => []
      end
  | Raised _ => []
  end.

(** The validation tasks of a cycle for the candidates of [body]. *)
Definition validation_tasks (body : str) (existing : ref) : list task :=
  (λ p, ValidateAndAdd p existing) <$> split 10 (strip body).

(** The world and the known set with which the gather of an ingestion
    cycle started in [w] begins, when the bulk source gave a list. *)
Definition gather_start (env : Env) (sched : schedule) (w : World)
    : World * ref :=
  let w2 := record (IoLog INFO "API provided proxies. Validating...")
              (advance (record (IoBulk (bulk_reply env (tick w))) w)) in
  let r := exec env sched (get_existing_proxies FIREBASE_BASE_URL) w2 in
  match r.1 with
  | Done s => (set_sets (sets r.2 ++ [s]) r.2, length (sets r.2))
  | _ => (r.2, 0%nat)
  end.

(** The working set grew by records that were posted meanwhile. *)
Definition grows_by_posts : relation World :=
  λ w w', trace w `prefix_of` trace w' ∧
          ∃ l, working w' = working w ++ l ∧
               Forall (λ it, ∃ r, IoPost Working it.2 r ∈ since w w') l.

(** *** Check tasks *)

(** What the tasks of an eviction cycle do to the world, together. *)
Definition evict_rely : relation World :=
  λ w w', trace w `prefix_of` trace w' ∧
          working w' `sublist_of` working w.

(** A delete of [key] is justified after the trace [tr] of a cycle with
    the check tasks [tasks]: one of them checks [key] with an address
    whose probe, in [tr], failed. *)
Definition condemned (env : Env) (tasks : list task) (tr : list io)
    (key : str) : Prop :=
  ∃ a n,
    CheckAndDelete key a ∈ tasks ∧
    IoProbe a (probe_reply env n a) ∈ tr ∧
    alive (probe_reply env n a) = false.

Definition io_condemned (env : Env) (tasks : list task) (tr : list io)
    (y : io) : Prop :=
  match y with
  | IoDelete c key _ => c = Working ∧ condemned env tasks tr key
  | IoPost _ _ _ => False
  | _ => True
  end.

(** What a check task may do in world [w] of a cycle started in [w0]. *)
Definition evict_guar (env : Env) (w0 : World) (tasks : list task)
    (w : World) : ∀ X, event X → Prop :=
  λ X e,
    match e with
    | HttpDelete c key => c = Working ∧ condemned env tasks (since w0 w) key
    | HttpPost _ _ => False
    | _ => True
    end.

Definition evict_inv (env : Env) (w0 : World) (tasks : list task)
    (w : World) : Prop :=
  trace w0 `prefix_of` trace w ∧
  preceded (io_condemned env tasks) (since w0 w).

(** The proxy at [a] never answers a probe with status 200. *)
Definition dead (env : Env) (a : pyval) : Prop :=
  ∀ n, alive (probe_reply env n a) = false.

(** What the check task for [key] and a dead address has achieved, with
    a serving store, once it has returned. *)
Definition evicted (env : Env) (key : str) (a : pyval) (w : World) : Prop :=
  serving env → dead env a → key ∉ (working w).*1.

Definition task_evicted (env : Env) (t : task) : World → Prop :=
  match t with
  | CheckAndDelete key a => evicted env key a
  | _ => λ _, True
  end.

(** The keys of the working set that a trace asked to delete. *)
Fixpoint deleted (tr : list io) : list str :=
  match tr with
  | [] => []
  | IoDelete Working key _ :: tr' => key :: deleted tr'
  | _ :: tr' => deleted tr'
  end.

(** The working set is what it was, less the entries deleted since. *)
Definition deletes_applied : relation World :=
  λ w w', trace w `prefix_of` trace w' ∧
          working w' = filter (λ it, it.1 ∉ deleted (since w w')) (working w).

(** The verdict of the eviction loop on a record, for proxies that answer
    every probe alike: the record stays when it has no non-empty address
    or its proxy answers. *)
Definition survives (verdict : pyval → bool) (val : pyval) : bool :=
  match get val (u "address") PNone with
  | inr a => negb (truthy a) || verdict a
  | inl _ => true
  end.

(** Every record is an object. *)
Definition objects (s : store) : Prop := Forall (λ v, ∃ d, v = PDict d) s.*2.

(** The requests of a cycle that gathers no task. *)
Definition io_quiet (y : io) : Prop :=
  match y with
  | IoGet _ _ | IoLog _ _ | IoSleep _ => True
  | _ => False
  end.

Definition quiet_event : ∀ X, event X → Prop :=
  λ X e,
    match e with
    | HttpGet _ | Log _ _ | Sleep _ => True
    | _ => False
    end.

(** *** The semaphore *)

(** A task that has taken a permit and not given it back: it is neither
    waiting for the semaphore nor done. *)
Definition in_flight (p : prog unit) : bool :=
  match p with
  | Ret _ | Raise _ => false
  | Vis e _ =>
      match e with
      | SemAcquire => false
      | _ => true
      end
  end.

(** The number of tasks of a pool that hold a permit. *)
Definition flying (ps : pool) : nat :=
  sum_list_with (λ p, if in_flight p then 1 else 0)%nat ps.

(** A task that does all its work between taking a permit and giving it
    back, and returns without one. *)
Fixpoint permit_held (held : bool) (p : prog unit) : Prop :=
  match p with
  | Ret _ => held = false
  | Raise _ => False
  | Vis e k =>
      match e with
      | SemAcquire => held = false ∧ ∀ x, permit_held true (k x)
      | SemRelease => held = true ∧ ∀ x, permit_held false (k x)
      | Gather _ => False
      | _ => held = true ∧ ∀ x, permit_held true (k x)
      end
  end.

(** *** Tasks run one after the other *)

(** The schedule that runs each task of a gather to its end before the
    next one starts. *)
Definition one_by_one : schedule :=
  λ n, i ← seq 0 n; replicate task_steps i.

(** The permits and the lock as a task in phase [ph] needs them to go on
    alone. *)
Definition resources (ph : phase) (w : World) : Prop :=
  (ph = Out → permits w ≠ 0%nat) ∧ (ph ≠ InLock → locked w = false).

(** The records of address [a] in the working set are those of the start
    of the gather, and one more at most, none as long as [a] is not in the
    known set. *)
Definition inserted_once (a : str) (existing : ref) (wg w : World) : Prop :=
  (existing < length (sets w))%nat ∧
  (count_address a (working w) ≤ count_address a (working wg) + 1)%nat ∧
  (¬ known existing a w →
   count_address a (working w) ≤ count_address a (working wg))%nat.

(** *** The loops *)

(** The first [n] iterations of a [while True:] loop. *)
Fixpoint iterations (n : nat) (body : prog unit) : prog unit :=
  match n with
  | O => Ret ()
  | S n' => body;; iterations n' body
  end.

(** The three loops, cut after [n] iterations.  The semaphore and the
    lock that a loop creates before it starts are those of the world,
    free. *)
Definition fetch_and_store_loop (n : nat) : prog unit :=
  log INFO "Starting Async Bulk Fetcher...";;
  iterations n fetch_and_store_cycle.

Definition cleanup_loop (n : nat) : prog unit :=
  log INFO "Starting Continuous Async Cleanup...";;
  iterations n cleanup_cycle.

Definition stability_monitor_loop (n : nat) : prog unit :=
  log INFO "Starting Stability Monitor Loop...";;
  iterations n stability_monitor_cycle.

Definition loop_of (l : loop) (n : nat) : prog unit :=
  match l with
  | Ingestion => fetch_and_store_loop n
  | Eviction => cleanup_loop n
  | Promotion => stability_monitor_loop n
  end.

Definition start_message (l : loop) : string :=
  match l with
  | Ingestion => "Starting Async Bulk Fetcher..."
  | Eviction => "Starting Continuous Async Cleanup..."
  | Promotion => "Starting Stability Monitor Loop..."
  end.

(** *** Records without an address *)

(** The record has no address, or [null] for one. *)
Definition no_address (val : pyval) : bool :=
  match get val (u "address") PNone with
  | inr PNone => true
  | _ => false
  end.

(** The number of records of a collection without an address. *)
Definition count_no_address (s : store) : nat :=
  length (filter (λ it, no_address it.2) s).

(** The known-stable snapshot has [None] exactly when a record without
    address was promoted in this cycle, and at most one was: the stable set
    had [c0] such records before. *)
Definition none_inv (c0 : nat) (S : gset hval) (st : store) : Prop :=
  count_no_address st = (c0 + if bool_decide (HNone ∈ S) then 1 else 0)%nat.

(** *** More example environments and worlds *)

(** The bulk source is down and the store refuses every write. *)
Definition down_env : Env :=
  {| bulk_reply := λ _, Raised ClientError;
     probe_reply := probe_reply demo_env;
     store_fault := λ _, Some (Raised ClientError);
     clock := clock demo_env |}.

(** The world of a gather that starts with nothing known. *)
Definition pool_world : World :=
  {| working := []; stable := []; next_key := 0; tick := 0; trace := [];
     permits := CONCURRENCY_LIMIT; locked := false; sets := [∅] |}.

(** A working set whose second entry is a string, not an object. *)
Definition junk_key : str := u "-Njunk".

Definition junk_world : World :=
  {| working := [(old_key, proxy_data some_addr (-600) (-600));
                 (junk_key, PStr (u "junk"))];
     stable := []; next_key := 0; tick := 0; trace := [];
     permits := CONCURRENCY_LIMIT; locked := false; sets := [] |}.

(** An old record without an address. *)
Definition nameless_record : pyval := PDict [(u "created_at", PNum (-600))].

Definition nameless_world : World :=
  {| working := [(old_key, nameless_record)];
     stable := []; next_key := 0; tick := 0; trace := [];
     permits := CONCURRENCY_LIMIT; locked := false; sets := [] |}.

(** A working set whose one record, created 700 seconds before the clock
    of [demo_env] starts, has the empty string for its address. *)
Definition blank_world : World :=
  {| working := [(old_key, proxy_data [] (-600) (-600))];
     stable := []; next_key := 0; tick := 0; trace := [];
     permits := CONCURRENCY_LIMIT; locked := false; sets := [] |}.

(** The store serves every request but its seventh, which raises: from
    [aged_world] that is the read of the stable set in the second
    promotion cycle. *)
Definition flaky_env : Env :=
  {| bulk_reply := bulk_reply demo_env;
     probe_reply := probe_reply demo_env;
     store_fault := λ n, if (n =? 6)%nat then Some (Raised ClientError)
                         else None;
     clock := clock demo_env |}.

(** ** Basic facts about running programs *)

Lemma since_app w w' l : trace w' = trace w ++ l → since w w' = l.
Proof. unfold since. intros ->. by rewrite drop_app_length. Qed.

Lemma since_refl w w' : trace w' = trace w → since w w' = [].
Proof. intros H. apply since_app. by rewrite app_nil_r. Qed.

Lemma exec_bind env sched {A B} (p : prog A) (f : A → prog B) w :
  exec env sched (p ≫= f) w =
  match exec env sched p w with
  | (Done a, w') => exec env sched (f a) w'
  | (Failed e, w') => (Failed e, w')
  | (Pending, w') => (Pending, w')
  end.
Proof.
  revert w. induction p as [a|e|X e k IH]; intros w; cbn; try done.
  destruct (handle env sched e w) as [[x|] w']; [apply IH|done].
Qed.

Lemma exec_try_except env sched {A} (p : prog A) (h : exn → prog A) w :
  exec env sched (try_except p h) w =
  match exec env sched p w with
  | (Failed e, w') => exec env sched (h e) w'
  | r => r
  end.
Proof.
  revert w. induction p as [a|e|X e k IH]; intros w; cbn; try done.
  destruct (handle env sched e w) as [[x|] w']; [apply IH|done].
Qed.

(** The probe never raises: its result is the verdict of the answer. *)
Lemma exec_is_proxy_alive env sched proxy_addr w :
  exec env sched (is_proxy_alive proxy_addr) w =
  (Done (alive (probe_reply env (tick w) proxy_addr)),
   advance (record (IoProbe proxy_addr (probe_reply env (tick w) proxy_addr)) w)).
Proof.
  unfold is_proxy_alive. cbn.
  by destruct (probe_reply env (tick w) proxy_addr).
Qed.

(** *** Events of programs, compositionally *)

Lemma all_events_mono (P Q : ∀ X, event X → Prop) {A} (p : prog A) :
  (∀ X e, P X e → Q X e) → all_events P p → all_events Q p.
Proof.
  intros HPQ. induction p as [a|e|X e k IH]; cbn; try done.
  intros [HP Hk]. split; [by apply HPQ|]. intros x. by apply IH.
Qed.

Lemma all_events_any {A} (p : prog A) : all_events any_event p.
Proof. induction p; cbn; try done. Qed.

Lemma all_events_with_tasks_any {A} (p : prog A) :
  all_events (with_tasks any_event) p.
Proof.
  induction p as [a|e|X e k IH]; cbn; try done. split; [|done].
  destruct e; cbn; try done. apply Forall_forall. intros t _.
  apply all_events_any.
Qed.

Section Events.
Context (P : ∀ X, event X → Prop).

Lemma all_events_bind {A B} (p : prog A) (f : A → prog B) :
  all_events P p → (∀ a, all_events P (f a)) → all_events P (p ≫= f).
Proof.
  intros Hp Hf.
  induction p as [a|e|X e k IH]; cbn in *; [apply Hf|done|].
  destruct Hp as [HP Hk]. split; [done|]. intros x. by apply IH.
Qed.

Lemma all_events_try_except {A} (p : prog A) (h : exn → prog A) :
  all_events P p → (∀ e, all_events P (h e)) → all_events P (try_except p h).
Proof.
  intros Hp Hh.
  induction p as [a|e|X e k IH]; cbn in *; [done|apply Hh|].
  destruct Hp as [HP Hk]. split; [done|]. intros x. by apply IH.
Qed.

Lemma all_events_fmap {A B} (g : A → B) (p : prog A) :
  all_events P p → all_events P (g <$> p).
Proof. intros Hp. by apply all_events_bind. Qed.

Lemma all_events_finally {A} (p : prog A) (q : prog unit) :
  all_events P p → all_events P q → all_events P (finally p q).
Proof.
  intros Hp Hq. apply all_events_bind.
  - apply all_events_try_except; [by apply all_events_fmap|done].
  - intros r. apply all_events_bind; [done|]. by intros []; destruct r.
Qed.

Lemma all_events_trigger {X} (e : event X) :
  P X e → all_events P (trigger e).
Proof. by split. Qed.

Lemma all_events_lift {A} (x : exn + A) : all_events P (lift x).
Proof. by destruct x. Qed.

Lemma all_events_request (e : event reply) :
  P _ e → all_events P (request e).
Proof. intros HP. split; [done|]. by intros []. Qed.

Lemma all_events_read_json r : all_events P (read_json r).
Proof. unfold read_json. by destruct (json r). Qed.

Lemma all_events_read_text r : all_events P (read_text r).
Proof. unfold read_text. by destruct (text r). Qed.

Lemma all_events_gather tasks :
  P _ (Gather tasks) → all_events P (gather tasks).
Proof. intros HP. split; [done|]. by intros []. Qed.
End Events.

(** *** Invariants of runs *)

(** A relation between worlds that every event in [P] respects holds
    between the start and the end of every run of a program whose events
    are in [P], under every schedule. *)
Section Invariant.
Context (env : Env) (P : ∀ X, event X → Prop) (R : relation World).
Context `{!Reflexive R, !Transitive R}.
Hypothesis R_step : ∀ X (e : event X) w, P X e → R w (handle_basic env e w).2.

Lemma step_task_sat c i :
  Forall (all_events P) c.1 →
  Forall (all_events P) (step_task env c i).1 ∧ R c.2 (step_task env c i).2.
Proof.
  intros Hc. unfold step_task.
  destruct (c.1 !! i) as [[a|e|X e k]|] eqn:Hi; try done.
  pose proof (Forall_lookup_1 _ _ _ _ Hc Hi) as Hp.
  cbn in Hp. destruct Hp as [HP Hk].
  specialize (R_step _ e c.2 HP).
  destruct (handle_basic env e c.2) as [[x|] w']; cbn in *; [|done].
  split; [|done]. apply Forall_insert; [done|apply Hk].
Qed.

Lemma run_pool_sat sched c :
  Forall (all_events P) c.1 →
  Forall (all_events P) (run_pool env sched c).1 ∧
  R c.2 (run_pool env sched c).2.
Proof.
  revert c. induction sched as [|i sched IH]; intros c Hc; [done|].
  cbn. destruct (step_task_sat c i Hc) as [H1 H2].
  destruct (IH _ H1) as [H3 H4]. split; [done|by etrans].
Qed.

Lemma handle_sat sched X (e : event X) w :
  with_tasks P X e → R w (handle env sched e w).2.
Proof.
  destruct e; cbn; try apply R_step.
  intros Ht. apply (run_pool_sat _ (_, w)). cbn.
  by apply Forall_fmap.
Qed.

Lemma exec_sat sched {A} (p : prog A) w :
  all_events (with_tasks P) p → R w (exec env sched p w).2.
Proof.
  revert w. induction p as [a|e|X e k IH]; intros w Hp; cbn; try done.
  destruct Hp as [HP Hk]. pose proof (handle_sat sched _ e w HP) as Hh.
  destruct (handle env sched e w) as [[x|] w']; cbn in *; [|done].
  etrans; [done|by apply IH].
Qed.
End Invariant.

#[global] Instance trace_grows_refl : Reflexive trace_grows.
Proof. intros w. by unfold trace_grows. Qed.

#[global] Instance trace_grows_trans : Transitive trace_grows.
Proof. unfold trace_grows. intros w1 w2 w3 H1 H2. by etrans. Qed.

Lemma handle_basic_trace env {X} (e : event X) w :
  trace_grows w (handle_basic env e w).2.
Proof.
  unfold trace_grows.
  destruct e; cbn; try done; try (by apply prefix_app_r);
    repeat case_match; cbn; try done; by apply prefix_app_r.
Qed.

Lemma exec_trace env sched {A} (p : prog A) w :
  trace w `prefix_of` trace (exec env sched p w).2.
Proof.
  apply (exec_sat env any_event trace_grows).
  - intros X e w0 _. apply handle_basic_trace.
  - apply all_events_with_tasks_any.
Qed.

Lemma since_trans w w' w'' :
  trace w `prefix_of` trace w' → trace w' `prefix_of` trace w'' →
  since w w'' = since w w' ++ since w' w''.
Proof.
  intros [l1 H1] [l2 H2]. rewrite (since_app w w' l1 H1), (since_app w' w'' l2 H2).
  apply since_app. by rewrite H2, H1, app_assoc.
Qed.

(** The trace of a run that was computed, compared with the trace before. *)
Ltac since_tac :=
  first [ rewrite since_refl by reflexivity
        | erewrite since_app by (cbn; rewrite <- ?app_assoc; reflexivity) ].

(** Membership in an explicit list, as a hypothesis and as a goal. *)
Ltac mem_inv H :=
  repeat (apply elem_of_cons in H as [H|H];
          [try discriminate H; try (injection H as ?; subst)|]);
  try (by apply elem_of_nil in H).
Ltac mem :=
  by (repeat first [apply list_elem_of_here | apply list_elem_of_further]).

Ltac no_post :=
  split; [intros ??? Hin; revert Hin; since_tac; intros Hin; by mem_inv Hin|done].

(** ** Ingestion: one validation task *)

(** C2. A candidate that is blank after stripping, or already in the known
    set, or whose probe is not answered with status 200, makes the task
    issue no insert at all, and the working set is as before: a record is
    created only after a successful probe. *)
Theorem validate_and_add_gated env sched proxy_addr existing w :
  let a := strip proxy_addr in
  let w' := (exec env sched (validate_and_add proxy_addr existing) w).2 in
  a = [] ∨ HStr a ∈ default ∅ (sets w !! existing) ∨
    alive (probe_reply env (tick w) (PStr a)) = false →
  (∀ c data r, IoPost c data r ∉ since w w') ∧ working w' = working w.
Proof.
  intros a w' H. subst w'.
  unfold validate_and_add, with_semaphore, with_lock, finally, is_proxy_alive.
  fold a. cbn. destruct (permits w) eqn:E; cbn; [no_post|].
  case_bool_decide as Ha; cbn; [no_post|].
  destruct (locked w) eqn:El; cbn; [no_post|].
  case_bool_decide as Hk; cbn; [no_post|].
  destruct H as [H|[H|H]]; [done..|].
  destruct (probe_reply env (tick w) (PStr a)) as [e|x]; cbn in *; [no_post|].
  rewrite H. cbn. no_post.
Qed.

Lemma validate_and_add_gated_witness :
  alive (probe_reply dead_env 0 (PStr some_addr)) = false ∧
  (∀ c data r, IoPost c data r ∉
     since empty_world
       (exec dead_env never (validate_and_add some_addr 0%nat) empty_world).2) ∧
  working (exec dead_env never (validate_and_add some_addr 0%nat) empty_world).2
  = [].
Proof.
  split; [reflexivity|].
  apply (validate_and_add_gated dead_env never some_addr 0%nat empty_world).
  right; right; reflexivity.
Defined.

(** ** Eviction: one check task *)

(** C3. A check task that gets a permit deletes its key from the working
    set exactly when the probe fails, and deletes nothing else; after a
    successful probe its only request was the probe and both collections
    are untouched; after a failed probe, a store that serves the delete has
    dropped the key. *)
Theorem check_and_delete_spec env sched key proxy_addr w :
  permits w ≠ 0%nat →
  let r := probe_reply env (tick w) proxy_addr in
  let w' := (exec env sched (check_and_delete key proxy_addr) w).2 in
  ((∃ rd, IoDelete Working key rd ∈ since w w') ↔ alive r = false) ∧
  (∀ c k rd, IoDelete c k rd ∈ since w w' → c = Working ∧ k = key) ∧
  (alive r = true →
     since w w' = [IoProbe proxy_addr r] ∧
     working w' = working w ∧ stable w' = stable w) ∧
  (alive r = false → store_fault env (S (tick w)) = None →
     working w' = store_delete key (working w) ∧ stable w' = stable w).
Proof.
  intros Hp r w'. subst w'.
  unfold check_and_delete, with_semaphore, finally, is_proxy_alive.
  cbn. destruct (permits w) eqn:E; [done|]. cbn. fold r.
  destruct r as [e|x] eqn:Hr; cbn.
  2: destruct (status x =? 200) eqn:Hst; cbn.
  2: { since_tac. split_and!; try done.
    - split; [intros [rd H]|done]. mem_inv H.
    - intros c k rd H. mem_inv H. }
  all: destruct (store_fault env (S (tick w))) as [[e'|x']|] eqn:Hf; cbn;
    try destruct (status x' =? 200); cbn; since_tac;
    (split_and!; try done; [|intros c k rd H; by mem_inv H]);
    (split; [done|intros _; eexists; mem]).
Qed.

Lemma check_and_delete_spec_witness :
  permits aged_world ≠ 0%nat ∧
  let r := probe_reply dead_env (tick aged_world) (PStr some_addr) in
  let w' := (exec dead_env never (check_and_delete old_key (PStr some_addr))
               aged_world).2 in
  ((∃ rd, IoDelete Working old_key rd ∈ since aged_world w') ↔
     alive r = false) ∧
  (∀ c k rd, IoDelete c k rd ∈ since aged_world w' →
     c = Working ∧ k = old_key) ∧
  (alive r = true →
     since aged_world w' = [IoProbe (PStr some_addr) r] ∧
     working w' = working aged_world ∧ stable w' = stable aged_world) ∧
  (alive r = false → store_fault dead_env (S (tick aged_world)) = None →
     working w' = store_delete old_key (working aged_world) ∧
     stable w' = stable aged_world).
Proof.
  split; [done|].
  apply (check_and_delete_spec dead_env never old_key (PStr some_addr) aged_world).
  done.
Defined.

(** ** Promotion *)

Lemma exec_request env sched (e : event reply) w :
  exec env sched (request e) w =
  match handle env sched e w with
  | (Some (Resp x), w') => (Done x, w')
  | (Some (Raised ex), w') => (Failed ex, w')
  | (None, w') => (Pending, w')
  end.
Proof. cbn. by destruct (handle env sched e w) as [[[]|] ?]. Qed.

#[global] Instance sound_posts_refl Φ : Reflexive (sound_posts Φ).
Proof.
  intros w. split; [done|]. intros c d r. rewrite since_refl by done.
  by intros ?%elem_of_nil.
Qed.

#[global] Instance sound_posts_trans Φ : Transitive (sound_posts Φ).
Proof.
  intros w1 w2 w3 [H1 H2] [H3 H4]. split; [by etrans|].
  intros c d r. rewrite (since_trans w1 w2 w3 H1 H3), elem_of_app.
  intros [?|?]; eauto.
Qed.

Lemma no_post_sound env Φ X (e : event X) w :
  no_post X e → sound_posts Φ w (handle_basic env e w).2.
Proof.
  intros He. split; [apply handle_basic_trace|].
  intros c d r. destruct e; try done; cbn; repeat case_match; cbn;
    since_tac; intros Hin; by mem_inv Hin.
Qed.

Lemma exec_no_post env sched Φ {A} (p : prog A) w :
  all_events (with_tasks no_post) p → sound_posts Φ w (exec env sched p w).2.
Proof. apply exec_sat; [apply _..|]. intros. by apply no_post_sound. Qed.

Lemma no_post_get_existing_proxies url :
  all_events (with_tasks no_post) (get_existing_proxies url).
Proof.
  unfold get_existing_proxies. apply all_events_try_except.
  - apply all_events_bind; [by apply all_events_request|]. intros r.
    case_match; [|done].
    apply all_events_bind; [apply all_events_read_json|]. intros data.
    case_match; [|done].
    apply all_events_bind; [apply all_events_lift|]. intros its.
    generalize (its.*2). clear. intros vals.
    induction vals as [|v vals IH]; cbn; [done|].
    apply all_events_bind; [apply all_events_lift|]. intros a.
    case_match; [|done].
    apply all_events_bind; [apply all_events_lift|]. intros h.
    by apply all_events_bind.
  - intros e. by apply all_events_bind.
Qed.

Lemma promote_sound env sched thr t key val S w c data r :
  let w' := (exec env sched (promote thr t key val S) w).2 in
  IoPost c data r ∈ since w w' →
  c = Stable ∧
  ∃ p_addr age h,
    get val (u "address") PNone = inr p_addr ∧ age_of t val = inr age ∧
    thr ≤ age ∧ hash p_addr = inr h ∧ (h ∉ S) ∧
    data = stable_data p_addr t key age.
Proof.
  intros w'. subst w'. unfold promote.
  destruct (get val (u "address") PNone) as [e|p_addr] eqn:Hg; cbn.
  { since_tac. intros Hin; mem_inv Hin. }
  destruct (age_of t val) as [e|age] eqn:Ha; cbn.
  { since_tac. intros Hin; mem_inv Hin. }
  destruct (thr <=? age) eqn:Hthr; cbn.
  2: { since_tac. intros Hin; mem_inv Hin. }
  destruct (hash p_addr) as [e|h] eqn:Hh; cbn.
  { since_tac. intros Hin; mem_inv Hin. }
  case_bool_decide as HS; cbn.
  2: { since_tac. intros Hin; mem_inv Hin. }
  destruct (store_fault env _) as [[e'|x']|] eqn:Hf; cbn;
    try destruct (status x' =? 200); cbn; since_tac; intros Hin; mem_inv Hin;
    (split; [done|]); exists p_addr, age, h; split_and!; try done; lia.
Qed.

Lemma promote_frame env sched thr t key val S w :
  let r := exec env sched (promote thr t key val S) w in
  working r.2 = working w ∧
  match r.1 with Done S' => S ⊆ S' | _ => True end.
Proof.
  unfold promote.
  destruct (get val (u "address") PNone) as [e|p_addr] eqn:Hg; cbn; [done|].
  destruct (age_of t val) as [e|age] eqn:Ha; cbn; [done|].
  destruct (thr <=? age) eqn:Hthr; cbn; [|done].
  destruct (hash p_addr) as [e|h] eqn:Hh; cbn; [done|].
  case_bool_decide as HS; cbn; [|done].
  destruct (store_fault env _) as [[e'|x']|] eqn:Hf; cbn;
    try destruct (status x' =? 200); cbn; split; try done;
    apply union_subseteq_r.
Qed.

Lemma promote_all_sound env sched thr t its S w c data r :
  let w' := (exec env sched (promote_all thr t its S) w).2 in
  IoPost c data r ∈ since w w' →
  c = Stable ∧
  ∃ key val p_addr age h,
    (key, val) ∈ its ∧
    get val (u "address") PNone = inr p_addr ∧ age_of t val = inr age ∧
    thr ≤ age ∧ hash p_addr = inr h ∧ (h ∉ S) ∧
    data = stable_data p_addr t key age.
Proof.
  revert S w. induction its as [|[key val] its IH]; intros S w w'; subst w'.
  { cbn. since_tac. intros Hin; mem_inv Hin. }
  change (promote_all thr t ((key, val) :: its) S)
    with (promote thr t key val S ≫= promote_all thr t its).
  rewrite exec_bind.
  pose proof (promote_sound env sched thr t key val S w c data r) as H1.
  pose proof (promote_frame env sched thr t key val S w) as [_ H2].
  pose proof (exec_trace env sched (promote thr t key val S) w) as H3.
  destruct (exec env sched (promote thr t key val S) w) as [[S'| |] w1]; cbn in *.
  - pose proof (exec_trace env sched (promote_all thr t its S') w1) as H4.
    rewrite (since_trans w w1 _ H3 H4). rewrite elem_of_app. intros [Hin|Hin].
    + destruct (H1 Hin) as (-> & p & a & h & ?). split; [done|].
      exists key, val, p, a, h. split; [apply list_elem_of_here|done].
    + destruct (IH S' w1 Hin) as (-> & k & v & p & a & h & ? & ? & ? & ? & ? & ? & ?).
      split; [done|]. exists k, v, p, a, h.
      split_and!; try done; [by apply list_elem_of_further|].
      intros ?. by apply H8, H2.
  - intros Hin. destruct (H1 Hin) as (-> & p & a & h & ?). split; [done|].
      exists key, val, p, a, h. split; [apply list_elem_of_here|done].
  - intros Hin. destruct (H1 Hin) as (-> & p & a & h & ?). split; [done|].
      exists key, val, p, a, h. split; [apply list_elem_of_here|done].
Qed.

Lemma items_store_json s its :
  truthy (store_json s) = true → items (store_json s) = inr its → its = s.
Proof. destruct s; cbn; [done|]. by intros _ [= <-]. Qed.

Lemma promote_all_sound_posts env sched thr t its S w :
  sound_posts (promoted_from thr t its) w
    (exec env sched (promote_all thr t its S) w).2.
Proof.
  split; [apply exec_trace|]. intros c data r Hin.
  destruct (promote_all_sound env sched thr t its S w c data r Hin)
    as (-> & k & v & p & a & h & ? & ? & ? & ? & ? & ? & ?).
  split; [done|]. by exists k, v, p, a.
Qed.

Lemma stability_cycle_sound env sched thr w :
  store_fault env (tick w) = None →
  sound_posts (promoted_from thr (clock env (S (tick w))) (working w))
    w (exec env sched (stability_cycle thr) w).2.
Proof.
  intros Hf. unfold stability_cycle.
  rewrite exec_bind, exec_try_except, exec_bind, exec_request.
  cbn [handle handle_basic]. rewrite Hf.
  set (Φ := promoted_from _ _ _).
  set (w1 := advance (record _ w)).
  assert (sound_posts Φ w w1) as H1.
  { split; [by apply prefix_app_r|]. intros c d r. unfold w1. since_tac.
    intros Hin. by mem_inv Hin. }
  cbn [ok status]. cbn [Z.eqb Pos.eqb].
  match goal with |- context [exec env sched ?b w1] => set (body := b) end.
  assert (sound_posts Φ w1 (exec env sched body w1).2) as H2.
  { unfold body. rewrite exec_bind. cbn [read_json json exec].
    destruct (working w) as [|it its] eqn:Hw; cbn [coll FIREBASE_BASE_URL store_json truthy];
      rewrite ?Hw; cbn [store_json truthy]; [done|].
    rewrite exec_bind. cbn [trigger exec handle handle_basic].
    rewrite exec_bind.
    pose proof (exec_no_post env sched Φ (get_existing_proxies STABLE_PROXIES_URL)
                  (advance w1) (no_post_get_existing_proxies _)) as H3.
    destruct (exec env sched (get_existing_proxies STABLE_PROXIES_URL) (advance w1))
      as [[S| |] w3]; cbn [snd] in H3; try done.
    rewrite exec_bind. cbn [lift items exec]. rewrite exec_bind.
    pose proof (promote_all_sound_posts env sched thr (clock env (tick w1))
                  (it :: its) S w3) as H4.
    destruct (exec env sched (promote_all _ _ _ _) w3) as [[S'| |] w4];
      cbn [snd exec] in *; by etrans. }
  destruct (exec env sched body w1) as [[[]|e|] w2]; cbn [snd] in *.
  - etrans; [done|]. etrans; [done|]. by apply exec_no_post.
  - etrans; [done|]. etrans; [done|].
    pose proof (exec_no_post env sched Φ (log ERROR "Stability monitor error") w2) as H3.
    destruct (exec env sched (log ERROR _) w2) as [[[]|e'|] w3]; cbn [snd] in *.
    + etrans; [by apply H3|]. by apply exec_no_post.
    + by apply H3.
    + by apply H3.
  - by etrans.
Qed.

#[global] Instance posted_only_refl c : Reflexive (posted_only c).
Proof. intros w. split; [done|]. by left. Qed.

#[global] Instance posted_only_trans c : Transitive (posted_only c).
Proof.
  intros w1 w2 w3 [H1 H2] [H3 H4]. split; [by etrans|].
  intros it Hit. rewrite (since_trans w1 w2 w3 H1 H3).
  setoid_rewrite elem_of_app.
  destruct (H4 it Hit) as [Hin|[r Hr]]; [|by eauto].
  destruct (H2 it Hin) as [?|[r Hr]]; eauto.
Qed.

Lemma handle_basic_posted_only env c {X} (e : event X) w :
  posted_only c w (handle_basic env e w).2.
Proof.
  split; [apply handle_basic_trace|]. intros it.
  destruct e; cbn; try (by left); repeat case_match; cbn; try (by left).
  - destruct c, url; cbn; try (by left).
    all: unfold store_insert; rewrite elem_of_app, list_elem_of_singleton;
      (intros [?| ->]; [by left|right]); eexists; since_tac; cbn; mem.
  - destruct c, url; cbn; try (by left).
    all: unfold store_delete; rewrite list_elem_of_filter; intros [_ ?]; by left.
Qed.

Lemma exec_posted_only env sched c {A} (p : prog A) w :
  posted_only c w (exec env sched p w).2.
Proof.
  apply (exec_sat env any_event (posted_only c)).
  - intros. apply handle_basic_posted_only.
  - apply all_events_with_tasks_any.
Qed.

(** What a promotion cycle leaves in the stable set was there before or
    was promoted in this cycle. *)
Lemma stability_cycle_stored env sched thr w k data :
  store_fault env (tick w) = None →
  (k, data) ∈ stable (exec env sched (stability_cycle thr) w).2 →
  (k, data) ∈ stable w ∨
  promoted_from thr (clock env (S (tick w))) (working w) Stable data.
Proof.
  intros Hf Hin.
  destruct (stability_cycle_sound env sched thr w Hf) as [_ H1].
  destruct (exec_posted_only env sched Stable (stability_cycle thr) w) as [_ H2].
  destruct (H2 _ Hin) as [?|[r Hr]]; [by left|right]. by eapply H1.
Qed.

(** The fields of the record the promotion loop builds. *)
Lemma stable_data_fields p_addr t key age :
  has_fields (stable_data p_addr t key age)
    [(u "address", p_addr);
     (u "promoted_at", PNum t);
     (u "original_key", PStr key);
     (u "age_seconds", PNum age)].
Proof.
  split; [by eexists|]. repeat (apply Forall_cons; split; [by vm_compute|]).
  apply Forall_nil_2.
Qed.

Lemma promoted_from_record thr t its c data :
  promoted_from thr t its c data → c = Stable ∧ promoted_record thr t its data.
Proof.
  intros (-> & key & val & p_addr & age & Hin & Hp & Ha & Hthr & ->).
  split; [done|]. exists key, val, p_addr, age. split_and!; try done.
  apply stable_data_fields.
Qed.

(** C6. In a promotion cycle whose read of the working set is served, every
    insert request goes to the stable set and carries the StableRecord of
    an entry of the working set, an object that has exactly four fields:
    [address] reads that entry's address, [promoted_at] the scan time [t]
    (the cycle's one reading of the clock), [original_key] the entry's key
    and [age_seconds] the age computed at [t], which has reached the
    threshold; and every record of the stable set after the cycle was
    there before or is such a record. *)
Theorem promotion_record env sched thr w :
  store_fault env (tick w) = None →
  let t := clock env (S (tick w)) in
  let w' := (exec env sched (stability_cycle thr) w).2 in
  (∀ c data r, IoPost c data r ∈ since w w' →
     c = Stable ∧ promoted_record thr t (working w) data) ∧
  (∀ k data, (k, data) ∈ stable w' →
     (k, data) ∈ stable w ∨ promoted_record thr t (working w) data).
Proof.
  intros Hf t w'. split.
  - intros c data r Hin. apply promoted_from_record.
    destruct (stability_cycle_sound env sched thr w Hf) as [_ H].
    by eapply H.
  - intros k data Hin.
    destruct (stability_cycle_stored env sched thr w k data Hf Hin)
      as [?|H]; [by left|right].
    by apply promoted_from_record in H as [_ H].
Qed.

Lemma lookup_item_NoDup (its : list (str * pyval)) key v1 v2 :
  NoDup its.*1 → (key, v1) ∈ its → (key, v2) ∈ its → v1 = v2.
Proof.
  intros Hnd H1 H2.
  induction its as [|[k v] its IH]; [by apply elem_of_nil in H1|].
  cbn in Hnd. apply NoDup_cons in Hnd as [Hk Hnd].
  apply elem_of_cons in H1 as [H1|H1], H2 as [H2|H2]; simplify_eq; try done.
  - destruct Hk. by apply (list_elem_of_fmap_2 fst _ (k, v2)).
  - destruct Hk. by apply (list_elem_of_fmap_2 fst _ (k, v1)).
  - by apply IH.
Qed.

(** C5. A working-set record without [created_at] has age 0 at every scan
    time, and for a positive threshold a promotion cycle neither requests
    nor stores a StableRecord whose [original_key] is the key of that
    record. *)
Theorem missing_created_at_never_promoted env sched thr w key d :
  0 < thr →
  NoDup (working w).*1 →
  (key, PDict d) ∈ working w →
  lookup_item (u "created_at") d = None →
  store_fault env (tick w) = None →
  let w' := (exec env sched (stability_cycle thr) w).2 in
  (∀ t, age_of t (PDict d) = inr 0) ∧
  (∀ c p_addr t age r,
     IoPost c (stable_data p_addr t key age) r ∉ since w w') ∧
  (∀ k p_addr t age,
     (k, stable_data p_addr t key age) ∈ stable w' →
     (k, stable_data p_addr t key age) ∈ stable w).
Proof.
  intros Hthr Hnd Hin Hd Hf w'.
  assert (∀ t, age_of t (PDict d) = inr 0) as Hage.
  { intros t. unfold age_of, get. rewrite Hd. cbn. by rewrite Z.sub_diag. }
  destruct (stability_cycle_sound env sched thr w Hf) as [_ H1].
  pose proof (λ k data, stability_cycle_stored env sched thr w k data Hf) as H2.
  assert (∀ c p_addr t age,
            ¬ promoted_from thr (clock env (S (tick w))) (working w) c
                (stable_data p_addr t key age)) as Hno.
  { intros c p t age (_ & k & v & p' & a & Hkv & _ & Ha & Hle & Heq).
    injection Heq as -> -> -> ->.
    rewrite (lookup_item_NoDup _ _ _ _ Hnd Hkv Hin), Hage in Ha.
    injection Ha as <-. lia. }
  split_and!; [done|..].
  - intros c p t age r Hp. by eapply Hno, H1.
  - intros k p t age Hk. destruct (H2 _ _ Hk) as [?|Hp]; [done|].
    by apply Hno in Hp.
Qed.

(** *** A store that serves every request *)

Lemma has_address_spec a val :
  has_address a val ↔ get val (u "address") PNone = inr (PStr a).
Proof.
  unfold has_address.
  destruct (get val _ _) as [e|[]]; cbn; try (split; [done|by intros [=]]).
  rewrite bool_decide_spec. split; [by intros ->|by intros [= ->]].
Qed.

Lemma hash_str p a : hash p = inr (HStr a) ↔ p = PStr a.
Proof. destruct p as [|[]| | | |]; cbn; split; try done; congruence. Qed.

Lemma count_address_app a s1 s2 :
  count_address a (s1 ++ s2) = (count_address a s1 + count_address a s2)%nat.
Proof. unfold count_address. by rewrite filter_app, length_app. Qed.

Lemma count_address_pos a s :
  (0 < count_address a s)%nat ↔ ∃ it, it ∈ s ∧ has_address a it.2.
Proof.
  unfold count_address. split.
  - destruct (filter _ s) as [|it l] eqn:Hf; cbn; [lia|]. intros _.
    exists it.
    assert (it ∈ filter (λ it, has_address a it.2) s) as Hin
      by (rewrite Hf; apply list_elem_of_here).
    apply list_elem_of_filter in Hin as [? ?]. done.
  - intros (it & Hin & Hit).
    assert (it ∈ filter (λ it, has_address a it.2) s) as Hf
      by by apply list_elem_of_filter.
    destruct (filter _ s); [by apply elem_of_nil in Hf|cbn; lia].
Qed.

(** the comprehension on well-formed records *)
Lemma addresses_ok vals :
  Forall stable_ok vals →
  ∃ S, addresses vals = Ret S ∧
       ∀ a, a ≠ [] → HStr a ∈ S ↔ ∃ v, v ∈ vals ∧ has_address a v.
Proof.
  induction 1 as [|v vals (p & h & Hp & Hh) _ (S & HS & IH)]; cbn.
  { exists ∅. split; [done|]. intros a _. split; [set_solver|].
    intros (v & Hv & _). by apply elem_of_nil in Hv. }
  rewrite Hp. cbn. destruct (truthy p) eqn:Ht.
  - rewrite Hh. cbn. rewrite HS. cbn. eexists; split; [done|].
    intros a Ha. rewrite elem_of_union, elem_of_singleton, IH by done.
    split.
    + intros [[= <-]|(v' & ? & ?)].
      * exists v. split; [apply list_elem_of_here|].
        apply has_address_spec. rewrite Hp. f_equal. by apply hash_str.
      * exists v'. split; [by apply list_elem_of_further|done].
    + intros (v' & [->|Hin]%elem_of_cons & Hv').
      * left. apply has_address_spec in Hv'. rewrite Hp in Hv'.
        injection Hv' as ->. cbn in Hh. congruence.
      * right. eauto.
  - exists S. split; [done|]. intros a Ha. rewrite IH by done. split.
    + intros (v' & ? & ?). exists v'. split; [by apply list_elem_of_further|done].
    + intros (v' & [->|Hin]%elem_of_cons & Hv'); [|by eauto].
      apply has_address_spec in Hv'. rewrite Hp in Hv'. injection Hv' as ->.
      cbn in Ht. case_bool_decide; done.
Qed.

Lemma stable_ok_stable_data p h t key age :
  hash p = inr h → stable_ok (stable_data p t key age).
Proof. intros Hh. by exists p, h. Qed.

Lemma count_address_singleton a k v :
  count_address a [(k, v)] = if has_address a v then 1%nat else 0%nat.
Proof.
  unfold count_address. destruct (has_address a v) eqn:H.
  - rewrite filter_cons_True; [done|]. cbn. by rewrite H.
  - rewrite filter_cons_False; [done|]. cbn. rewrite H. by intros [].
Qed.

Lemma has_address_stable_data a p t key age :
  has_address a (stable_data p t key age) ↔ p = PStr a.
Proof.
  rewrite has_address_spec. cbn. rewrite bool_decide_eq_true_2 by done.
  cbn. split; congruence.
Qed.

Section Serving.
Context (env : Env) (sched : schedule) (thr : Z) (a : str).
Hypothesis serving : ∀ n, store_fault env n = None.

Lemma promote_serving t key val S w :
  record_ok val →
  Forall stable_ok (stable w).*2 →
  snapshot_inv a S (stable w) →
  ∃ S' w',
    exec env sched (promote thr t key val S) w = (Done S', w') ∧
    working w' = working w ∧
    Forall stable_ok (stable w').*2 ∧
    snapshot_inv a S' (stable w') ∧
    S ⊆ S' ∧
    (∀ age, has_address a val → age_of t val = inr age → thr ≤ age →
            HStr a ∈ S').
Proof.
  intros [(p & h & Hp & Hh) Hage] Hst [Hle Hin].
  destruct (Hage t) as [age Ha]. unfold promote. rewrite Hp, Ha. cbn.
  destruct (thr <=? age) eqn:Hthr; cbn.
  2: { exists S, w. split_and!; try done. intros age' _ [= <-] ?. lia. }
  rewrite Hh. cbn. case_bool_decide as HS; cbn.
  2: { exists S, w. split_and!; try done. intros age' Hv _ _.
       apply has_address_spec in Hv. rewrite Hp in Hv.
       simplify_eq. cbn in Hh. by simplify_eq. }
  rewrite serving. cbn. eexists _, _. split; [done|]. cbn.
  unfold store_insert. split_and!; try done.
  - rewrite fmap_app. apply Forall_app. split; [done|].
    apply Forall_singleton. by eapply stable_ok_stable_data.
  - unfold snapshot_inv.
    rewrite count_address_app, count_address_singleton.
    rewrite elem_of_union, elem_of_singleton.
    pose proof (has_address_stable_data a p t key age) as Hpa.
    destruct (has_address a (stable_data p t key age)).
    + rewrite (proj1 Hpa I) in *. cbn in Hh. simplify_eq.
      assert (count_address a (stable w) = 0%nat) as ->.
      { destruct (count_address a (stable w)) as [|[|n]]; [done| |lia].
        destruct HS. by apply Hin. }
      split; [done|]. split; [done|]. intros _. by left.
    + rewrite Nat.add_0_r. split; [done|]. rewrite <- Hin. split.
      * intros [[= <-]|?]; [|done]. apply hash_str, Hpa in Hh. done.
      * by right.
  - apply union_subseteq_r.
  - intros age' Hv _ _. apply has_address_spec in Hv. rewrite Hp in Hv.
    simplify_eq. cbn in Hh. simplify_eq.
    by apply elem_of_union_l, elem_of_singleton.
Qed.

Lemma promote_all_serving t its S w :
  Forall record_ok its.*2 →
  Forall stable_ok (stable w).*2 →
  snapshot_inv a S (stable w) →
  ∃ S' w',
    exec env sched (promote_all thr t its S) w = (Done S', w') ∧
    working w' = working w ∧
    Forall stable_ok (stable w').*2 ∧
    snapshot_inv a S' (stable w') ∧
    S ⊆ S' ∧
    (∀ key val age, (key, val) ∈ its → has_address a val →
                    age_of t val = inr age → thr ≤ age → HStr a ∈ S').
Proof.
  revert S w. induction its as [|[key val] its IH]; intros S w Hits Hst Hinv.
  { exists S, w. split_and!; try done. intros ??? Hin. by apply elem_of_nil in Hin. }
  cbn in Hits. apply Forall_cons in Hits as [Hval Hits].
  change (promote_all thr t ((key, val) :: its) S)
    with (promote thr t key val S ≫= promote_all thr t its).
  rewrite exec_bind.
  destruct (promote_serving t key val S w Hval Hst Hinv)
    as (S1 & w1 & -> & Hw1 & Hst1 & Hinv1 & HS1 & Ht1).
  destruct (IH S1 w1 Hits Hst1 Hinv1)
    as (S2 & w2 & -> & Hw2 & Hst2 & Hinv2 & HS2 & Ht2).
  exists S2, w2. split_and!; try done; [congruence|by etrans|].
  intros k v age [[= -> ->]|Hin]%elem_of_cons Hv Ha Hle.
  - apply HS2. by eapply Ht1.
  - by eapply Ht2.
Qed.

Lemma get_existing_serving url w :
  Forall stable_ok (coll url w).*2 →
  ∃ S,
    exec env sched (get_existing_proxies url) w
    = (Done S, advance (record (IoGet url (ok (store_json (coll url w)))) w)) ∧
    ∀ b, b ≠ [] → HStr b ∈ S ↔ (0 < count_address b (coll url w))%nat.
Proof.
  intros Hok. unfold get_existing_proxies.
  rewrite exec_try_except, exec_bind, exec_request.
  cbn [handle handle_basic]. rewrite serving. cbn [ok status Z.eqb Pos.eqb].
  rewrite exec_bind. cbn [read_json json exec].
  destruct (coll url w) as [|it its] eqn:Hc; cbn [store_json truthy exec].
  { exists ∅. split; [done|]. intros b _. split.
    - by intros ?%not_elem_of_empty.
    - unfold count_address. cbn. lia. }
  rewrite exec_bind. cbn [lift items exec].
  destruct (addresses_ok _ Hok) as (S & -> & HS). exists S. split; [done|].
  intros b Hb. rewrite HS, count_address_pos by done. split.
  - intros (v & Hv & ?). apply list_elem_of_fmap in Hv as (it' & -> & ?). eauto.
  - intros (it' & ? & ?). exists it'.2. split; [|done].
    by apply list_elem_of_fmap_2.
Qed.
End Serving.

Section Cycle.
Context (env : Env) (sched : schedule) (thr : Z) (a : str).
Hypothesis serving : ∀ n, store_fault env n = None.
Hypothesis a_nonempty : a ≠ [].

Lemma stability_cycle_serving w :
  Forall record_ok (working w).*2 →
  Forall stable_ok (stable w).*2 →
  (count_address a (stable w) ≤ 1)%nat →
  ∃ w',
    exec env sched (stability_cycle thr) w = (Done (), w') ∧
    working w' = working w ∧
    Forall stable_ok (stable w').*2 ∧
    (count_address a (stable w') ≤ 1)%nat ∧
    (∀ key val age,
       (key, val) ∈ working w → has_address a val →
       age_of (clock env (S (tick w))) val = inr age → thr ≤ age →
       count_address a (stable w') = 1%nat).
Proof.
  intros Hw Hst Hle. unfold stability_cycle.
  rewrite exec_bind, exec_try_except, exec_bind, exec_request.
  cbn [handle handle_basic]. rewrite serving.
  cbn [ok status Z.eqb Pos.eqb]. rewrite exec_bind. cbn [read_json json exec].
  set (w1 := advance (record _ w)).
  destruct (working w) as [|it its] eqn:Hits;
    cbn [coll FIREBASE_BASE_URL store_json truthy]; rewrite ?Hits;
    cbn [store_json truthy exec].
  { eexists. split; [done|]. cbn. split_and!; try done.
    intros ??? Hin. by apply elem_of_nil in Hin. }
  rewrite exec_bind. cbn [trigger exec handle handle_basic]. rewrite exec_bind.
  destruct (get_existing_serving env sched serving STABLE_PROXIES_URL
              (advance w1) Hst) as (S & -> & HS).
  rewrite exec_bind. cbn [lift items exec]. rewrite exec_bind.
  set (w3 := advance (record _ (advance w1))).
  assert (snapshot_inv a S (stable w3)) as Hinv.
  { split; [done|]. rewrite (HS a a_nonempty). unfold w3, w1. cbn. lia. }
  rewrite <- Hits in Hw.
  destruct (promote_all_serving env sched thr a serving (clock env (tick w1))
              (it :: its) S w3) as (S' & w4 & -> & Hw4 & Hst4 & [Hle4 Hin4] & _ & Ht);
    [by rewrite <- Hits|done..|].
  cbn. eexists. split; [done|]. cbn. split_and!; try done.
  { by rewrite Hw4. }
  intros key val age Hin Hv Ha Hthr. apply Hin4. by eapply Ht.
Qed.

(** C4, as the code has it.  With a store that serves every request, a
    working set of readable records of which one, with the non-empty
    address [a], is older than the threshold at every reading of the
    clock, and a stable set of readable records without one for [a]: after
    one promotion cycle and again after a second one the stable set holds
    exactly one record for [a], and the working set is unchanged. *)
Theorem promotion_idempotent w key val :
  Forall record_ok (working w).*2 →
  Forall stable_ok (stable w).*2 →
  count_address a (stable w) = 0%nat →
  (key, val) ∈ working w →
  has_address a val →
  (∀ n, ∃ age, age_of (clock env n) val = inr age ∧ thr ≤ age) →
  let w1 := (exec env sched (stability_cycle thr) w).2 in
  let w2 := (exec env sched (stability_cycle thr) w1).2 in
  working w2 = working w ∧
  count_address a (stable w1) = 1%nat ∧
  count_address a (stable w2) = 1%nat.
Proof.
  intros Hw Hst H0 Hin Hv Hold w1 w2. subst w1 w2.
  assert (count_address a (stable w) ≤ 1)%nat as Hle by lia.
  destruct (stability_cycle_serving w Hw Hst Hle)
    as (w1 & -> & Hw1 & Hst1 & Hle1 & H1).
  cbn [snd].
  rewrite <- Hw1 in Hw, Hin.
  destruct (stability_cycle_serving w1 Hw Hst1 Hle1) as (w2 & -> & Hw2 & _ & _ & H2).
  cbn [snd]. split_and!.
  - congruence.
  - destruct (Hold (S (tick w))) as (age1 & ? & ?). rewrite Hw1 in Hin. by eapply H1.
  - destruct (Hold (S (tick w1))) as (age2 & ? & ?). by eapply H2.
Qed.
End Cycle.

(** *** The scenario of the specification: one record created 700 seconds
    before the scan, threshold 600 *)

Lemma age_of_proxy_data t a lc ca : age_of t (proxy_data a lc ca) = inr (t - ca).
Proof. reflexivity. Qed.

Lemma record_ok_proxy_data a lc ca : record_ok (proxy_data a lc ca).
Proof.
  split; [by exists (PStr a), (HStr a)|]. intros t. eexists.
  apply age_of_proxy_data.
Qed.

Lemma promotion_record_witness :
  let w' := (exec demo_env never (stability_cycle STABILITY_THRESHOLD)
               aged_world).2 in
  let data := PDict [(u "address", PStr some_addr);
                     (u "promoted_at", PNum 101);
                     (u "original_key", PStr old_key);
                     (u "age_seconds", PNum 701)] in
  store_fault demo_env (tick aged_world) = None ∧
  stable w' = [(key_of 0, data)] ∧
  promoted_record STABILITY_THRESHOLD 101 (working aged_world) data.
Proof.
  intros w' data. split; [reflexivity|]. split; [by vm_compute|].
  destruct (promotion_record demo_env never STABILITY_THRESHOLD aged_world
              eq_refl) as [_ H].
  destruct (H (key_of 0) data) as [Hin|Hp]; [vm_compute; mem| |exact Hp].
  vm_compute in Hin. by apply elem_of_nil in Hin.
Defined.

Lemma missing_created_at_never_promoted_witness :
  0 < STABILITY_THRESHOLD ∧
  NoDup (working legacy_world).*1 ∧
  (old_key, PDict legacy_record) ∈ working legacy_world ∧
  lookup_item (u "created_at") legacy_record = None ∧
  store_fault demo_env (tick legacy_world) = None ∧
  let w' := (exec demo_env never (stability_cycle STABILITY_THRESHOLD)
               legacy_world).2 in
  (∀ t, age_of t (PDict legacy_record) = inr 0) ∧
  (∀ c p_addr t age r,
     IoPost c (stable_data p_addr t old_key age) r ∉ since legacy_world w') ∧
  (∀ k p_addr t age,
     (k, stable_data p_addr t old_key age) ∈ stable w' →
     (k, stable_data p_addr t old_key age) ∈ stable legacy_world).
Proof.
  assert (0 < STABILITY_THRESHOLD) as H1 by reflexivity.
  assert (NoDup (working legacy_world).*1) as H2 by apply NoDup_singleton.
  assert ((old_key, PDict legacy_record) ∈ working legacy_world) as H3
    by apply list_elem_of_here.
  assert (lookup_item (u "created_at") legacy_record = None) as H4
    by reflexivity.
  assert (store_fault demo_env (tick legacy_world) = None) as H5
    by reflexivity.
  repeat (split; [assumption|]).
  exact (missing_created_at_never_promoted demo_env never STABILITY_THRESHOLD
           legacy_world old_key legacy_record H1 H2 H3 H4 H5).
Defined.

Lemma promotion_idempotent_witness :
  (∀ n, store_fault demo_env n = None) ∧
  some_addr ≠ [] ∧
  Forall record_ok (working aged_world).*2 ∧
  Forall stable_ok (stable aged_world).*2 ∧
  count_address some_addr (stable aged_world) = 0%nat ∧
  (old_key, proxy_data some_addr (-600) (-600)) ∈ working aged_world ∧
  has_address some_addr (proxy_data some_addr (-600) (-600)) ∧
  (∀ n, ∃ age,
     age_of (clock demo_env n) (proxy_data some_addr (-600) (-600)) = inr age ∧
     STABILITY_THRESHOLD ≤ age) ∧
  let w1 := (exec demo_env never (stability_cycle STABILITY_THRESHOLD)
               aged_world).2 in
  let w2 := (exec demo_env never (stability_cycle STABILITY_THRESHOLD) w1).2 in
  working w2 = working aged_world ∧
  count_address some_addr (stable w1) = 1%nat ∧
  count_address some_addr (stable w2) = 1%nat.
Proof.
  assert (∀ n, store_fault demo_env n = None) as H1 by reflexivity.
  assert (some_addr ≠ []) as H2 by discriminate.
  assert (Forall record_ok (working aged_world).*2) as H3
    by (apply Forall_singleton, record_ok_proxy_data).
  assert (Forall stable_ok (stable aged_world).*2) as H4 by apply Forall_nil_2.
  assert (count_address some_addr (stable aged_world) = 0%nat) as H5
    by reflexivity.
  assert ((old_key, proxy_data some_addr (-600) (-600)) ∈ working aged_world)
    as H6 by apply list_elem_of_here.
  assert (has_address some_addr (proxy_data some_addr (-600) (-600))) as H7
    by exact I.
  assert (∀ n, ∃ age,
     age_of (clock demo_env n) (proxy_data some_addr (-600) (-600)) = inr age ∧
     STABILITY_THRESHOLD ≤ age) as H8.
  { intros n. eexists. split; [apply age_of_proxy_data|].
    unfold STABILITY_THRESHOLD. cbn. lia. }
  repeat (split; [assumption|]).
  exact (promotion_idempotent demo_env never STABILITY_THRESHOLD some_addr
           H1 H2 aged_world old_key _ H3 H4 H5 H6 H7 H8).
Defined.

(** C4 as stated fails.  A record whose address is the empty string is
    promoted again by the second cycle, because the known-stable snapshot
    keeps non-empty addresses only; and so is any record when the read of
    the stable set fails in the second cycle, because the snapshot is then
    empty.  Either way the stable set holds two records for the address
    after two cycles over an unchanged working set. *)
Lemma promotion_repeated :
  (let w1 := (exec demo_env never (stability_cycle STABILITY_THRESHOLD)
                blank_world).2 in
   let w2 := (exec demo_env never (stability_cycle STABILITY_THRESHOLD) w1).2 in
   working w2 = working blank_world ∧
   count_address [] (stable w1) = 1%nat ∧
   count_address [] (stable w2) = 2%nat) ∧
  (let w1 := (exec flaky_env never (stability_cycle STABILITY_THRESHOLD)
                aged_world).2 in
   let w2 := (exec flaky_env never (stability_cycle STABILITY_THRESHOLD) w1).2 in
   working w2 = working aged_world ∧
   count_address some_addr (stable w1) = 1%nat ∧
   IoGet Stable (Raised ClientError) ∈ since w1 w2 ∧
   count_address some_addr (stable w2) = 2%nat).
Proof. split; split_and!; try (by vm_compute); vm_compute; mem. Qed.

(** ** The events of the tasks and of the cycles *)

Lemma validate_and_add_events proxy_addr existing :
  all_events (validate_events (strip proxy_addr) existing)
    (validate_and_add proxy_addr existing).
Proof.
  unfold validate_and_add, with_semaphore, with_lock, finally, is_proxy_alive.
  cbn. split; [done|]. intros _.
  case_bool_decide; cbn; [done|].
  split; [done|]. intros _. split; [done|]. intros [] ; cbn; [done|].
  split; [done|]. intros _. split; [done|].
  intros [e|x]; cbn; [done|]. destruct (status x =? 200); cbn; [|done].
  split; [done|]. intros t1. split; [done|]. intros t2.
  split; [split; [done|by exists t1, t2]|].
  intros [e|x']; cbn; [done|]. destruct (status x' =? 200); cbn; [|done].
  repeat (split; [done|]; intros _). done.
Qed.

Lemma check_and_delete_events key proxy_addr :
  all_events (check_events key proxy_addr) (check_and_delete key proxy_addr).
Proof.
  unfold check_and_delete, with_semaphore, finally, is_proxy_alive.
  cbn. split; [done|]. intros _. split; [done|].
  intros [e|x]; cbn.
  2: destruct (status x =? 200); cbn; [done|].
  all: split; [done|]; intros [e'|x']; cbn; [done|];
    destruct (status x' =? 200); cbn; done.
Qed.

Lemma task_body_no_stable_delete t :
  all_events no_stable_delete (task_body t).
Proof.
  destruct t as [p r|k a]; cbn [task_body].
  - eapply all_events_mono; [|apply validate_and_add_events].
    intros X []; cbn; try done; by intros [-> _].
  - eapply all_events_mono; [|apply check_and_delete_events].
    intros X []; cbn; try done; by intros [-> _].
Qed.

Lemma addresses_events P vals : all_events P (addresses vals).
Proof.
  induction vals as [|v vals IH]; cbn [addresses]; [done|].
  apply all_events_bind; [apply all_events_lift|]. intros a.
  case_match; [|done].
  apply all_events_bind; [apply all_events_lift|]. intros h.
  by apply all_events_bind.
Qed.

Lemma cleanup_tasks_events P its : all_events P (cleanup_tasks its).
Proof.
  induction its as [|[k v] its IH]; cbn [cleanup_tasks]; [done|].
  apply all_events_bind; [apply all_events_lift|]. intros a.
  case_match; [|done]. by apply all_events_bind.
Qed.

(** The events of the three cycles are in [Q] as soon as those written in
    their code are. *)
Section Footprint.
Context (Q : ∀ X, event X → Prop).
Hypothesis Q_get : ∀ url, Q _ (HttpGet url).
Hypothesis Q_log : ∀ l msg, Q _ (Log l msg).
Hypothesis Q_sleep : ∀ secs, Q _ (Sleep secs).
Hypothesis Q_time : Q _ Time.
Hypothesis Q_bulk : Q _ HttpBulk.
Hypothesis Q_new : ∀ s, Q _ (NewSet s).
Hypothesis Q_post_stable : ∀ data, Q _ (HttpPost Stable data).
Hypothesis Q_gather : ∀ tasks, Q _ (Gather tasks).

Lemma get_existing_proxies_events url :
  all_events Q (get_existing_proxies url).
Proof.
  unfold get_existing_proxies. apply all_events_try_except.
  - apply all_events_bind; [by apply all_events_request|].
    intros r. case_match; [|done].
    apply all_events_bind; [apply all_events_read_json|]. intros data.
    case_match; [|done].
    apply all_events_bind; [apply all_events_lift|]. intros its.
    apply addresses_events.
  - intros e. apply all_events_bind; [|done]. by apply all_events_trigger.
Qed.

Lemma log_events l msg : all_events Q (log l msg).
Proof. by apply all_events_trigger. Qed.

Lemma sleep_events secs : all_events Q (trigger (Sleep secs)).
Proof. by apply all_events_trigger. Qed.

Lemma fetch_and_store_cycle_events : all_events Q fetch_and_store_cycle.
Proof.
  unfold fetch_and_store_cycle.
  apply all_events_bind; [|intros; apply sleep_events].
  apply all_events_try_except; [|intros; apply log_events].
  apply all_events_bind; [by apply all_events_request|].
  intros r. case_match; [|apply log_events].
  apply all_events_bind; [apply all_events_read_text|]. intros text.
  apply all_events_bind; [apply log_events|]. intros _.
  apply all_events_bind; [apply get_existing_proxies_events|]. intros s.
  apply all_events_bind; [by apply all_events_trigger|].
  intros existing.
  apply all_events_bind; [by apply all_events_gather|]. intros _.
  apply log_events.
Qed.

Lemma cleanup_cycle_events : all_events Q cleanup_cycle.
Proof.
  unfold cleanup_cycle.
  apply all_events_bind; [|intros; apply sleep_events].
  apply all_events_try_except; [|intros; apply log_events].
  apply all_events_bind; [by apply all_events_request|].
  intros r. case_match; [|apply log_events].
  apply all_events_bind; [apply all_events_read_json|]. intros data.
  case_match; [|apply log_events].
  apply all_events_bind; [apply all_events_lift|]. intros _.
  apply all_events_bind; [apply log_events|]. intros _.
  apply all_events_bind; [apply all_events_lift|]. intros its.
  apply all_events_bind; [apply cleanup_tasks_events|]. intros tasks.
  by apply all_events_gather.
Qed.

Lemma promote_events thr t key val S : all_events Q (promote thr t key val S).
Proof.
  unfold promote.
  apply all_events_bind; [apply all_events_lift|]. intros p.
  apply all_events_bind; [apply all_events_lift|]. intros age.
  case_match; [|done].
  apply all_events_bind; [apply all_events_lift|]. intros h.
  case_match; [|done].
  apply all_events_bind; [by apply all_events_request|].
  intros r. case_match; [|done].
  apply all_events_bind; [apply log_events|]. done.
Qed.

Lemma promote_all_events thr t its S :
  all_events Q (promote_all thr t its S).
Proof.
  revert S. induction its as [|[k v] its IH]; intros S; cbn [promote_all];
    [done|].
  apply all_events_bind; [apply promote_events|]. intros S'. apply IH.
Qed.

Lemma stability_cycle_events thr : all_events Q (stability_cycle thr).
Proof.
  unfold stability_cycle.
  apply all_events_bind; [|intros; apply sleep_events].
  apply all_events_try_except; [|intros; apply log_events].
  apply all_events_bind; [by apply all_events_request|].
  intros r. case_match; [|apply log_events].
  apply all_events_bind; [apply all_events_read_json|]. intros data.
  case_match; [|done].
  apply all_events_bind; [by apply all_events_trigger|].
  intros t.
  apply all_events_bind; [apply get_existing_proxies_events|]. intros s.
  apply all_events_bind; [apply all_events_lift|]. intros its.
  apply all_events_bind; [apply promote_all_events|]. done.
Qed.
End Footprint.

(** ** The stable set is never deleted from *)

#[global] Instance stable_kept_refl : Reflexive stable_kept.
Proof.
  intros w. split_and!; try done. intros c k r.
  rewrite since_refl by done. by intros ?%elem_of_nil.
Qed.

#[global] Instance stable_kept_trans : Transitive stable_kept.
Proof.
  intros w1 w2 w3 (H1 & H2 & H3) (H4 & H5 & H6).
  split_and!; [by etrans..|]. intros c k r.
  rewrite (since_trans w1 w2 w3 H1 H4), elem_of_app. intros [?|?]; eauto.
Qed.

Lemma handle_basic_stable_kept env {X} (e : event X) w :
  no_stable_delete X e → stable_kept w (handle_basic env e w).2.
Proof.
  intros He. split_and!.
  - apply handle_basic_trace.
  - destruct e; try done; cbn; repeat (case_match; cbn in * ); subst; try done;
      by apply prefix_app_r.
  - intros c' k' r'.
    destruct e; try done; cbn; repeat case_match; cbn; subst; try done;
      since_tac; intros Hin; mem_inv Hin; try done;
      by repeat match goal with c : collection |- _ => destruct c end.
Qed.

Lemma cycle_no_stable_delete l :
  all_events (with_tasks no_stable_delete) (cycle_of l).
Proof.
  assert (∀ tasks, with_tasks no_stable_delete _ (Gather tasks)) as Hg.
  { intros tasks. apply Forall_forall. intros t _.
    apply task_body_no_stable_delete. }
  destruct l; cbn [cycle_of].
  - by apply fetch_and_store_cycle_events.
  - by apply cleanup_cycle_events.
  - by apply stability_cycle_events.
Qed.

(** C9. No cycle of any loop, and no task it gathers, can make a delete
    request to the stable collection, whatever it is answered; and along
    every run of cycles, under every schedule and environment, every delete
    request goes to the working collection and the stable set keeps all its
    records. *)
Theorem stable_never_deleted :
  (∀ l, all_events (with_tasks no_stable_delete) (cycle_of l)) ∧
  (∀ env cycles w, stable_kept w (run_cycles env cycles w)).
Proof.
  split; [apply cycle_no_stable_delete|].
  intros env cycles. induction cycles as [|[l sched] cycles IH]; intros w;
    [done|].
  cbn. etrans; [|apply IH].
  apply (exec_sat env no_stable_delete stable_kept).
  - intros. by apply handle_basic_stable_kept.
  - apply cycle_no_stable_delete.
Qed.

(** ** Eviction: entries without an address *)

Lemma cleanup_cycle_unfold :
  cleanup_cycle = Vis (HttpGet FIREBASE_BASE_URL) cleanup_rest.
Proof. reflexivity. Qed.

Section Spared.
Context (key : str) (val : pyval).

#[global] Instance spared_refl : Reflexive (spared key val).
Proof.
  intros w. split_and!; try done.
  - intros c r. rewrite since_refl by done. by intros ?%elem_of_nil.
  - intros a r. rewrite since_refl by done. by intros ?%elem_of_nil.
Qed.

#[global] Instance spared_trans : Transitive (spared key val).
Proof.
  intros w1 w2 w3 (H1 & H2 & H3 & H4 & H5) (H6 & H7 & H8 & H9 & H10).
  split_and!; [by etrans| | |by etrans|by auto].
  - intros c r. rewrite (since_trans w1 w2 w3 H1 H6), elem_of_app.
    intros [?|?]; [by eapply H2|by eapply H7].
  - intros a r. rewrite (since_trans w1 w2 w3 H1 H6), elem_of_app.
    intros [?|?]; eauto.
Qed.

Lemma handle_basic_spared env {X} (e : event X) w :
  spares key X e → spared key val w (handle_basic env e w).2.
Proof.
  intros He. split_and!.
  - apply handle_basic_trace.
  - intros c r.
    destruct e; try done; cbn; repeat case_match; cbn; subst; try done;
      since_tac; intros Hin; by mem_inv Hin.
  - intros a r.
    destruct e; try done; cbn; repeat case_match; cbn; subst; try done;
      since_tac; intros Hin; by mem_inv Hin.
  - destruct e; try done; cbn; repeat (case_match; cbn in * ); subst;
      try done; apply sublist_filter.
  - destruct e; try done; cbn; repeat (case_match; cbn in * ); subst;
      try done.
    intros Hin. apply list_elem_of_filter. split; [|done]. cbn. congruence.
Qed.

Lemma check_and_delete_spares k a :
  k ≠ key → truthy a = true → all_events (spares key) (check_and_delete k a).
Proof.
  intros Hk Ha. eapply all_events_mono; [|apply check_and_delete_events].
  intros X []; cbn; try done; [by intros ->|by intros [_ ->]].
Qed.

Lemma cleanup_tasks_spares its :
  NoDup its.*1 → (key, val) ∈ its → lacks_address val →
  all_events (with_tasks (spares key)) (cleanup_tasks its ≫= gather).
Proof.
  intros Hnd Hin Hval.
  assert (∀ l, (∀ k v, (k, v) ∈ l → (k, v) ∈ its) →
            all_events (with_tasks (spares key)) (cleanup_tasks l ≫= gather)
            ∧ (∀ tasks, cleanup_tasks l = Ret tasks →
                Forall (λ t, all_events (spares key) (task_body t)) tasks)
            ∧ (∀ X (e : event X) k, cleanup_tasks l ≠ Vis e k))
    as H.
  2: { apply (H its). auto. }
  induction l as [|[k v] l IH]; intros Hl; cbn [cleanup_tasks].
  { split; [|split; [by intros ? [= <-]|done]].
    cbn. split; [done|]. by intros []. }
  assert (∀ k v, (k, v) ∈ l → (k, v) ∈ its) as Hl'
    by (intros ???; by apply Hl, list_elem_of_further).
  destruct (IH Hl') as (IH1 & IH2 & IH3).
  destruct (get v (u "address") PNone) as [e|a] eqn:Hg; cbn; [done|].
  destruct (truthy a) eqn:Ha; [|done].
  destruct (cleanup_tasks l) as [tasks|e|X e k']; cbn in *; try done;
    [|by destruct (IH3 X e k')].
  assert (all_events (spares key) (check_and_delete k a)) as Hk.
  { apply check_and_delete_spares; [|done]. intros ->.
    assert (v = val) as ->.
    { eapply (lookup_item_NoDup its); [done| |done].
      apply Hl, list_elem_of_here. }
    rewrite (Hval a Hg) in Ha. done. }
  split; [|split; [intros ? [= <-]|done]].
  - split; [|by intros []]. apply Forall_cons. split; [done|by apply IH2].
  - apply Forall_cons. split; [done|by apply IH2].
Qed.

Lemma cleanup_cycle_spared env sched w :
  honest env → NoDup (working w).*1 → (key, val) ∈ working w →
  lacks_address val →
  spared key val w (exec env sched cleanup_cycle w).2.
Proof.
  intros Hh Hnd Hin Hval. rewrite cleanup_cycle_unfold.
  cbn [exec handle handle_basic].
  set (r := match store_fault env (tick w) with
            | Some r => r | None => ok _ end).
  set (w1 := advance _).
  assert (spared key val w w1) as H1.
  { apply (handle_basic_spared env (HttpGet FIREBASE_BASE_URL) w). done. }
  etrans; [exact H1|].
  apply (exec_sat env (spares key) (spared key val)).
  { intros. by apply handle_basic_spared. }
  assert (all_events (with_tasks (spares key))
            (log ERROR "Cleanup loop error")) as Hlog by done.
  unfold cleanup_rest.
  apply all_events_bind; [|done].
  apply all_events_try_except; [|done].
  assert (unreadable r ∨ r = ok (store_json (working w))) as Hr.
  { unfold r. destruct (store_fault env (tick w)) eqn:Hf; [left|by right].
    by eapply Hh. }
  clearbody w1 r. destruct Hr as [Hr| ->].
  - destruct r as [e|x]; cbn [enter mbind prog_bind bind]; [done|].
    destruct Hr as [Hst|Hj].
    + apply Z.eqb_neq in Hst. by rewrite Hst.
    + unfold read_json. rewrite Hj. by destruct (status x =? 200).
  - cbn [enter ok mbind prog_bind bind status Z.eqb Pos.eqb read_json json].
    destruct (working w) as [|it its] eqn:Hw;
      cbn [coll FIREBASE_BASE_URL store_json truthy]; rewrite ?Hw;
      cbn [store_json truthy len lift bind items]; [done|].
    split; [done|]. intros []. cbn [mbind prog_bind bind].
    by apply cleanup_tasks_spares.
Qed.
End Spared.

Lemma run_eviction_spared key val env scheds w :
  honest env → NoDup (working w).*1 → (key, val) ∈ working w →
  lacks_address val →
  spared key val w (run_cycles env ((λ s, (Eviction, s)) <$> scheds) w).
Proof.
  intros Hh. revert w.
  induction scheds as [|sched scheds IH]; intros w Hnd Hin Hval; [done|].
  cbn [fmap list_fmap run_cycles foldl fst snd cycle_of].
  pose proof (cleanup_cycle_spared key val env sched w Hh Hnd Hin Hval) as H1.
  etrans; [exact H1|]. destruct H1 as (_ & _ & _ & Hsub & Hkeep).
  apply IH; [|by apply Hkeep|done].
  eapply sublist_NoDup; [done|]. by apply fmap_sublist.
Qed.

(** C10. Let every failure of the store be a visible one and the keys of
    the working set be distinct.  An entry whose record has no non-empty
    address is, along any number of eviction cycles and under every
    schedule, never the target of a delete request; every probe of these
    cycles is for a non-empty address, so the entry is never probed; and
    the entry is still in the working set afterwards. *)
Theorem entry_without_address_is_spared env scheds w key val :
  honest env →
  NoDup (working w).*1 →
  (key, val) ∈ working w →
  lacks_address val →
  let w' := run_cycles env ((λ s, (Eviction, s)) <$> scheds) w in
  (∀ c r, IoDelete c key r ∉ since w w') ∧
  (∀ a r, IoProbe a r ∈ since w w' → truthy a = true) ∧
  (key, val) ∈ working w'.
Proof.
  intros Hh Hnd Hin Hval w'.
  destruct (run_eviction_spared key val env scheds w Hh Hnd Hin Hval)
    as (_ & H1 & H2 & _ & H3).
  auto.
Qed.

Lemma entry_without_address_is_spared_witness :
  honest dead_env ∧
  NoDup (working orphan_world).*1 ∧
  (old_key, orphan_record) ∈ working orphan_world ∧
  lacks_address orphan_record ∧
  let w' := run_cycles dead_env
              ((λ s, (Eviction, s)) <$> [round_robin; round_robin])
              orphan_world in
  (∀ c r, IoDelete c old_key r ∉ since orphan_world w') ∧
  (∀ a r, IoProbe a r ∈ since orphan_world w' → truthy a = true) ∧
  (old_key, orphan_record) ∈ working w'.
Proof.
  assert (honest dead_env) as H1 by (intros n r H; discriminate H).
  assert (NoDup (working orphan_world).*1) as H2.
  { apply NoDup_cons. split; [|apply NoDup_singleton].
    intros H%list_elem_of_singleton. discriminate H. }
  assert ((old_key, orphan_record) ∈ working orphan_world) as H3
    by apply list_elem_of_here.
  assert (lacks_address orphan_record) as H4.
  { intros a H. vm_compute in H. injection H as <-. reflexivity. }
  repeat (split; [assumption|]).
  exact (entry_without_address_is_spared dead_env [round_robin; round_robin]
           orphan_world old_key orphan_record H1 H2 H3 H4).
Defined.

(** ** Completion of a gather under the round-robin schedule *)

Lemma bracketed_mono ph n m p :
  (n ≤ m)%nat → bracketed ph n p → bracketed ph m p.
Proof.
  revert ph n m. induction p as [a|e|X e k IH]; intros ph n m Hle; cbn; try done.
  destruct n as [|n]; cbn; [done|]. destruct m as [|m]; cbn; [lia|].
  assert (n ≤ m)%nat as Hle' by lia.
  destruct e, ph; cbn; try (intros [? H]; split; [done|]); try intros H;
    intros y; by eapply IH.
Qed.

Lemma validate_and_add_bracketed proxy_addr existing :
  bracketed Out task_steps (validate_and_add proxy_addr existing).
Proof.
  unfold validate_and_add, with_semaphore, with_lock, finally, is_proxy_alive.
  cbn. intros _. case_bool_decide; cbn; [done|].
  intros _. split; [done|]. intros []; cbn; [done|].
  intros _. split; [done|].
  intros [e|x]; cbn; [done|]. destruct (status x =? 200); cbn; [|done].
  split; [done|]. intros t1. split; [done|]. intros t2. split; [done|].
  intros [e|x']; cbn; [done|]. destruct (status x' =? 200); cbn; [|done].
  split; [done|]. intros _. intros _. split; [done|]. intros _. intros _. done.
Qed.

Lemma check_and_delete_bracketed key proxy_addr :
  bracketed Out task_steps (check_and_delete key proxy_addr).
Proof.
  unfold check_and_delete, with_semaphore, finally, is_proxy_alive.
  cbn. intros _. split; [done|].
  intros [e|x]; cbn.
  2: destruct (status x =? 200); cbn; [done|].
  all: split; [done|]; intros [e'|x']; cbn; [done|];
    destruct (status x' =? 200); cbn; done.
Qed.

Lemma task_body_bracketed t : bracketed Out task_steps (task_body t).
Proof.
  destruct t; [apply validate_and_add_bracketed|apply check_and_delete_bracketed].
Qed.

Lemma handle_basic_plain env {X} (e : event X) w :
  plain e →
  ∃ x w', handle_basic env e w = (Some x, w') ∧
          permits w' = permits w ∧ locked w' = locked w.
Proof.
  destruct e; try done; intros _; cbn; repeat case_match; cbn; eauto.
Qed.

Lemma sum_list_with_insert {A} (f : A → nat) (l : list A) i a b :
  l !! i = Some a →
  (sum_list_with f (<[i:=b]> l) + f a = sum_list_with f l + f b)%nat.
Proof.
  revert i. induction l as [|x l IH]; intros [|i] Hi; simplify_eq/=; [lia|].
  specialize (IH i Hi). lia.
Qed.

Section Progress.
Context (env : Env).

Lemma step_task_idle c i : ¬ enabled env c i → step_task env c i = c.
Proof.
  unfold enabled, step_task.
  destruct (c.1 !! i) as [[a|e|X e k]|]; try done.
  destruct (handle_basic env e c.2) as [[x|] w']; cbn; [|done].
  intros []. by eexists.
Qed.

Lemma step_task_ok ann c i :
  pool_ok ann c → enabled env c i →
  ∃ ann', pool_ok ann' (step_task env c i) ∧ (budget ann' < budget ann)%nat.
Proof.
  intros (Hb & Hs & Hl). unfold enabled, step_task.
  destruct (c.1 !! i) as [[a|e|X e k]|] eqn:Hi; try done.
  destruct (Forall2_lookup_r _ _ _ _ _ Hb Hi) as ([ph n] & Ha & Hp).
  cbn in Hp. destruct n as [|n]; [done|].
  pose proof (sum_list_with_insert holds_sem ann i (ph, S n)) as Hsem.
  pose proof (sum_list_with_insert holds_lock ann i (ph, S n)) as Hlock.
  pose proof (sum_list_with_insert snd ann i (ph, S n)) as Hbud.
  intros Hen.
  assert (∀ ph' x w',
    bracketed ph' n (k x) →
    (permits w' + holds_sem (ph', n) = permits c.2 + holds_sem (ph, S n))%nat →
    (holds_lock (ph', n) + (if locked c.2 then 1 else 0)
     = holds_lock (ph, S n) + (if locked w' then 1 else 0))%nat →
    ∃ ann', pool_ok ann' (<[i:=k x]> c.1, w') ∧ (budget ann' < budget ann)%nat)
    as Hgo.
  { intros ph' x w' Hk Hp' Hl'. exists (<[i:=(ph', n)]> ann).
    specialize (Hsem (ph', n) Ha). specialize (Hlock (ph', n) Ha).
    specialize (Hbud (ph', n) Ha). unfold budget. cbn [fst snd] in *.
    split; [|lia]. split_and!; cbn [fst snd].
    - by apply Forall2_insert.
    - lia.
    - lia. }
  destruct e, ph; cbn in Hp; try (by destruct Hp as [[] _]);
    try (destruct Hp as [Hpl Hk];
         match goal with
         | |- context [handle_basic env ?e ?w0] =>
             destruct (handle_basic_plain env e w0 Hpl)
               as (y & w' & -> & Hp1 & Hp2)
         end;
         eapply Hgo; [by eauto|cbn; rewrite Hp1; lia|cbn; rewrite Hp2; lia]).
  all: cbn in Hen |- *.
  - (* SemAcquire *)
    destruct (permits c.2) as [|m] eqn:Hm; [by destruct Hen|].
    eapply Hgo; [by eauto|cbn; lia|cbn; lia].
  - (* SemRelease *)
    eapply Hgo; [by eauto|cbn; lia|cbn; lia].
  - (* LockAcquire *)
    destruct (locked c.2) eqn:Hlk; [by destruct Hen|].
    eapply Hgo; [by eauto|cbn; lia|cbn; lia].
  - (* LockRelease *)
    eapply Hgo; [by eauto|cbn; lia|cbn].
    specialize (Hlock (Out, 0%nat) Ha). cbn in Hlock.
    destruct (locked c.2); lia.
Qed.

Lemma bracketed_enabled ph n p w :
  bracketed ph n p → p ≠ Ret () →
  (ph = Out → permits w ≠ 0%nat) → (ph = InSem → locked w = false) →
  ∃ X (e : event X) k, p = Vis e k ∧ is_Some (handle_basic env e w).1.
Proof.
  intros Hb Hp Hsem Hlock. destruct p as [[]|e|X e k]; cbn in Hb; try done.
  destruct n as [|n]; [done|]. exists X, e, k. split; [done|].
  destruct e, ph; cbn in Hb; try (by destruct Hb as [[] _]);
    try (destruct Hb as [Hpl _];
         match goal with
         | |- context [handle_basic env ?e ?w0] =>
             destruct (handle_basic_plain env e w0 Hpl) as (y & w' & -> & _)
         end; by eexists).
  - cbn. destruct (permits w); [by destruct Hsem|by eexists].
  - by eexists.
  - cbn. rewrite Hlock by done. by eexists.
  - by eexists.
Qed.

Lemma sum_list_with_0 {A} (f : A → nat) (l : list A) :
  Forall (λ a, f a = 0%nat) l → sum_list_with f l = 0%nat.
Proof. induction 1; cbn; lia. Qed.

Lemma pool_returned_or_not (ps : pool) :
  all_returned ps ∨ ∃ i p, ps !! i = Some p ∧ p ≠ Ret ().
Proof.
  induction ps as [|p ps [IH|(i & q & Hi & Hq)]].
  - left. constructor.
  - destruct p as [[]|e|X e k].
    + left. by constructor.
    + right. by exists 0%nat, (Raise e).
    + right. by exists 0%nat, (Vis e k).
  - right. by exists (S i), q.
Qed.

Lemma enabled_intro c i ph n p :
  c.1 !! i = Some p → bracketed ph n p → p ≠ Ret () →
  (ph = Out → permits c.2 ≠ 0%nat) → (ph = InSem → locked c.2 = false) →
  enabled env c i.
Proof.
  intros Hi Hb Hp Hs Hl. unfold enabled. rewrite Hi.
  by destruct (bracketed_enabled ph n p c.2 Hb Hp Hs Hl) as (X & e & k & -> & ?).
Qed.

Lemma pool_progress ann c :
  pool_ok ann c → all_returned c.1 ∨ ∃ i, enabled env c i.
Proof.
  intros (Hb & Hs & Hl).
  destruct (decide (Exists (λ a : phase * nat, a.1 = InLock) ann)) as [Hex|Hno].
  { right. apply Exists_exists in Hex as ([ph n] & Hin & Hph).
    apply list_elem_of_lookup in Hin as [i Hi]. cbn in Hph. subst ph.
    destruct (Forall2_lookup_l _ _ _ _ _ Hb Hi) as (p & Hp & Hbr).
    exists i. eapply enabled_intro; [done..| | |]; try done.
    intros ->. by destruct n. }
  assert (sum_list_with holds_lock ann = 0%nat) as Hl0.
  { apply sum_list_with_0. apply not_Exists_Forall in Hno; [|apply _].
    eapply Forall_impl; [done|]. intros [[] n] H; cbn in *; done. }
  assert (locked c.2 = false) as Hunl.
  { rewrite Hl0 in Hl. by destruct (locked c.2). }
  destruct (decide (Exists (λ a : phase * nat, a.1 = InSem) ann)) as [Hex|Hno'].
  { right. apply Exists_exists in Hex as ([ph n] & Hin & Hph).
    apply list_elem_of_lookup in Hin as [i Hi]. cbn in Hph. subst ph.
    destruct (Forall2_lookup_l _ _ _ _ _ Hb Hi) as (p & Hp & Hbr).
    exists i. eapply enabled_intro; [done..| | |]; try done.
    intros ->. by destruct n. }
  assert (sum_list_with holds_sem ann = 0%nat) as Hs0.
  { apply sum_list_with_0, Forall_forall. intros [ph n] Hin.
    destruct ph; [done|exfalso; apply Hno'|exfalso; apply Hno];
      apply Exists_exists; by eexists. }
  destruct (pool_returned_or_not c.1) as [?|(i & p & Hi & Hp)]; [by left|right].
  destruct (Forall2_lookup_r _ _ _ _ _ Hb Hi) as ([ph n] & Ha & Hbr).
  exists i. eapply enabled_intro; [done..| |by intros _].
  intros _. rewrite Hs0 in Hs. unfold CONCURRENCY_LIMIT in Hs. lia.
Qed.

Lemma enabled_or_not c i : enabled env c i ∨ ¬ enabled env c i.
Proof.
  unfold enabled. destruct (c.1 !! i) as [[a|e|X e k]|]; try (right; tauto).
  destruct (handle_basic env e c.2).1; [left; by eexists|right].
  by intros [? [=]].
Qed.

Lemma enabled_lt c i : enabled env c i → (i < length c.1)%nat.
Proof.
  unfold enabled. destruct (c.1 !! i) eqn:Hi; [|done]. intros _.
  by eapply lookup_lt_Some.
Qed.

Lemma step_task_length c i : length (step_task env c i).1 = length c.1.
Proof.
  unfold step_task. destruct (c.1 !! i) as [[a|e|X e k]|]; try done.
  destruct (handle_basic env e c.2) as [[x|] w']; [|done].
  cbn. by rewrite length_insert.
Qed.

Lemma run_pool_cons i l c :
  run_pool env (i :: l) c = run_pool env l (step_task env c i).
Proof. done. Qed.

Lemma run_pool_length l c : length (run_pool env l c).1 = length c.1.
Proof.
  revert c. induction l as [|i l IH]; intros c; [done|].
  by rewrite run_pool_cons, IH, step_task_length.
Qed.

Lemma run_pool_app l1 l2 c :
  run_pool env (l1 ++ l2) c = run_pool env l2 (run_pool env l1 c).
Proof. apply foldl_app. Qed.

Lemma run_pool_returned l c : all_returned c.1 → run_pool env l c = c.
Proof.
  intros Hc. induction l as [|i l IH]; [done|]. rewrite run_pool_cons.
  rewrite step_task_idle; [done|]. unfold enabled.
  destruct (c.1 !! i) as [p|] eqn:Hi; [|by intros []].
  rewrite (Forall_lookup_1 _ _ _ _ Hc Hi). by intros [].
Qed.

Lemma run_pool_ok l ann c :
  pool_ok ann c →
  ∃ ann', pool_ok ann' (run_pool env l c) ∧
          (budget ann' ≤ budget ann)%nat ∧
          (∀ i, i ∈ l → enabled env c i → (budget ann' < budget ann)%nat).
Proof.
  revert ann c. induction l as [|i l IH]; intros ann c Hc.
  { exists ann. split_and!; [done..|]. by intros i ?%elem_of_nil. }
  rewrite run_pool_cons. destruct (enabled_or_not c i) as [Hen|Hen].
  - destruct (step_task_ok ann c i Hc Hen) as (ann1 & Hc1 & Hlt).
    destruct (IH ann1 _ Hc1) as (ann' & Hc' & Hle & _).
    exists ann'. split_and!; [done|lia|]. intros; lia.
  - rewrite (step_task_idle c i Hen).
    destruct (IH ann c Hc) as (ann' & Hc' & Hle & Hlt).
    exists ann'. split_and!; [done..|].
    intros j [->|Hj]%elem_of_cons Hj'; [done|by apply (Hlt j)].
Qed.

Lemma rounds_complete r ann c :
  pool_ok ann c → (budget ann ≤ r)%nat →
  ∃ ann', pool_ok ann' (run_pool env (rounds r (length c.1)) c) ∧
          all_returned (run_pool env (rounds r (length c.1)) c).1.
Proof.
  revert ann c. induction r as [|r IH]; intros ann c Hc Hr.
  - destruct (pool_progress ann c Hc) as [Hret|[i Hen]].
    + exists ann. by rewrite run_pool_returned.
    + destruct (step_task_ok ann c i Hc Hen) as (? & _ & ?). lia.
  - destruct (pool_progress ann c Hc) as [Hret|[i Hen]].
    + exists ann. by rewrite run_pool_returned.
    + cbn [rounds]. rewrite run_pool_app.
      destruct (run_pool_ok (seq 0 (length c.1)) ann c Hc)
        as (ann1 & Hc1 & _ & Hlt).
      assert (budget ann1 < budget ann)%nat as Hlt1.
      { apply (Hlt i); [|done]. apply elem_of_seq.
        pose proof (enabled_lt c i Hen). lia. }
      destruct (IH ann1 _ Hc1) as (ann' & Hc' & Hret'); [lia|].
      rewrite run_pool_length in Hc', Hret'. by exists ann'.
Qed.

Lemma gather_result_returned ps : all_returned ps → gather_result ps = Some None.
Proof. induction 1 as [|p ps -> _ IH]; cbn; [done|by rewrite IH]. Qed.

Lemma pool_ok_returned ann c : pool_ok ann c → all_returned c.1 → idle c.2.
Proof.
  intros (Hb & Hs & Hl) Hret.
  assert (Forall (λ a : phase * nat, a.1 = Out) ann) as Hout.
  { apply Forall_forall. intros a Hin.
    apply list_elem_of_lookup in Hin as [i Hi].
    destruct (Forall2_lookup_l _ _ _ _ _ Hb Hi) as (p & Hp & Hbr).
    rewrite (Forall_lookup_1 _ _ _ _ Hret Hp) in Hbr. done. }
  rewrite sum_list_with_0 in Hs, Hl.
  - split; [lia|]. by destruct (locked c.2).
  - eapply Forall_impl; [done|]. by intros [ph n]; cbn; intros ->.
  - eapply Forall_impl; [done|]. by intros [ph n]; cbn; intros ->.
Qed.

Lemma pool_ok_start tasks w :
  idle w →
  pool_ok ((λ _, (Out, task_steps)) <$> tasks) (task_body <$> tasks, w) ∧
  budget ((λ _, (Out, task_steps)) <$> tasks)
  = (task_steps * length tasks)%nat.
Proof.
  intros [Hp Hl]. split; [split_and!|]; cbn [fst snd].
  - apply Forall2_fmap, Forall_Forall2_diag, Forall_forall.
    intros t _. apply task_body_bracketed.
  - rewrite sum_list_with_0; [lia|]. by apply Forall_fmap, Forall_forall.
  - rewrite Hl. apply sum_list_with_0. by apply Forall_fmap, Forall_forall.
  - unfold budget. induction tasks as [|t tasks IH]; cbn in *; lia.
Qed.

Lemma gather_completes tasks w :
  idle w →
  ∃ w', handle env round_robin (Gather tasks) w = (Some None, w') ∧ idle w'.
Proof.
  intros Hw. cbn [handle]. unfold round_robin.
  destruct (pool_ok_start tasks w Hw) as [Hc Hb].
  destruct (rounds_complete (task_steps * length tasks) _ _ Hc) as (ann' & Hc' & Hret);
    [lia|].
  cbn [fst] in Hc', Hret. rewrite length_fmap in Hc', Hret.
  eexists. split.
  - by rewrite (gather_result_returned _ Hret).
  - by eapply pool_ok_returned.
Qed.
End Progress.

(** ** No error escapes a cycle *)

Lemma exec_completes env {A} (p : prog A) w :
  all_events completes p → idle w →
  (exec env round_robin p w).1 ≠ Pending ∧ idle (exec env round_robin p w).2.
Proof.
  revert w. induction p as [a|e|X e k IH]; intros w Hp Hw; cbn; try done.
  destruct Hp as [He Hk].
  assert (∃ x w', handle env round_robin e w = (Some x, w') ∧ idle w')
    as (x & w' & -> & Hw').
  { destruct e; try done; cbn [handle];
      try (match goal with
           | |- context [handle_basic env ?e ?w0] =>
               destruct (handle_basic_plain env e w0 I)
                 as (y & w' & Hh & Hp & Hl)
           end;
           exists y, w'; split; [exact Hh|];
           destruct Hw; split; congruence).
    destruct (gather_completes env tasks w Hw) as (w' & Hg & ?).
    by exists None, w'. }
  by apply IH.
Qed.

Lemma cycle_of_completes l : all_events completes (cycle_of l).
Proof.
  destruct l; cbn [cycle_of].
  - by apply fetch_and_store_cycle_events.
  - by apply cleanup_cycle_events.
  - by apply stability_cycle_events.
Qed.

(** Every cycle is a guarded body followed by the sleep. *)
Lemma cycle_of_shape l :
  ∃ body msg,
    cycle_of l = (try_except body (λ _, log ERROR msg);;
                  trigger (Sleep (interval l))).
Proof. destruct l; by eexists _, _. Qed.

Lemma guarded_then_sleep env sched (body : prog unit) msg secs w :
  let r := exec env sched (try_except body (λ _, log ERROR msg);;
                           trigger (Sleep secs)) w in
  (∀ e, r.1 ≠ Failed e) ∧
  (r.1 = Done () → last (trace r.2) = Some (IoSleep secs)).
Proof.
  cbn zeta. rewrite exec_bind, exec_try_except.
  destruct (exec env sched body w) as [[[]|e|] w']; cbn; try done.
  all: split; [done|]; intros _; by rewrite last_snoc.
Qed.

Lemma addresses_pure vals :
  (∃ S, addresses vals = Ret S) ∨ (∃ e, addresses vals = Raise e).
Proof.
  induction vals as [|v vals IH]; cbn [addresses]; [by left; eexists|].
  destruct (get v (u "address") PNone) as [e|a]; cbn; [by right; eexists|].
  destruct (truthy a); [|done].
  destruct (hash a) as [e|h]; cbn; [by right; eexists|].
  destruct IH as [[S ->]|[e ->]]; cbn; [left|right]; by eexists.
Qed.

Lemma exec_get_existing_proxies env sched url w :
  ∃ S, (exec env sched (get_existing_proxies url) w).1 = Done S ∧
       (unreadable (store_reply env url w) → S = ∅).
Proof.
  unfold get_existing_proxies.
  rewrite exec_try_except, exec_bind, exec_request. cbn [handle handle_basic].
  fold (store_reply env url w).
  destruct (store_reply env url w) as [e|x]; cbn; [by eexists|].
  destruct (status x =? 200) eqn:Hst; cbn; [|by eexists].
  apply Z.eqb_eq in Hst. unfold read_json.
  destruct (json x) as [data|] eqn:Hj; cbn; [|by eexists].
  assert (∀ S : gset hval, status x ≠ 200 ∨ Some data = None → S = ∅) as Hok
    by (by intros S [?|?]).
  destruct (truthy data); cbn; [|by eexists].
  destruct (items data) as [e|its]; cbn; [by eexists|].
  destruct (addresses_pure its.*2) as [[S ->]|[e ->]]; cbn;
    (eexists; split; [done|]); [apply Hok|done].
Qed.

(** C8. In every world and environment: the probe returns the verdict of
    the proxy's answer and never raises, the verdict of a call that raised
    or timed out being false; a read of a collection returns a set, the
    empty one when the request raises, is answered with another status than
    200 or with a body that does not decode; under every schedule no cycle
    of any loop ends with an exception; and a cycle started with the
    semaphore and the lock free and run under the round-robin schedule
    returns, its last step being its sleep, with the semaphore and the lock
    free again. *)
Theorem no_error_escapes env w :
  (∀ sched proxy_addr,
     (exec env sched (is_proxy_alive proxy_addr) w).1
     = Done (alive (probe_reply env (tick w) proxy_addr))) ∧
  (∀ e, alive (Raised e) = false) ∧
  (∀ sched url,
     ∃ S, (exec env sched (get_existing_proxies url) w).1 = Done S ∧
          (unreadable (store_reply env url w) → S = ∅)) ∧
  (∀ sched l e, (exec env sched (cycle_of l) w).1 ≠ Failed e) ∧
  (idle w →
   ∀ l, let r := exec env round_robin (cycle_of l) w in
        r.1 = Done () ∧ last (trace r.2) = Some (IoSleep (interval l)) ∧
        idle r.2).
Proof.
  split_and!.
  - intros sched a. by rewrite exec_is_proxy_alive.
  - done.
  - intros sched url. apply exec_get_existing_proxies.
  - intros sched l e. destruct (cycle_of_shape l) as (body & msg & ->).
    apply guarded_then_sleep.
  - intros Hw l r.
    destruct (exec_completes env (cycle_of l) w (cycle_of_completes l) Hw)
      as [Hp Hi].
    assert (r.1 = Done ()) as Hd.
    { subst r. destruct (cycle_of_shape l) as (body & msg & Hc).
      pose proof (guarded_then_sleep env round_robin body msg (interval l) w)
        as [Hf _].
      cbn zeta in Hf. rewrite <- Hc in Hf.
      destruct (exec env round_robin (cycle_of l) w) as [[[]|e|] w']; cbn in *;
        [done|by destruct (Hf e)|done]. }
    split_and!; [done| |done].
    subst r. destruct (cycle_of_shape l) as (body & msg & Hc).
    rewrite Hc in Hd |- *. by apply guarded_then_sleep.
Qed.

Lemma no_error_escapes_witness :
  idle empty_world ∧
  ∀ l, let r := exec demo_env round_robin (cycle_of l) empty_world in
       r.1 = Done () ∧ last (trace r.2) = Some (IoSleep (interval l)) ∧
       idle r.2.
Proof.
  assert (idle empty_world) as H by (by split).
  split; [exact H|].
  exact (proj2 (proj2 (proj2 (proj2 (no_error_escapes demo_env empty_world)))) H).
Defined.

(** ** Ingestion: the same candidate twice in one cycle *)

(** C1, on the scenario of the specification.  The bulk source lists the
    address 1.2.3.4:8080 twice, with a dead candidate in between; the
    working set is empty, the store serves every request and the proxy is
    alive.  Both validation tasks pass the known-set check before either
    has inserted, and the cycle leaves two records for the address: the
    lock is released between the check and the insert. *)
Theorem ingestion_inserts_duplicate :
  let w1 := (exec demo_env asyncio_order fetch_and_store_cycle empty_world).2 in
  let w2 := (exec demo_env round_robin fetch_and_store_cycle empty_world).2 in
  count_address some_addr (working empty_world) = 0%nat ∧
  count_address some_addr (working w1) = 2%nat ∧
  count_address some_addr (working w2) = 2%nat.
Proof. by vm_compute. Qed.

(** ** Ingestion: the record a validation task inserts *)

Lemma validate_and_add_unfold proxy_addr existing :
  validate_and_add proxy_addr existing
  = with_semaphore
      (if bool_decide (strip proxy_addr = []) then Ret ()
       else validate_checked (strip proxy_addr) existing).
Proof. reflexivity. Qed.

#[global] Instance same_tick_refl : Reflexive same_tick.
Proof. by intros w. Qed.

#[global] Instance same_tick_trans : Transitive same_tick.
Proof. unfold same_tick. intros w1 w2 w3 H1 H2. congruence. Qed.

Lemma exec_local env sched {A} (p : prog A) w :
  all_events (with_tasks local_event) p →
  tick (exec env sched p w).2 = tick w.
Proof.
  apply (exec_sat env local_event same_tick).
  intros X e w0 He. destruct e; try done; cbn; by repeat case_match.
Qed.

Section Steps.
Context (env : Env) (sched : schedule) (R : relation World).
Context `{!Reflexive R, !Transitive R}.

Lemma exec_bind_rel {A B} (p : prog A) (f : A → prog B) w :
  R w (exec env sched p w).2 →
  (∀ a w', exec env sched p w = (Done a, w') →
           R w' (exec env sched (f a) w').2) →
  R w (exec env sched (p ≫= f) w).2.
Proof.
  intros Hp Hf. rewrite exec_bind.
  destruct (exec env sched p w) as [[a|e|] w'] eqn:He; cbn in *; try done.
  etrans; [done|]. by apply Hf.
Qed.

Lemma exec_try_except_rel {A} (p : prog A) (h : exn → prog A) w :
  R w (exec env sched p w).2 →
  (∀ e w', R w' (exec env sched (h e) w').2) →
  R w (exec env sched (try_except p h) w).2.
Proof.
  intros Hp Hh. rewrite exec_try_except.
  destruct (exec env sched p w) as [[a|e|] w'] eqn:He; cbn in *; try done.
  etrans; [done|]. apply Hh.
Qed.

Lemma exec_finally_rel {A} (p : prog A) (q : prog unit) w :
  R w (exec env sched p w).2 →
  (∀ w', R w' (exec env sched q w').2) →
  R w (exec env sched (finally p q) w).2.
Proof.
  intros Hp Hq. unfold finally. apply exec_bind_rel.
  - apply exec_try_except_rel; [|done].
    apply (exec_bind_rel p (λ a, Ret (inr a))); [done|]. done.
  - intros r w' _. apply exec_bind_rel; [apply Hq|].
    intros [] w'' _. by destruct r.
Qed.
End Steps.

Lemma insert_record_sound env sched a existing w :
  sound_posts
    (λ c data, c = Working ∧
               data = proxy_data a (clock env (tick w)) (clock env (S (tick w))))
    w (exec env sched (insert_record a existing) w).2.
Proof.
  split; [apply exec_trace|]. intros c data r.
  unfold insert_record, with_lock, finally. cbn.
  destruct (store_fault env _) as [[e'|x']|] eqn:Hf; cbn;
    try destruct (status x' =? 200); cbn; try destruct (locked w); cbn;
    since_tac; intros Hin; by mem_inv Hin.
Qed.

Lemma sound_posts_mono (Φ Ψ : collection → pyval → Prop) w w' :
  (∀ c data, Φ c data → Ψ c data) → sound_posts Φ w w' → sound_posts Ψ w w'.
Proof. intros H [H1 H2]. split; [done|]. intros c d r Hin. eauto. Qed.

Lemma validate_checked_sound env sched a existing w :
  sound_posts
    (λ c data, c = Working ∧
               data = proxy_data a (clock env (S (tick w)))
                        (clock env (S (S (tick w)))))
    w (exec env sched (validate_checked a existing) w).2.
Proof.
  set (Φ := λ c data, _). unfold validate_checked.
  apply exec_bind_rel; [apply _..| |].
  { by apply exec_no_post. }
  intros known w2 H2.
  assert (tick w2 = tick w) as Ht2.
  { change w2 with (Done known, w2).2. rewrite <- H2. by apply exec_local. }
  destruct known; [done|].
  apply exec_bind_rel; [apply _..| |].
  { rewrite exec_is_proxy_alive. cbn [snd].
    apply (no_post_sound env Φ _ (HttpProbe (PStr a)) w2). done. }
  intros alv w3. rewrite exec_is_proxy_alive. intros [= _ <-].
  destruct alv; [|done].
  eapply sound_posts_mono; [|apply insert_record_sound].
  cbn. rewrite Ht2. done.
Qed.

(** The insert requests of a validation task. *)
Lemma validate_and_add_posts env sched proxy_addr existing w c data r :
  let w' := (exec env sched (validate_and_add proxy_addr existing) w).2 in
  IoPost c data r ∈ since w w' →
  c = Working ∧
  data = proxy_data (strip proxy_addr)
           (clock env (S (tick w))) (clock env (S (S (tick w)))).
Proof.
  intros w'. subst w'. revert c data r.
  set (Φ := λ (c : collection) data,
         c = Working ∧
         data = proxy_data (strip proxy_addr)
                  (clock env (S (tick w))) (clock env (S (S (tick w))))).
  enough (sound_posts Φ w
            (exec env sched (validate_and_add proxy_addr existing) w).2)
    as [_ H] by exact H.
  rewrite validate_and_add_unfold. unfold with_semaphore.
  apply exec_bind_rel; [apply _..| |].
  { by apply exec_no_post. }
  intros [] w1 H1.
  assert (tick w1 = tick w) as Ht1.
  { change w1 with (Done (), w1).2. rewrite <- H1. by apply exec_local. }
  apply exec_finally_rel; [apply _..| |].
  2: { intros w0. by apply exec_no_post. }
  case_bool_decide; [done|].
  eapply sound_posts_mono; [|apply validate_checked_sound].
  cbn. rewrite Ht1. done.
Qed.

(** The fields of the record a validation task builds. *)
Lemma proxy_data_fields a last_checked created_at :
  has_fields (proxy_data a last_checked created_at)
    [(u "address", PStr a);
     (u "last_checked", PNum last_checked);
     (u "created_at", PNum created_at);
     (u "status", PStr (u "active"))].
Proof.
  split; [by eexists|]. repeat (apply Forall_cons; split; [by vm_compute|]).
  apply Forall_nil_2.
Qed.

(** C7, as the code has it.  The record a validation task inserts goes to
    the working set and is an object that has exactly four fields:
    [address] reads the stripped candidate, [status] reads "active",
    [last_checked] the first reading of the clock after the probe and
    [created_at] the reading after that one. *)
Theorem validate_and_add_record env sched proxy_addr existing w c data r :
  let w' := (exec env sched (validate_and_add proxy_addr existing) w).2 in
  IoPost c data r ∈ since w w' →
  c = Working ∧
  has_fields data
    [(u "address", PStr (strip proxy_addr));
     (u "last_checked", PNum (clock env (S (tick w))));
     (u "created_at", PNum (clock env (S (S (tick w)))));
     (u "status", PStr (u "active"))].
Proof.
  intros w' Hin.
  destruct (validate_and_add_posts env sched proxy_addr existing w c data r Hin)
    as [-> ->].
  split; [done|]. apply proxy_data_fields.
Qed.

Lemma validate_and_add_record_witness :
  let w' := (exec demo_env never (validate_and_add some_addr 0%nat) empty_world).2 in
  let data := PDict [(u "address", PStr some_addr);
                     (u "last_checked", PNum 101);
                     (u "created_at", PNum 102);
                     (u "status", PStr (u "active"))] in
  let r := ok (PDict [(u "name", PStr (key_of 0))]) in
  IoPost Working data r ∈ since empty_world w' ∧
  Working = Working ∧
  has_fields data
    [(u "address", PStr (strip some_addr));
     (u "last_checked", PNum 101);
     (u "created_at", PNum 102);
     (u "status", PStr (u "active"))].
Proof.
  intros w' data r. split; [vm_compute; mem|].
  apply (validate_and_add_record demo_env never some_addr 0%nat empty_world
           Working data r).
  vm_compute; mem.
Defined.

(** C7 as stated fails: the two timestamps of one inserted record come from
    two readings of the clock and differ when the clock moves in between. *)
Lemma created_at_differs_from_last_checked :
  working (exec demo_env never (validate_and_add some_addr 0%nat) empty_world).2
  = [(key_of 0, proxy_data some_addr 101 102)] ∧
  get (proxy_data some_addr 101 102) (u "last_checked") PNone = inr (PNum 101) ∧
  get (proxy_data some_addr 101 102) (u "created_at") PNone = inr (PNum 102) ∧
  PNum 102 ≠ PNum 101.
Proof. by vm_compute. Qed.

(** ** Tasks run on their own *)

Lemma exec_bracketed env sched ph n (p : prog unit) w :
  bracketed ph n p →
  (ph = Out → permits w ≠ 0%nat) →
  (ph ≠ InLock → locked w = false) →
  ∃ w', exec env sched p w = (Done (), w') ∧
        permits w' = (permits w + match ph with Out => 0 | _ => 1 end)%nat ∧
        locked w' = false.
Proof.
  revert ph n w. induction p as [[]|e|X e k IH]; intros ph n w Hb Hp Hl.
  - cbn in Hb. subst ph. exists w. split_and!; [done|cbn; lia|by apply Hl].
  - destruct n; done.
  - destruct n as [|n]; [done|]. cbn in Hb.
    destruct e, ph; cbn in Hb;
      try (by destruct Hb as [[] _]);
      try (destruct Hb as [Hpl Hb];
           match goal with
           | |- context [Vis ?e0 _] =>
               destruct (handle_basic_plain env e0 w Hpl) as (y & w1 & Hh & Hp1 & Hl1)
           end;
           cbn [exec handle]; rewrite Hh;
           destruct (IH y _ n w1 (Hb y)) as (w' & He & Hp' & Hl');
           [rewrite Hp1; exact Hp|rewrite Hl1; exact Hl|];
           exists w'; split_and!; [done|by rewrite Hp', Hp1|done]).
    + (* SemAcquire, Out *)
      cbn [exec handle handle_basic]. destruct (permits w) as [|m] eqn:Em; [by destruct Hp|].
      destruct (IH () InSem n (set_permits m w) (Hb ())) as (w' & He & Hp' & Hl');
        [done|intros _; cbn; by apply Hl|].
      exists w'. split_and!; [done|cbn in Hp'; lia|done].
    + (* SemRelease, InSem *)
      cbn [exec handle handle_basic].
      destruct (IH () Out n (set_permits (S (permits w)) w) (Hb ())) as (w' & He & Hp' & Hl');
        [done|intros _; cbn; by apply Hl|].
      exists w'. split_and!; [done|cbn in Hp'; lia|done].
    + (* LockAcquire, InSem *)
      cbn [exec handle handle_basic]. rewrite Hl by done.
      destruct (IH () InLock n (set_locked true w) (Hb ())) as (w' & He & Hp' & Hl');
        [done|done|].
      exists w'. split_and!; [done|cbn in Hp'; lia|done].
    + (* LockRelease, InLock *)
      cbn [exec handle handle_basic].
      destruct (IH () InSem n (set_locked false w) (Hb ())) as (w' & He & Hp' & Hl');
        [done|done|].
      exists w'. split_and!; [done|cbn in Hp'; lia|done].
Qed.

(** X4. A task run on its own with a free permit and the lock open always
    returns, and gives back the permit and the lock on every path: after a
    blank or known candidate, after a failed probe, and after a request
    that raised. *)
Theorem task_returns_resources env sched t w :
  permits w ≠ 0%nat → locked w = false →
  let r := exec env sched (task_body t) w in
  r.1 = Done () ∧ permits r.2 = permits w ∧ locked r.2 = false.
Proof.
  intros Hp Hl r. subst r.
  destruct (exec_bracketed env sched Out task_steps (task_body t) w
              (task_body_bracketed t)) as (w' & -> & Hp' & Hl'); [done..|].
  cbn. split_and!; [done|lia|done].
Qed.

Lemma task_returns_resources_witness :
  let r := exec down_env never (task_body (ValidateAndAdd some_addr 0%nat))
             pool_world in
  (permits pool_world ≠ 0%nat ∧ locked pool_world = false) ∧
  r.1 = Done () ∧ permits r.2 = permits pool_world ∧ locked r.2 = false.
Proof.
  intros r. assert (permits pool_world ≠ 0%nat) as Hp by done.
  split; [done|].
  exact (task_returns_resources down_env never (ValidateAndAdd some_addr 0%nat)
           pool_world Hp eq_refl).
Defined.

(** X1. A live, new candidate is inserted and then known.  A validation
    task run on its own with a free permit, for a candidate that is not
    blank, not in the known set, whose probe is answered with status 200,
    with a store that serves the insert: returns, appends to the working
    set one ProxyRecord of the stripped candidate, stamped with the two
    clock readings that follow the probe, under the key the store
    generates, adds the address to the known set, and leaves the stable
    set, the semaphore and the lock as they were. *)
Theorem validate_and_add_inserts env sched proxy_addr existing w :
  let a := strip proxy_addr in
  let r := exec env sched (validate_and_add proxy_addr existing) w in
  permits w ≠ 0%nat → locked w = false →
  a ≠ [] → HStr a ∉ default ∅ (sets w !! existing) →
  alive (probe_reply env (tick w) (PStr a)) = true →
  store_fault env (3 + tick w) = None →
  r.1 = Done () ∧
  working r.2 = working w ++
    [(key_of (next_key w),
      proxy_data a (clock env (1 + tick w)) (clock env (2 + tick w)))] ∧
  stable r.2 = stable w ∧
  sets r.2 = alter (λ s, {[HStr a]} ∪ s) existing (sets w) ∧
  permits r.2 = permits w ∧ locked r.2 = false.
Proof.
  intros a r Hp Hl Ha Hk Hal Hf. subst r.
  unfold validate_and_add, with_semaphore, with_lock, finally, is_proxy_alive.
  fold a. cbn. destruct (permits w) eqn:E; [done|]. cbn.
  rewrite bool_decide_eq_false_2 by done. cbn. rewrite Hl. cbn.
  rewrite bool_decide_eq_false_2 by done. cbn.
  destruct (probe_reply env (tick w) (PStr a)) as [e|x]; [done|].
  cbn in Hal. cbn. rewrite Hal. cbn. cbn in Hf. rewrite Hf. cbn.
  done.
Qed.

Lemma validate_and_add_inserts_witness :
  let r := exec demo_env never (validate_and_add some_addr 0%nat) pool_world in
  (permits pool_world ≠ 0%nat ∧ locked pool_world = false ∧
   strip some_addr ≠ [] ∧
   (HStr (strip some_addr) ∉ default ∅ (sets pool_world !! 0%nat)) ∧
   alive (probe_reply demo_env 0 (PStr (strip some_addr))) = true ∧
   store_fault demo_env 3 = None) ∧
  r.1 = Done () ∧
  working r.2 = [(key_of 0, proxy_data some_addr 101 102)] ∧
  stable r.2 = [] ∧
  HStr some_addr ∈ default ∅ (sets r.2 !! 0%nat) ∧
  permits r.2 = CONCURRENCY_LIMIT ∧ locked r.2 = false.
Proof.
  intros r.
  assert (permits pool_world ≠ 0%nat) as H1 by done.
  assert (strip some_addr ≠ []) as H2 by done.
  assert (HStr (strip some_addr) ∉ default ∅ (sets pool_world !! 0%nat))
    as H3 by apply not_elem_of_empty.
  assert (alive (probe_reply demo_env 0 (PStr (strip some_addr))) = true)
    as H4 by (by vm_compute).
  split; [done|].
  destruct (validate_and_add_inserts demo_env never some_addr 0%nat pool_world
              H1 eq_refl H2 H3 H4 eq_refl) as (Hd & Hw & Hs & He & Hp & Hl).
  split_and!; done.
Defined.

(** X2. An insert that the store refuses is not recorded as known.  When
    the insert request of a validation task raises or is answered with
    another status than 200, the task still returns, and leaves the working
    set, the stable set, the known set, the semaphore and the lock as they
    were: the address will be tried again at the next cycle. *)
Theorem validate_and_add_refused env sched proxy_addr existing w rf :
  let a := strip proxy_addr in
  let r := exec env sched (validate_and_add proxy_addr existing) w in
  permits w ≠ 0%nat → locked w = false →
  a ≠ [] → HStr a ∉ default ∅ (sets w !! existing) →
  alive (probe_reply env (tick w) (PStr a)) = true →
  store_fault env (3 + tick w) = Some rf → alive rf = false →
  r.1 = Done () ∧
  working r.2 = working w ∧ stable r.2 = stable w ∧ sets r.2 = sets w ∧
  permits r.2 = permits w ∧ locked r.2 = false ∧
  (∃ t1 t2, IoPost Working (proxy_data a t1 t2) rf ∈ since w r.2).
Proof.
  intros a r Hp Hl Ha Hk Hal Hf Hrf. subst r.
  unfold validate_and_add, with_semaphore, with_lock, finally, is_proxy_alive.
  fold a. cbn. destruct (permits w) eqn:E; [done|]. cbn.
  rewrite bool_decide_eq_false_2 by done. cbn. rewrite Hl. cbn.
  rewrite bool_decide_eq_false_2 by done. cbn.
  destruct (probe_reply env (tick w) (PStr a)) as [e|x]; [done|].
  cbn in Hal. cbn. rewrite Hal. cbn. cbn in Hf. rewrite Hf. cbn.
  destruct rf as [e|x']; cbn in *.
  - split_and!; try done. eexists _, _. since_tac. mem.
  - rewrite Hrf. cbn. split_and!; try done. eexists _, _. since_tac. mem.
Qed.

Lemma validate_and_add_refused_witness :
  let r := exec down_env never (validate_and_add some_addr 0%nat) pool_world in
  (permits pool_world ≠ 0%nat ∧ locked pool_world = false ∧
   strip some_addr ≠ [] ∧
   (HStr (strip some_addr) ∉ default ∅ (sets pool_world !! 0%nat)) ∧
   alive (probe_reply down_env 0 (PStr (strip some_addr))) = true ∧
   store_fault down_env 3 = Some (Raised ClientError) ∧
   alive (Raised ClientError) = false) ∧
  r.1 = Done () ∧
  working r.2 = [] ∧ stable r.2 = [] ∧ sets r.2 = [∅] ∧
  permits r.2 = CONCURRENCY_LIMIT ∧ locked r.2 = false ∧
  (∃ t1 t2, IoPost Working (proxy_data (strip some_addr) t1 t2)
              (Raised ClientError) ∈ since pool_world r.2).
Proof.
  intros r.
  assert (permits pool_world ≠ 0%nat) as H1 by done.
  assert (strip some_addr ≠ []) as H2 by done.
  assert (HStr (strip some_addr) ∉ default ∅ (sets pool_world !! 0%nat))
    as H3 by apply not_elem_of_empty.
  assert (alive (probe_reply down_env 0 (PStr (strip some_addr))) = true)
    as H4 by (by vm_compute).
  split; [done|].
  exact (validate_and_add_refused down_env never some_addr 0%nat pool_world
           (Raised ClientError) H1 eq_refl H2 H3 H4 eq_refl eq_refl).
Defined.

(** X3. A delete that the store refuses leaves the entry in place.  When
    the probe of a check task fails and the delete request raises or is
    answered with another status than 200, the task still returns, with
    the working set, the stable set and the semaphore as they were; it
    made the probe, then the delete, then logged one error line when the
    delete raised, and nothing else. *)
Theorem check_and_delete_refused env sched key proxy_addr w rf :
  let r := exec env sched (check_and_delete key proxy_addr) w in
  permits w ≠ 0%nat →
  alive (probe_reply env (tick w) proxy_addr) = false →
  store_fault env (1 + tick w) = Some rf → alive rf = false →
  r.1 = Done () ∧
  working r.2 = working w ∧ stable r.2 = stable w ∧
  permits r.2 = permits w ∧
  since w r.2
  = [IoProbe proxy_addr (probe_reply env (tick w) proxy_addr);
     IoDelete Working key rf]
    ++ match rf with
       | Raised _ => [IoLog ERROR "Delete error"]
       | Resp _ => []
       end.
Proof.
  intros r Hp Hal Hf Hrf. subst r.
  unfold check_and_delete, with_semaphore, finally, is_proxy_alive.
  cbn. destruct (permits w) eqn:E; [done|]. cbn.
  destruct (probe_reply env (tick w) proxy_addr) as [e|x]; cbn in *.
  - rewrite Hf. cbn. destruct rf as [e'|x']; cbn in *.
    + split_and!; try done. by since_tac.
    + rewrite Hrf. cbn. split_and!; try done. by since_tac.
  - rewrite Hal. cbn. rewrite Hf. cbn. destruct rf as [e'|x']; cbn in *.
    + split_and!; try done. by since_tac.
    + rewrite Hrf. cbn. split_and!; try done. by since_tac.
Qed.

Lemma check_and_delete_refused_witness :
  let w := aged_world in
  let r := exec down_env never (check_and_delete old_key (PStr (u "bad:entry")))
             w in
  (permits w ≠ 0%nat ∧
   alive (probe_reply down_env 0 (PStr (u "bad:entry"))) = false ∧
   store_fault down_env 1 = Some (Raised ClientError) ∧
   alive (Raised ClientError) = false) ∧
  r.1 = Done () ∧
  working r.2 = working w ∧ stable r.2 = stable w ∧
  permits r.2 = permits w ∧
  since w r.2 = [IoProbe (PStr (u "bad:entry")) (Raised TimeoutError);
                 IoDelete Working old_key (Raised ClientError);
                 IoLog ERROR "Delete error"].
Proof.
  intros w r.
  assert (permits w ≠ 0%nat) as H1 by done.
  assert (alive (probe_reply down_env 0 (PStr (u "bad:entry"))) = false)
    as H2 by (by vm_compute).
  split; [done|].
  exact (check_and_delete_refused down_env never old_key (PStr (u "bad:entry"))
           w (Raised ClientError) H1 H2 eq_refl eq_refl).
Defined.

(** ** Footprints of the loops *)

Lemma handle_basic_io env {X} (e : event X) w x :
  (handle_basic env e w).1 = Some x →
  trace (handle_basic env e w).2 = trace w ++ io_of e x.
Proof.
  destruct e; cbn; repeat case_match; cbn; intros; simplify_eq;
    by rewrite ?app_nil_r.
Qed.

Section Keeps.
Context (Ψ : io → Prop) (Rw Rs : relation store).
Context `{!Reflexive Rw, !Transitive Rw, !Reflexive Rs, !Transitive Rs}.

#[global] Instance keeps_refl : Reflexive (keeps Ψ Rw Rs).
Proof.
  intros w. split_and!; try done. intros x. rewrite since_refl by done.
  by intros ?%elem_of_nil.
Qed.

#[global] Instance keeps_trans : Transitive (keeps Ψ Rw Rs).
Proof.
  intros w1 w2 w3 (H1 & H2 & H3 & H4) (H5 & H6 & H7 & H8).
  split_and!; [by etrans| |by etrans..].
  intros x. rewrite (since_trans w1 w2 w3 H1 H5), elem_of_app.
  intros [?|?]; eauto.
Qed.

Lemma keeps_step env {X} (e : event X) w :
  (∀ x, Forall Ψ (io_of e x)) →
  Rw (working w) (working (handle_basic env e w).2) →
  Rs (stable w) (stable (handle_basic env e w).2) →
  keeps Ψ Rw Rs w (handle_basic env e w).2.
Proof.
  intros HΨ H1 H2. split_and!; [apply handle_basic_trace| |done..].
  intros x. destruct (handle_basic env e w).1 as [y|] eqn:Hy.
  - erewrite since_app by (by apply handle_basic_io).
    apply Forall_forall, HΨ.
  - rewrite since_refl; [by intros ?%elem_of_nil|].
    destruct e; cbn in *; by repeat case_match.
Qed.
End Keeps.

(** The list comprehension of the eviction loop runs no event: it gives
    one task for each entry with a non-empty address, in order, or
    raises. *)
Lemma cleanup_tasks_pure its :
  (∃ tasks,
     cleanup_tasks its = Ret tasks ∧
     Forall (λ t, ∃ k v a, t = CheckAndDelete k a ∧ (k, v) ∈ its ∧
                           get v (u "address") PNone = inr a ∧
                           truthy a = true) tasks) ∨
  (∃ e, cleanup_tasks its = Raise e).
Proof.
  induction its as [|[k v] its IH]; cbn [cleanup_tasks].
  { left. by exists []. }
  destruct (get v (u "address") PNone) as [e|a] eqn:Hg; cbn; [by right; eexists|].
  assert ((∃ tasks,
     cleanup_tasks its = Ret tasks ∧
     Forall (λ t, ∃ k' v' a', t = CheckAndDelete k' a' ∧
                              (k', v') ∈ (k, v) :: its ∧
                              get v' (u "address") PNone = inr a' ∧
                              truthy a' = true) tasks) ∨
  (∃ e, cleanup_tasks its = Raise e)) as IH'.
  { destruct IH as [(tasks & ? & Ht)|?]; [left|by right].
    exists tasks. split; [done|]. eapply Forall_impl; [done|].
    intros t (k' & v' & a' & ? & ? & ? & ?). exists k', v', a'.
    split_and!; try done. by apply list_elem_of_further. }
  destruct (truthy a) eqn:Ha; [|done].
  destruct IH' as [(tasks & -> & Ht)|[e ->]]; cbn; [left|by right; eexists].
  eexists. split; [done|]. apply Forall_cons. split; [|done].
  exists k, v, a. split_and!; try done. apply list_elem_of_here.
Qed.

Section Tasks.
Context (P : ∀ X, event X → Prop).
Hypothesis P_get : ∀ url, P _ (HttpGet url).
Hypothesis P_log : ∀ l msg, P _ (Log l msg).
Hypothesis P_sleep : ∀ secs, P _ (Sleep secs).

Lemma fetch_and_store_cycle_tasks :
  P _ HttpBulk → (∀ s, P _ (NewSet s)) →
  (∀ p r, all_events P (validate_and_add p r)) →
  all_events (with_tasks P) fetch_and_store_cycle.
Proof.
  intros P_bulk P_new Hv. unfold fetch_and_store_cycle.
  apply all_events_bind; [|intros; apply all_events_trigger, P_sleep].
  apply all_events_try_except; [|intros; apply all_events_trigger, P_log].
  apply all_events_bind; [apply all_events_request; first [apply P_get|done]|].
  intros r. case_match; [|apply all_events_trigger, P_log].
  apply all_events_bind; [apply all_events_read_text|]. intros text.
  apply all_events_bind; [apply all_events_trigger, P_log|]. intros _.
  apply all_events_bind; [apply get_existing_proxies_events; [exact P_get|exact P_log]|]. intros s.
  apply all_events_bind; [apply all_events_trigger, P_new|].
  intros existing.
  apply all_events_bind; [|intros; apply all_events_trigger, P_log].
  apply all_events_gather. cbn. apply Forall_fmap, Forall_forall.
  intros p _. apply Hv.
Qed.

Lemma cleanup_cycle_tasks :
  (∀ k a, truthy a = true → all_events P (check_and_delete k a)) →
  all_events (with_tasks P) cleanup_cycle.
Proof.
  intros Hc. unfold cleanup_cycle.
  apply all_events_bind; [|intros; apply all_events_trigger, P_sleep].
  apply all_events_try_except; [|intros; apply all_events_trigger, P_log].
  apply all_events_bind; [apply all_events_request; first [apply P_get|done]|].
  intros r. case_match; [|apply all_events_trigger, P_log].
  apply all_events_bind; [apply all_events_read_json|]. intros data.
  case_match; [|apply all_events_trigger, P_log].
  apply all_events_bind; [apply all_events_lift|]. intros _.
  apply all_events_bind; [apply all_events_trigger, P_log|]. intros _.
  apply all_events_bind; [apply all_events_lift|]. intros its.
  destruct (cleanup_tasks_pure its) as [(tasks & -> & Ht)|[e ->]]; [|done].
  apply all_events_gather. cbn. eapply Forall_impl; [done|].
  intros t (k & v & a & -> & _ & _ & Ha). by apply Hc.
Qed.
End Tasks.

Lemma ingestion_step env {X} (e : event X) w :
  inserts_into Working X e →
  keeps (io_inserts_into Working) list.prefix eq w (handle_basic env e w).2.
Proof.
  intros He. apply keeps_step; try apply _.
  - intros x. destruct e; cbn in *; repeat constructor; done.
  - destruct e; cbn in *; try done; repeat case_match; cbn; subst; try done.
    by apply prefix_app_r.
  - destruct e; cbn in *; try done; repeat case_match; cbn; subst; done.
Qed.

Lemma eviction_step env {X} (e : event X) w :
  removes_only X e →
  keeps io_removes_only (flip sublist) eq w (handle_basic env e w).2.
Proof.
  intros He. apply keeps_step; try apply _.
  - intros x. destruct e; cbn in *; repeat constructor; done.
  - destruct e; cbn in *; try done; repeat case_match; cbn; subst; try done.
    apply sublist_filter.
  - destruct e; cbn in *; try done; repeat case_match; cbn; subst; done.
Qed.

Lemma promotion_step env {X} (e : event X) w :
  inserts_into Stable X e → no_probe X e →
  keeps (λ x, io_inserts_into Stable x ∧ io_no_probe x) eq list.prefix w
    (handle_basic env e w).2.
Proof.
  intros He Hp. apply keeps_step; try apply _.
  - intros x. destruct e; cbn in *; repeat constructor; done.
  - destruct e; cbn in *; try done; repeat case_match; cbn; subst; done.
  - destruct e; cbn in *; try done; repeat case_match; cbn; subst; try done.
    by apply prefix_app_r.
Qed.

Lemma validate_and_add_inserts_into p r :
  all_events (inserts_into Working) (validate_and_add p r).
Proof.
  eapply all_events_mono; [|apply validate_and_add_events].
  intros X []; cbn; try done. by intros [-> _].
Qed.

Lemma check_and_delete_removes_only k a :
  all_events removes_only (check_and_delete k a).
Proof.
  eapply all_events_mono; [|apply check_and_delete_events].
  intros X []; cbn; try done. by intros [-> _].
Qed.

(** X13. An ingestion cycle only appends to the working set: under every
    schedule and environment it makes no delete request, every insert goes
    to the working set, the working set before the cycle is a prefix of the
    one after it, and the stable set is unchanged. *)
Theorem ingestion_only_appends env sched w :
  let w' := (exec env sched fetch_and_store_cycle w).2 in
  (∀ c k r, IoDelete c k r ∉ since w w') ∧
  (∀ c data r, IoPost c data r ∈ since w w' → c = Working) ∧
  working w `prefix_of` working w' ∧
  stable w' = stable w.
Proof.
  intros w'.
  assert (keeps (io_inserts_into Working) list.prefix eq w w')
    as (_ & H1 & H2 & H3).
  { apply (exec_sat env (inserts_into Working)); try apply _.
    - intros. by apply ingestion_step.
    - apply fetch_and_store_cycle_tasks; try done.
      apply validate_and_add_inserts_into. }
  split_and!; [| |done..].
  - intros c k r Hin. apply (H1 _ Hin).
  - intros c data r Hin. apply (H1 _ Hin).
Qed.

(** X17. An eviction cycle only removes from the working set: under every
    schedule and environment it makes no insert request, every delete goes
    to the working set, what remains of the working set is a sublist of
    what was there, and the stable set is unchanged. *)
Theorem eviction_only_removes env sched w :
  let w' := (exec env sched cleanup_cycle w).2 in
  (∀ c data r, IoPost c data r ∉ since w w') ∧
  (∀ c k r, IoDelete c k r ∈ since w w' → c = Working) ∧
  working w' `sublist_of` working w ∧
  stable w' = stable w.
Proof.
  intros w'.
  assert (keeps io_removes_only (flip sublist) eq w w') as (_ & H1 & H2 & H3).
  { apply (exec_sat env removes_only); try apply _.
    - intros. by apply eviction_step.
    - apply cleanup_cycle_tasks; try done.
      intros k a _. apply check_and_delete_removes_only. }
  split_and!; [| |done..].
  - intros c data r Hin. apply (H1 _ Hin).
  - intros c k r Hin. apply (H1 _ Hin).
Qed.

(** X19. A promotion cycle copies and never moves: under every schedule and
    environment, and for every threshold, it probes no proxy, makes no
    delete request, inserts into the stable set only, leaves the working
    set unchanged, and the stable set before the cycle is a prefix of the
    one after it. *)
Theorem promotion_only_copies env sched thr w :
  let w' := (exec env sched (stability_cycle thr) w).2 in
  (∀ a r, IoProbe a r ∉ since w w') ∧
  (∀ c k r, IoDelete c k r ∉ since w w') ∧
  (∀ c data r, IoPost c data r ∈ since w w' → c = Stable) ∧
  working w' = working w ∧
  stable w `prefix_of` stable w'.
Proof.
  intros w'.
  assert (keeps (λ x, io_inserts_into Stable x ∧ io_no_probe x) eq list.prefix w w')
    as (_ & H1 & H2 & H3).
  { apply (exec_sat env (λ X e, inserts_into Stable X e ∧ no_probe X e));
      try apply _.
    - intros X e w0 [??]. by apply promotion_step.
    - by apply stability_cycle_events. }
  split_and!; [| | |done..].
  - intros a r Hin. apply (H1 _ Hin).
  - intros c k r Hin. apply (H1 _ Hin).
  - intros c data r Hin. apply (H1 _ Hin).
Qed.

(** ** Candidates of the ingestion loop *)

Lemma lstrip_head s c : head (lstrip s) = Some c → isspace c = false.
Proof.
  induction s as [|c' s IH]; cbn; [done|].
  destruct (isspace c') eqn:E; [done|]. cbn. by intros [= <-].
Qed.

Lemma lstrip_suffix s : ∃ l, s = l ++ lstrip s.
Proof.
  induction s as [|c s [l IH]]; cbn; [by exists []|].
  destruct (isspace c); [|by exists []]. exists (c :: l). cbn. by f_equal.
Qed.

Lemma last_rev {A} (l : list A) : last (rev l) = head l.
Proof. destruct l as [|x l]; cbn; [done|]. by rewrite last_snoc. Qed.

Lemma head_app_ne {A} (l1 l2 : list A) : l1 ≠ [] → head (l1 ++ l2) = head l1.
Proof. by destruct l1. Qed.

Lemma strip_clean s : strip s ≠ [] → clean (strip s).
Proof.
  intros Hne. split; [done|]. unfold strip, rstrip in *. split.
  - intros c Hc. apply (lstrip_head s).
    destruct (lstrip_suffix (rev (lstrip s))) as [l Hl].
    apply (f_equal (@rev _)) in Hl. rewrite rev_involutive, rev_app_distr in Hl.
    rewrite Hl, head_app_ne; done.
  - intros c. rewrite last_rev. apply lstrip_head.
Qed.

Lemma validate_and_add_clean p r : all_events clean_event (validate_and_add p r).
Proof.
  destruct (decide (strip p = [])) as [Hs|Hs].
  { rewrite validate_and_add_unfold. unfold with_semaphore.
    rewrite bool_decide_eq_true_2 by done.
    cbn. split; [done|]. intros _. split; [done|]. by intros _. }
  pose proof (strip_clean p Hs) as Hc.
  eapply all_events_mono; [|apply validate_and_add_events].
  intros X []; cbn; try done.
  - intros ->. by eexists.
  - intros (-> & t1 & t2 & ->). split; [done|]. by eexists _, _, _.
Qed.

Lemma clean_step env {X} (e : event X) w :
  clean_event X e →
  keeps io_clean (λ _ _, True) (λ _ _, True) w (handle_basic env e w).2.
Proof.
  intros He. apply keeps_step; try done.
  intros x. destruct e; cbn [io_of]; rewrite ?Forall_singleton; try done;
    by apply Forall_nil.
Qed.

(** X12. Every probe of an ingestion cycle is for an address that is not
    empty and has no whitespace at either end, and every insert is the
    ProxyRecord of such an address, under every schedule and environment:
    blank lines of the bulk list are skipped and stray carriage returns
    or spaces around a candidate never reach the store. *)
Theorem ingestion_addresses_clean env sched w :
  let w' := (exec env sched fetch_and_store_cycle w).2 in
  (∀ a r, IoProbe a r ∈ since w w' → ∃ s, a = PStr s ∧ clean s) ∧
  (∀ c data r, IoPost c data r ∈ since w w' →
     c = Working ∧ ∃ s t1 t2, data = proxy_data s t1 t2 ∧ clean s).
Proof.
  intros w'.
  assert (keeps io_clean (λ _ _, True) (λ _ _, True) w w') as (_ & H1 & _).
  { apply (exec_sat env clean_event).
    - by apply keeps_refl.
    - by apply keeps_trans.
    - intros. by apply clean_step.
    - apply fetch_and_store_cycle_tasks; try done.
      apply validate_and_add_clean. }
  split.
  - intros a r Hin. apply (H1 _ Hin).
  - intros c data r Hin. apply (H1 _ Hin).
Qed.

(** X14. When the bulk source gives no list (the call raises, the status is
    not 200, or the body cannot be read), the ingestion cycle logs one
    error and sleeps its interval: it makes no other request, probes
    nothing, and leaves both collections as they were. *)
Theorem bulk_failure_is_skipped env sched w :
  no_list (bulk_reply env (tick w)) →
  let r := exec env sched fetch_and_store_cycle w in
  r.1 = Done () ∧
  (∃ msg, since w r.2 = [IoBulk (bulk_reply env (tick w)); IoLog ERROR msg;
                          IoSleep FETCH_INTERVAL]) ∧
  working r.2 = working w ∧ stable r.2 = stable w.
Proof.
  intros Hr r. subst r. unfold fetch_and_store_cycle. cbn.
  destruct (bulk_reply env (tick w)) as [e|x]; cbn.
  { split_and!; try done. eexists. by since_tac. }
  destruct Hr as [Hs|Ht].
  - apply Z.eqb_neq in Hs. rewrite Hs. cbn.
    split_and!; try done. eexists. by since_tac.
  - destruct (status x =? 200); cbn; [unfold read_text; rewrite Ht; cbn|];
      (split_and!; try done; eexists; by since_tac).
Qed.

Lemma bulk_failure_is_skipped_witness :
  let w := aged_world in
  let r := exec down_env round_robin fetch_and_store_cycle w in
  no_list (bulk_reply down_env (tick w)) ∧
  r.1 = Done () ∧
  (∃ msg, since w r.2 = [IoBulk (Raised ClientError); IoLog ERROR msg;
                          IoSleep FETCH_INTERVAL]) ∧
  working r.2 = working w ∧ stable r.2 = stable w.
Proof.
  intros w r. split; [done|].
  exact (bulk_failure_is_skipped down_env round_robin w I).
Defined.

(** ** Reading a collection *)

Lemma addresses_spec vals :
  Forall stable_ok vals →
  ∃ S, addresses vals = Ret S ∧
       ∀ h, h ∈ S ↔ ∃ v p, v ∈ vals ∧ get v (u "address") PNone = inr p ∧
                           truthy p = true ∧ hash p = inr h.
Proof.
  induction 1 as [|v vals (p & h & Hp & Hh) _ (S & HS & IH)]; cbn.
  { exists ∅. split; [done|]. intros h. split; [set_solver|].
    intros (v & p & Hv & _). by apply elem_of_nil in Hv. }
  rewrite Hp. cbn. destruct (truthy p) eqn:Ht.
  - rewrite Hh. cbn. rewrite HS. cbn. eexists; split; [done|].
    intros h'. rewrite elem_of_union, elem_of_singleton, IH. split.
    + intros [->|(v' & p' & ? & ?)].
      * exists v, p. split; [apply list_elem_of_here|done].
      * exists v', p'. split; [by apply list_elem_of_further|done].
    + intros (v' & p' & [->|Hin]%elem_of_cons & Hg & Ht' & Hh').
      * left. congruence.
      * right. by exists v', p'.
  - exists S. split; [done|]. intros h'. rewrite IH. split.
    + intros (v' & p' & ? & ?). exists v', p'.
      split; [by apply list_elem_of_further|done].
    + intros (v' & p' & [->|Hin]%elem_of_cons & Hg & Ht' & Hh');
        [congruence|by exists v', p'].
Qed.

(** What a served read of a collection returns and leaves. *)
Lemma get_existing_proxies_served env sched url w :
  store_fault env (tick w) = None →
  Forall stable_ok (coll url w).*2 →
  ∃ S,
    exec env sched (get_existing_proxies url) w
    = (Done S, advance (record (IoGet url (ok (store_json (coll url w)))) w)) ∧
    ∀ h, h ∈ S ↔ ∃ v p, v ∈ (coll url w).*2 ∧
                        get v (u "address") PNone = inr p ∧
                        truthy p = true ∧ hash p = inr h.
Proof.
  intros Hf Hok. unfold get_existing_proxies.
  rewrite exec_try_except, exec_bind, exec_request.
  cbn [handle handle_basic]. rewrite Hf. cbn [ok status Z.eqb Pos.eqb].
  rewrite exec_bind. cbn [read_json json exec].
  destruct (coll url w) as [|it its] eqn:Hc; cbn [store_json truthy exec].
  { exists ∅. split; [done|]. intros h. split; [set_solver|].
    intros (v & p & Hin & _). by apply elem_of_nil in Hin. }
  rewrite exec_bind. cbn [lift items exec].
  destruct (addresses_spec _ Hok) as (S & -> & HS). by exists S.
Qed.

(** X6. A read of a collection that the store serves, all of whose records
    are objects with a hashable address, returns exactly the non-empty
    addresses of the collection; the read is its only request and changes
    neither collection. *)
Theorem get_existing_proxies_spec env sched url w :
  store_fault env (tick w) = None →
  Forall stable_ok (coll url w).*2 →
  ∃ S,
    exec env sched (get_existing_proxies url) w
    = (Done S, advance (record (IoGet url (ok (store_json (coll url w)))) w)) ∧
    ∀ h, h ∈ S ↔ ∃ key val p, (key, val) ∈ coll url w ∧
                              get val (u "address") PNone = inr p ∧
                              truthy p = true ∧ hash p = inr h.
Proof.
  intros Hf Hok.
  destruct (get_existing_proxies_served env sched url w Hf Hok)
    as (S & He & HS).
  exists S. split; [done|]. intros h. rewrite HS. split.
  - intros (v & p & Hv & ?). apply list_elem_of_fmap in Hv as ([k v'] & -> & ?).
    by exists k, v', p.
  - intros (k & v & p & Hin & ?). exists v, p. split; [|done].
    by apply (list_elem_of_fmap_2 snd _ (k, v)).
Qed.

Lemma get_existing_proxies_spec_witness :
  let w := aged_world in
  (store_fault demo_env (tick w) = None ∧
   Forall stable_ok (coll Working w).*2) ∧
  ∃ S,
    exec demo_env never (get_existing_proxies Working) w
    = (Done S,
       advance (record (IoGet Working (ok (store_json (coll Working w)))) w)) ∧
    (HStr some_addr ∈ S ↔
     ∃ key val p, (key, val) ∈ coll Working w ∧
                  get val (u "address") PNone = inr p ∧
                  truthy p = true ∧ hash p = inr (HStr some_addr)).
Proof.
  intros w.
  assert (Forall stable_ok (coll Working w).*2) as Hok.
  { apply Forall_cons. split; [|apply Forall_nil_2].
    by exists (PStr some_addr), (HStr some_addr). }
  split; [done|].
  destruct (get_existing_proxies_spec demo_env never Working w eq_refl Hok)
    as (S & He & HS).
  exists S. split; [exact He|apply HS].
Defined.

(** ** Records the loops cannot read *)

Lemma exec_plain env sched {A} (p : prog A) w :
  all_events (λ X e, plain e) p → (exec env sched p w).1 ≠ Pending.
Proof.
  revert w. induction p as [a|e|X e k IH]; intros w Hp; cbn; try done.
  destruct Hp as [He Hk].
  destruct (handle_basic_plain env e w He) as (x & w' & Hh & _).
  assert (handle env sched e w = handle_basic env e w) as -> by by destruct e.
  rewrite Hh. by apply IH.
Qed.

Lemma exec_promote_all_app env sched thr t its1 its2 S w :
  exec env sched (promote_all thr t (its1 ++ its2) S) w
  = match exec env sched (promote_all thr t its1 S) w with
    | (Done S', w') => exec env sched (promote_all thr t its2 S') w'
    | (Failed e, w') => (Failed e, w')
    | (Pending, w') => (Pending, w')
    end.
Proof.
  revert S w. induction its1 as [|[k v] its1 IH]; intros S w; [done|].
  cbn [app].
  change (promote_all thr t ((k, v) :: its1 ++ its2) S)
    with (promote thr t k v S ≫= promote_all thr t (its1 ++ its2)).
  change (promote_all thr t ((k, v) :: its1) S)
    with (promote thr t k v S ≫= promote_all thr t its1).
  rewrite !exec_bind.
  destruct (exec env sched (promote thr t k v S) w) as [[S'|e|] w']; [|done..].
  apply IH.
Qed.

Lemma promote_all_plain thr t its S :
  all_events (λ X e, plain e) (promote_all thr t its S).
Proof. by apply promote_all_events. Qed.

Lemma promote_all_stops env sched thr t its1 key val its2 S w :
  (∃ e, age_of t val = inl e) →
  let r := exec env sched (promote_all thr t (its1 ++ (key, val) :: its2) S) w in
  (∃ e, r.1 = Failed e) ∧ sound_posts (promoted_from thr t its1) w r.2.
Proof.
  intros [e He] r. subst r. rewrite exec_promote_all_app.
  pose proof (promote_all_sound_posts env sched thr t its1 S w) as H1.
  pose proof (exec_plain env sched (promote_all thr t its1 S) w
                (promote_all_plain _ _ _ _)) as H2.
  destruct (exec env sched (promote_all thr t its1 S) w) as [[S'|e'|] w'];
    cbn [fst snd] in *; [|by eauto|done].
  change (promote_all thr t ((key, val) :: its2) S')
    with (promote thr t key val S' ≫= promote_all thr t its2).
  rewrite exec_bind. unfold promote.
  destruct (get val (u "address") PNone) as [e'|p]; cbn; [by eauto|].
  rewrite He. cbn. eauto.
Qed.

(** X20. A record of the working set whose age cannot be computed (it is no
    object, or its [created_at] is not a number) ends the scan of a
    promotion cycle: the cycle logs the error and returns, and only
    entries listed before that record can have been promoted. *)
Theorem unreadable_record_stops_promotion env sched thr w its1 key val its2 :
  store_fault env (tick w) = None →
  working w = its1 ++ (key, val) :: its2 →
  (∀ t, ∃ e, age_of t val = inl e) →
  let t := clock env (S (tick w)) in
  let r := exec env sched (stability_cycle thr) w in
  r.1 = Done () ∧
  IoLog ERROR "Stability monitor error" ∈ since w r.2 ∧
  (∀ c data r', IoPost c data r' ∈ since w r.2 →
     promoted_from thr t its1 c data).
Proof.
  intros Hf Hw Hval t r. subst r. unfold stability_cycle.
  rewrite exec_bind, exec_try_except, exec_bind, exec_request.
  cbn [handle handle_basic]. rewrite Hf.
  set (Φ := promoted_from _ _ _).
  set (w1 := advance (record _ w)).
  assert (sound_posts Φ w w1) as H1.
  { split; [by apply prefix_app_r|]. intros c d r. unfold w1. since_tac.
    intros Hin. by mem_inv Hin. }
  cbn [ok status]. cbn [Z.eqb Pos.eqb].
  rewrite exec_bind. cbn [read_json json exec].
  assert (truthy (store_json (coll FIREBASE_BASE_URL w)) = true) as ->.
  { cbn. rewrite Hw. by destruct its1. }
  rewrite exec_bind. cbn [trigger exec handle handle_basic].
  rewrite exec_bind.
  pose proof (exec_no_post env sched Φ (get_existing_proxies STABLE_PROXIES_URL)
                (advance w1) (no_post_get_existing_proxies _)) as H3.
  destruct (exec_get_existing_proxies env sched STABLE_PROXIES_URL (advance w1))
    as (S & HS & _).
  destruct (exec env sched (get_existing_proxies STABLE_PROXIES_URL) (advance w1))
    as [o w3]; cbn [fst snd] in *. subst o.
  rewrite exec_bind.
  assert (items (store_json (coll FIREBASE_BASE_URL w))
          = inr (its1 ++ (key, val) :: its2)) as ->.
  { cbn. rewrite Hw. by destruct its1. }
  cbn [lift exec]. rewrite exec_bind.
  destruct (promote_all_stops env sched thr (clock env (tick w1)) its1 key val
              its2 S w3 (Hval _)) as [[e He] H4].
  destruct (exec env sched (promote_all _ _ _ _) w3) as [o w4];
    cbn [fst snd] in *. subst o.
  cbn. split; [done|].
  assert (sound_posts Φ w w4) as [Hp H5].
  { etrans; [done|]. etrans; [|done]. etrans; [|done].
    split; [done|]. intros c d r. rewrite since_refl by done.
    by intros ?%elem_of_nil. }
  destruct Hp as [l Hl].
  assert (since w (record (IoSleep STABILITY_CHECK_INTERVAL)
            (record (IoLog ERROR "Stability monitor error") w4))
          = since w w4 ++ [IoLog ERROR "Stability monitor error";
                           IoSleep STABILITY_CHECK_INTERVAL]) as ->.
  { rewrite (since_app w w4 l Hl). apply since_app. cbn.
    rewrite Hl. by rewrite <- !app_assoc. }
  split.
  - apply elem_of_app. right. apply list_elem_of_here.
  - intros c d r [Hin|Hin]%elem_of_app; [by eapply H5|]. by mem_inv Hin.
Qed.

Lemma unreadable_record_stops_promotion_witness :
  let w := junk_world in
  let its1 := [(old_key, proxy_data some_addr (-600) (-600))] in
  let r := exec demo_env never (stability_cycle STABILITY_THRESHOLD) w in
  (store_fault demo_env (tick w) = None ∧
   working w = its1 ++ (junk_key, PStr (u "junk")) :: [] ∧
   ∀ t, ∃ e, age_of t (PStr (u "junk")) = inl e) ∧
  r.1 = Done () ∧
  IoLog ERROR "Stability monitor error" ∈ since w r.2 ∧
  (∀ c data r', IoPost c data r' ∈ since w r.2 →
     promoted_from STABILITY_THRESHOLD (clock demo_env 1) its1 c data).
Proof.
  intros w its1 r.
  assert (∀ t, ∃ e, age_of t (PStr (u "junk")) = inl e) as Ha
    by (intros t; by eexists).
  split; [done|].
  exact (unreadable_record_stops_promotion demo_env never STABILITY_THRESHOLD
           w its1 junk_key (PStr (u "junk")) [] eq_refl eq_refl Ha).
Defined.

Lemma cleanup_tasks_raises its key val :
  (key, val) ∈ its → (∀ d, val ≠ PDict d) → ∃ e, cleanup_tasks its = Raise e.
Proof.
  intros Hin Hval. induction its as [|[k v] its IH]; [by apply elem_of_nil in Hin|].
  cbn [cleanup_tasks]. apply elem_of_cons in Hin as [[= <- <-]|Hin].
  { destruct val; cbn; try by eexists. by destruct (Hval d). }
  destruct (IH Hin) as [e He].
  destruct (get v (u "address") PNone) as [e'|a]; cbn; [by eexists|].
  destruct (truthy a); rewrite He; cbn; by eexists.
Qed.

(** X18. An entry of the working set that is no object disables eviction:
    a cycle that reads such a working set logs the error and sleeps,
    without probing or deleting anything. *)
Theorem non_object_entry_disables_eviction env sched w key val :
  store_fault env (tick w) = None →
  (key, val) ∈ working w →
  (∀ d, val ≠ PDict d) →
  let r := exec env sched cleanup_cycle w in
  r.1 = Done () ∧
  since w r.2 = [IoGet Working (ok (store_json (working w)));
                 IoLog INFO "Scanning proxies in DB...";
                 IoLog ERROR "Cleanup loop error";
                 IoSleep CLEANUP_INTERVAL] ∧
  working r.2 = working w ∧ stable r.2 = stable w.
Proof.
  intros Hf Hin Hval r. subst r. unfold cleanup_cycle.
  rewrite exec_bind, exec_try_except, exec_bind, exec_request.
  cbn [handle handle_basic]. rewrite Hf.
  cbn [ok status]. cbn [Z.eqb Pos.eqb].
  rewrite exec_bind. cbn [read_json json exec coll FIREBASE_BASE_URL].
  destruct (working w) as [|it its] eqn:Hw; [by apply elem_of_nil in Hin|].
  cbn [store_json truthy]. rewrite exec_bind. cbn [len lift exec].
  rewrite exec_bind. cbn [log trigger exec handle handle_basic].
  rewrite exec_bind. cbn [items lift exec]. rewrite exec_bind.
  destruct (cleanup_tasks_raises (it :: its) key val Hin Hval) as [e ->].
  cbn. split_and!; try done. by since_tac.
Qed.

Lemma non_object_entry_disables_eviction_witness :
  let w := junk_world in
  let r := exec dead_env round_robin cleanup_cycle w in
  (store_fault dead_env (tick w) = None ∧
   (junk_key, PStr (u "junk")) ∈ working w ∧
   ∀ d, PStr (u "junk") ≠ PDict d) ∧
  r.1 = Done () ∧
  since w r.2 = [IoGet Working (ok (store_json (working w)));
                 IoLog INFO "Scanning proxies in DB...";
                 IoLog ERROR "Cleanup loop error";
                 IoSleep CLEANUP_INTERVAL] ∧
  working r.2 = working w ∧ stable r.2 = stable w.
Proof.
  intros w r.
  assert ((junk_key, PStr (u "junk")) ∈ working w) as Hin by (cbn; mem).
  assert (∀ d, PStr (u "junk") ≠ PDict d) as Hd by done.
  split; [done|].
  exact (non_object_entry_disables_eviction dead_env round_robin w junk_key
           (PStr (u "junk")) eq_refl Hin Hd).
Defined.

(** ** Tasks that run interleaved *)

Section Rely.
Context (env : Env) (I : relation World) (Inv : World → Prop).
Context (Q : World → ∀ X, event X → Prop).
Context `{!Reflexive I, !Transitive I}.
Hypothesis guar : ∀ X (e : event X) w, Q w X e → I w (handle_basic env e w).2.
Hypothesis inv_step :
  ∀ X (e : event X) w, Inv w → Q w X e → Inv (handle_basic env e w).2.

Lemma respects_mono F w w' p :
  I w w' → respects env I Inv Q F w p → respects env I Inv Q F w' p.
Proof.
  intros HI. destruct p as [a|e|X e k]; cbn; [|done|].
  - intros H w1 H1 Hi. apply H; [by etrans|done].
  - intros H w1 H1 Hi. apply H; [by etrans|done].
Qed.

Lemma step_task_respects Fs c i :
  Forall2 (λ F p, respects env I Inv Q F c.2 p) Fs c.1 → Inv c.2 →
  Forall2 (λ F p, respects env I Inv Q F (step_task env c i).2 p) Fs
    (step_task env c i).1 ∧
  I c.2 (step_task env c i).2 ∧ Inv (step_task env c i).2.
Proof.
  intros Hc Hinv. unfold step_task.
  destruct (c.1 !! i) as [[a|e|X e k]|] eqn:Hi; try done.
  destruct (Forall2_lookup_r _ _ _ _ _ Hc Hi) as (F & HF & Hp).
  cbn in Hp. destruct (Hp c.2) as [HQ Hk]; [done..|].
  pose proof (guar _ e c.2 HQ) as HI.
  pose proof (inv_step _ e c.2 Hinv HQ) as Hinv'.
  destruct (handle_basic env e c.2) as [[x|] w'] eqn:Hh; cbn [fst snd] in *;
    [|done].
  split_and!; [|done..].
  rewrite <- (list_insert_id Fs i F HF).
  apply Forall2_insert; [|by apply Hk].
  eapply Forall2_impl; [done|]. intros F' p'. by apply respects_mono.
Qed.

Lemma run_pool_respects Fs sched c :
  Forall2 (λ F p, respects env I Inv Q F c.2 p) Fs c.1 → Inv c.2 →
  Forall2 (λ F p, respects env I Inv Q F (run_pool env sched c).2 p) Fs
    (run_pool env sched c).1 ∧
  I c.2 (run_pool env sched c).2 ∧ Inv (run_pool env sched c).2.
Proof.
  revert c. induction sched as [|i sched IH]; intros c Hc Hinv; [done|].
  cbn. destruct (step_task_respects Fs c i Hc Hinv) as (H1 & H2 & H3).
  destruct (IH _ H1 H3) as (H4 & H5 & H6). split_and!; [done|by etrans|done].
Qed.

Lemma respects_returned Fs (ps : pool) w :
  Forall2 (λ F p, respects env I Inv Q F w p) Fs ps → Inv w →
  all_returned ps → Forall (λ F, F w) Fs.
Proof.
  intros H Hi. induction H as [|F p Fs ps Hp _ IH]; intros Hr; [done|].
  apply Forall_cons in Hr as [-> Hr]. apply Forall_cons.
  split; [by apply Hp|by apply IH].
Qed.
End Rely.

(** Rules to follow a task through its events, carrying what is known
    of the world ([K], stable under [I]). *)
Section Rules.
Context (env : Env) (I : relation World) (Inv : World → Prop).
Context (Q : World → ∀ X, event X → Prop) (F : World → Prop).
Context `{!Reflexive I, !Transitive I}.
Hypothesis guar : ∀ X (e : event X) w, Q w X e → I w (handle_basic env e w).2.

Lemma respects_vis (K : World → Prop) {X} (K' : X → World → Prop)
    (e : event X) k w :
  stable_under I K → K w →
  (∀ w1, K w1 → Inv w1 → Q w1 X e) →
  (∀ w1 x, K w1 → Inv w1 → (handle_basic env e w1).1 = Some x →
           K' x (handle_basic env e w1).2) →
  (∀ x w', K' x w' → respects env I Inv Q F w' (k x)) →
  respects env I Inv Q F w (Vis e k).
Proof.
  intros HK Hw HQ HK' Hk. cbn. intros w1 H1 Hi.
  assert (K w1) as Hw1 by by eapply HK.
  split; [by apply HQ|]. intros x Hx. apply Hk. by apply HK'.
Qed.

Lemma respects_ret (K : World → Prop) w :
  stable_under I K → K w → (∀ w1, K w1 → Inv w1 → F w1) →
  respects env I Inv Q F w (Ret ()).
Proof. intros HK Hw HF. cbn. intros w1 H1 Hi. apply HF; [by eapply HK|done]. Qed.

(** An event that adds nothing to what is known. *)
Lemma respects_skip (K : World → Prop) {X} (e : event X) k w :
  stable_under I K → K w →
  (∀ w1, K w1 → Inv w1 → Q w1 X e) →
  (∀ x w', K w' → respects env I Inv Q F w' (k x)) →
  respects env I Inv Q F w (Vis e k).
Proof.
  intros HK Hw HQ Hk. apply (respects_vis K (λ _, K)); try done.
  intros w1 x Hw1 Hi _. eapply HK; [|done]. by apply guar, HQ.
Qed.
End Rules.

(** ** Ingestion: the tasks of a cycle, interleaved *)

Lemma since_snoc w0 w w' l :
  trace w0 `prefix_of` trace w → trace w' = trace w ++ l →
  since w0 w' = since w0 w ++ l.
Proof.
  intros [l0 H0] H. rewrite (since_app w0 w l0 H0). apply since_app.
  by rewrite H, H0, app_assoc.
Qed.

Lemma since_mono w0 w w' y :
  trace w0 `prefix_of` trace w → trace w `prefix_of` trace w' →
  y ∈ since w0 w → y ∈ since w0 w'.
Proof.
  intros H0 [l H] Hy. rewrite (since_snoc w0 w w' l H0 H).
  apply elem_of_app. by left.
Qed.

Lemma preceded_nil J : preceded J [].
Proof. intros tr1 y tr2 H. by destruct tr1. Qed.

Lemma preceded_snoc J tr y :
  preceded J tr → J tr y → preceded J (tr ++ [y]).
Proof.
  intros Htr Hy tr1 y' tr2 H.
  destruct tr2 as [|z tr2 _] using rev_ind.
  - apply (app_inj_tail tr tr1) in H as [-> ->]. done.
  - rewrite app_comm_cons, app_assoc in H.
    apply app_inj_tail in H as [-> _]. by eapply Htr.
Qed.

Lemma preceded_app J tr l :
  preceded J tr → (∀ tr', Forall (J tr') l) → preceded J (tr ++ l).
Proof.
  intros Htr Hl. induction l as [|y l IH] using rev_ind.
  - by rewrite app_nil_r.
  - rewrite app_assoc. apply preceded_snoc.
    + apply IH. intros tr'. specialize (Hl tr').
      by apply Forall_app in Hl as [? _].
    + specialize (Hl (tr ++ l)). apply Forall_app in Hl as [_ Hy].
      by apply Forall_cons in Hy as [? _].
Qed.

#[global] Instance ingest_rely_refl : Reflexive ingest_rely.
Proof. intros w. split_and!; [done| |done]. by intros r x. Qed.

#[global] Instance ingest_rely_trans : Transitive ingest_rely.
Proof.
  intros w1 w2 w3 (H1 & H2 & H3) (H4 & H5 & H6).
  split_and!; [by etrans| |by etrans].
  intros r x Hx. by apply H5, H2.
Qed.

Lemma handle_basic_sets_grow env {X} (e : event X) w :
  sets_grow w (handle_basic env e w).2.
Proof.
  intros r x.
  destruct e; cbn; try done; repeat case_match; cbn; try done.
  - destruct (decide (r < length (sets w))%nat) as [Hr|Hr].
    + by rewrite lookup_app_l.
    + rewrite (lookup_ge_None_2 (sets w)) by lia. cbn. set_solver.
  - destruct (decide (r0 = r)) as [->|Hne].
    + rewrite list_lookup_alter_eq. destruct (sets w !! r); cbn; [set_solver|done].
    + by rewrite list_lookup_alter_ne.
Qed.

Lemma handle_basic_ingest_rely env {X} (e : event X) w :
  not_delete e → ingest_rely w (handle_basic env e w).2.
Proof.
  intros He.
  split_and!; [apply handle_basic_trace|apply handle_basic_sets_grow|].
  destruct e; try done; cbn; repeat case_match; cbn; subst; try done.
  destruct url; cbn; [by apply prefix_app_r|done].
Qed.

Lemma count_address_prefix a (s s' : store) :
  s `prefix_of` s' → (count_address a s ≤ count_address a s')%nat.
Proof. intros [l ->]. rewrite count_address_app. lia. Qed.

Lemma count_address_none a (l : store) :
  Forall (λ it, has_address a it.2 = false) l → count_address a l = 0%nat.
Proof.
  unfold count_address. induction 1 as [|it l Hit _ IH]; [done|].
  rewrite filter_cons_False; [done|]. rewrite Hit. by intros [].
Qed.

Lemma has_address_proxy_data a b t1 t2 :
  has_address a (proxy_data b t1 t2) = bool_decide (b = a).
Proof. done. Qed.

Lemma handle_basic_none env {X} (e : event X) w :
  (handle_basic env e w).1 = None → (handle_basic env e w).2 = w.
Proof. destruct e; cbn; repeat case_match; cbn; done. Qed.

Section Validation.
Context (env : Env) (w0 wg : World) (existing : ref) (cands : list str).
Hypothesis origin : trace w0 `prefix_of` trace wg.

Let Q := ingest_guar env w0 wg existing cands.
Let Inv := ingest_inv env w0 wg existing cands.

Lemma ingest_guar_rely X (e : event X) w :
  Q w X e → ingest_rely w (handle_basic env e w).2.
Proof.
  intros HQ. apply handle_basic_ingest_rely. by destruct e.
Qed.

Lemma ingest_inv_step X (e : event X) w :
  Inv w → Q w X e → Inv (handle_basic env e w).2.
Proof.
  intros (H1 & H2 & H3) HQ.
  destruct (handle_basic env e w).1 as [x|] eqn:Hx.
  2: { by rewrite handle_basic_none. }
  pose proof (handle_basic_io env e w x Hx) as Ht.
  split_and!; [etrans; [done|apply handle_basic_trace]| |].
  - rewrite (since_snoc w0 w _ _ H1 Ht).
    destruct e; cbn [io_of]; rewrite ?app_nil_r; try done;
      apply preceded_snoc; done.
  - intros Hs b Hb.
    pose proof (ingest_guar_rely _ e w HQ) as (_ & _ & Hp).
    apply (Nat.lt_le_trans _ (count_address b (working w)));
      [|by apply count_address_prefix].
    assert (known existing b w ∨ (0 < count_address b (working w))%nat)
      as [Hk|Hk]; [|by apply H3|done].
    clear Hp Ht. unfold known, ref in *. unfold Q in HQ.
    destruct e; cbn in HQ, Hb, Hx; try done;
      try (left; revert Hb; by repeat case_match).
    destruct (decide (r = existing)) as [->|Hne].
    + rewrite list_lookup_alter_eq in Hb.
      destruct (sets w !! existing) as [s|] eqn:Hl; cbn in Hb;
        [|by apply not_elem_of_empty in Hb].
      apply elem_of_union in Hb as [Hb|Hb]; [|by left].
      apply elem_of_singleton in Hb. right. by eapply HQ.
    + rewrite list_lookup_alter_ne in Hb by done. by left.
Qed.

Lemma count_stable a :
  stable_under ingest_rely
    (λ w, serving env → (0 < count_address a (working w))%nat).
Proof.
  intros w w' (_ & _ & Hp) H Hs.
  eapply Nat.lt_le_trans; [by apply H|by apply count_address_prefix].
Qed.

Lemma rely_stable : stable_under ingest_rely (ingest_rely wg).
Proof. intros w w' H1 H2. by etrans. Qed.

Lemma const_stable (P : Prop) : stable_under ingest_rely (λ _, P).
Proof. by intros w w' _. Qed.

(** The end of every path of a validation task. *)
Lemma release_respects a (K : World → Prop) w :
  stable_under ingest_rely K → K w → (∀ w1, K w1 → stored env a w1) →
  respects env ingest_rely Inv Q (stored env a) w
    (Vis SemRelease (λ _, Ret ())).
Proof.
  intros HK Hw HF.
  apply (respects_skip env ingest_rely Inv Q _ ingest_guar_rely K);
    [done..|].
  intros _ w' Hw'.
  apply (respects_ret env ingest_rely Inv Q _ K); [done..|].
  intros w1 H1 _. by apply HF.
Qed.

Lemma post_stored a t1 t2 w :
  serving env →
  (0 < count_address a
         (working (handle_basic env
                     (HttpPost FIREBASE_BASE_URL (proxy_data a t1 t2)) w).2))%nat.
Proof.
  intros Hs. cbn. rewrite Hs. cbn. unfold store_insert.
  rewrite count_address_app, count_address_singleton.
  rewrite has_address_proxy_data, bool_decide_eq_true_2 by done. lia.
Qed.

Lemma validate_and_add_respects p w :
  strip p ∈ cands → ingest_rely wg w →
  respects env ingest_rely Inv Q (stored env (strip p)) w
    (validate_and_add p existing).
Proof.
  intros Hc Hw.
  unfold validate_and_add, with_semaphore, with_lock, finally, is_proxy_alive.
  set (a := strip p) in *.
  pose (R := respects env ingest_rely Inv Q (stored env a)).
  set (K3 := λ w : World, serving env → (0 < count_address a (working w))%nat).
  assert (∀ w1, K3 w1 → stored env a w1) as HK3 by (intros w1 H ???; by apply H).
  cbn -[handle_basic respects].
  (* the permit *)
  apply (respects_skip env _ _ _ _ ingest_guar_rely (ingest_rely wg));
    [apply rely_stable|done|done|]. intros ? w1 Hw1; cbn -[handle_basic respects].
  case_bool_decide as Ha; cbn -[handle_basic respects].
  { apply (release_respects a (λ _, a = [])); [apply const_stable|done|].
    intros w' -> _ Hne. done. }
  (* the membership test, under the lock *)
  apply (respects_skip env _ _ _ _ ingest_guar_rely (ingest_rely wg));
    [apply rely_stable|done|done|]. intros ? w2 Hw2; cbn -[handle_basic respects].
  apply (respects_vis env _ _ _ _ (ingest_rely wg)
           (λ (kn : bool) w', if kn then K3 w'
                              else ingest_rely wg w' ∧ ¬ known existing a w'));
    [apply rely_stable|done|done| |].
  { intros w3 kn Hw3 (_ & _ & Hks) [= <-]. cbn [handle_basic snd].
    case_bool_decide as Hk; [|done]. intros Hs. by apply Hks. }
  intros [] w3 Hw3; cbn -[handle_basic respects].
  { (* known: nothing to do *)
    apply (respects_skip env _ _ _ _ ingest_guar_rely K3);
      [apply count_stable|done|done|]. intros ? w4 Hw4; cbn -[handle_basic respects].
    by apply (release_respects a K3); [apply count_stable|..]. }
  destruct Hw3 as [Hw3 Hnk].
  apply (respects_skip env _ _ _ _ ingest_guar_rely (ingest_rely wg));
    [apply rely_stable|done|done|]. intros ? w4 Hw4; cbn -[handle_basic respects].
  (* the probe *)
  set (K2 := λ (n : nat) (w' : World),
         trace w0 `prefix_of` trace w' ∧
         IoProbe (PStr a) (probe_reply env n (PStr a)) ∈ since w0 w').
  assert (∀ n, stable_under ingest_rely (K2 n)) as HK2.
  { intros n w' w'' (Hp & _) [H1 H2]. split; [by etrans|].
    by eapply since_mono. }
  apply (respects_vis env _ _ _ _ (ingest_rely wg)
           (λ (rp : reply) w', ∃ n, rp = probe_reply env n (PStr a) ∧ K2 n w'));
    [apply rely_stable|done|done| |].
  { intros w5 rp Hw5 _ Hrp.
    assert (trace w0 `prefix_of` trace w5) as Ho5.
    { etrans; [done|]. apply Hw5. }
    pose proof (handle_basic_io env _ _ _ Hrp) as Ht5. cbn [io_of] in Ht5.
    exists (tick w5). cbn in Hrp. injection Hrp as <-.
    split; [done|]. split.
    - etrans; [done|]. apply handle_basic_trace.
    - rewrite (since_snoc w0 w5 _ _ Ho5 Ht5). apply elem_of_app. right.
      apply list_elem_of_here. }
  intros rp w5 (n & -> & Hw5).
  assert (alive (probe_reply env n (PStr a)) = false →
          R w5 (Vis SemRelease (λ _, Ret ()))) as Hdead.
  { intros Hal.
    apply (release_respects a (λ _, alive (probe_reply env n (PStr a)) = false));
      [apply const_stable|done|].
    intros w' Hal' _ _ Hlive. specialize (Hlive n). congruence. }
  destruct (probe_reply env n (PStr a)) as [e|xp] eqn:Hrp;
    cbn -[handle_basic respects]; [by apply Hdead|].
  destruct (status xp =? 200) eqn:Hst; cbn -[handle_basic respects];
    [|by apply Hdead].
  (* the two readings of the clock *)
  apply (respects_skip env _ _ _ _ ingest_guar_rely (K2 n));
    [apply HK2|done|done|]. intros t1 w6 Hw6.
  apply (respects_skip env _ _ _ _ ingest_guar_rely (K2 n));
    [apply HK2|done|done|]. intros t2 w7 Hw7.
  (* the insert *)
  apply (respects_vis env _ _ _ _ (K2 n) (λ (_ : reply) w', K3 w'));
    [apply HK2|done| | |].
  { intros w8 [_ Hin] _. split; [done|].
    exists a, t1, t2, n, w3. split_and!; try done. by rewrite Hrp. }
  { intros w8 rf _ _ _ Hs. by apply post_stored. }
  intros rf w8 Hw8.
  assert (∀ w', K3 w' → R w' (Vis SemRelease (λ _, Ret ()))) as Hrel.
  { intros w' Hw'. by apply (release_respects a K3); [apply count_stable|..]. }
  destruct rf as [e|x']; cbn -[handle_basic respects].
  { apply (respects_skip env _ _ _ _ ingest_guar_rely K3);
      [apply count_stable|done|done|]. intros ? w9 Hw9; cbn -[handle_basic respects]. by apply Hrel. }
  destruct (status x' =? 200); cbn -[handle_basic respects]; [|by apply Hrel].
  apply (respects_skip env _ _ _ _ ingest_guar_rely K3);
    [apply count_stable|done|done|]. intros ? w9 Hw9; cbn -[handle_basic respects].
  apply (respects_skip env _ _ _ _ ingest_guar_rely K3);
    [apply count_stable|done|done|]. intros ? w10 Hw10; cbn -[handle_basic respects].
  apply (respects_skip env _ _ _ _ ingest_guar_rely K3);
    [apply count_stable|done| |].
  { intros w11 H11 _ Hs _ b [= <-]. by apply H11. }
  intros ? w11 Hw11; cbn -[handle_basic respects].
  apply (respects_skip env _ _ _ _ ingest_guar_rely K3);
    [apply count_stable|done|done|]. intros ? w12 Hw12; cbn -[handle_basic respects].
  by apply Hrel.
Qed.
End Validation.

Lemma io_justified_other env wg existing cands l :
  (∀ c data r, IoPost c data r ∉ l) →
  ∀ tr', Forall (io_justified env wg existing cands tr') l.
Proof.
  intros Hl tr'. apply Forall_forall. intros y Hy.
  destruct y; try done. by destruct (Hl _ _ _ Hy).
Qed.

(** One ingestion cycle, up to its gather. *)
Lemma fetch_cycle_unfold env sched w x body S w3 :
  bulk_reply env (tick w) = Resp x → status x = 200 → text x = Some body →
  exec env sched (get_existing_proxies FIREBASE_BASE_URL)
    (record (IoLog INFO "API provided proxies. Validating...")
       (advance (record (IoBulk (Resp x)) w))) = (Done S, w3) →
  let existing := length (sets w3) in
  let wg := set_sets (sets w3 ++ [S]) w3 in
  let tasks := validation_tasks body existing in
  let c := run_pool env (sched (length tasks)) (task_body <$> tasks, wg) in
  exec env sched fetch_and_store_cycle w =
  match gather_result c.1 with
  | Some None =>
      (Done (), record (IoSleep FETCH_INTERVAL)
                  (record (IoLog INFO "Fetch & Validation cycle complete.") c.2))
  | Some (Some e) =>
      (Done (), record (IoSleep FETCH_INTERVAL)
                  (record (IoLog ERROR "Fetcher loop error") c.2))
  | None => (Pending, c.2)
  end.
Proof.
  intros Hb Hs Ht HS existing wg tasks c.
  unfold fetch_and_store_cycle.
  rewrite exec_bind, exec_try_except, exec_bind, exec_request.
  cbn [handle handle_basic]. rewrite Hb, Hs. cbn [Z.eqb Pos.eqb].
  rewrite exec_bind. unfold read_text. rewrite Ht. cbn [exec].
  rewrite exec_bind. cbn [log trigger exec handle handle_basic].
  rewrite exec_bind, HS. rewrite exec_bind.
  cbn [trigger exec handle handle_basic]. rewrite exec_bind.
  fold existing. fold wg. unfold gather.
  change ((λ p, ValidateAndAdd p existing) <$> split 10 (strip body))
    with tasks.
  cbn [trigger mbind prog_bind bind exec handle]. fold c.
  destruct (gather_result c.1) as [[e|]|]; cbn; done.
Qed.

Lemma validation_tasks_respects env w0 wg body existing :
  trace w0 `prefix_of` trace wg →
  Forall2
    (λ F p, respects env ingest_rely
              (ingest_inv env w0 wg existing (strip <$> split 10 (strip body)))
              (ingest_guar env w0 wg existing (strip <$> split 10 (strip body)))
              F wg p)
    (task_stored env <$> validation_tasks body existing)
    (task_body <$> validation_tasks body existing).
Proof.
  intros H0. apply Forall2_fmap, Forall_Forall2_diag, Forall_forall.
  intros t [p [-> Hp]]%list_elem_of_fmap. cbn [task_stored task_body].
  apply validate_and_add_respects; [done| |done].
  by apply list_elem_of_fmap_2.
Qed.

Lemma addresses_sound vals S :
  addresses vals = Ret S →
  ∀ h, h ∈ S → ∃ v p, v ∈ vals ∧ get v (u "address") PNone = inr p ∧
                       truthy p = true ∧ hash p = inr h.
Proof.
  revert S. induction vals as [|v vals IH]; intros S; cbn [addresses].
  { intros [= <-] h Hh. by apply not_elem_of_empty in Hh. }
  destruct (get v (u "address") PNone) as [e|p] eqn:Hg; cbn; [done|].
  destruct (truthy p) eqn:Ht.
  - destruct (hash p) as [e|h'] eqn:Hh; cbn; [done|].
    destruct (addresses_pure vals) as [[S' HS']|[e He]]; rewrite ?HS', ?He in *;
      cbn; [|done].
    intros [= <-] h [->%elem_of_singleton|Hin]%elem_of_union.
    + exists v, p. split; [apply list_elem_of_here|done].
    + destruct (IH S' eq_refl h Hin) as (v' & p' & ? & ?).
      exists v', p'. split; [by apply list_elem_of_further|done].
  - intros HS h Hin. destruct (IH S HS h Hin) as (v' & p' & ? & ?).
    exists v', p'. split; [by apply list_elem_of_further|done].
Qed.

(** A served read of a collection gives only addresses that it holds,
    readable or not, and changes no collection and no set. *)
Lemma exec_get_existing_sound env sched url w S w' :
  store_fault env (tick w) = None →
  exec env sched (get_existing_proxies url) w = (Done S, w') →
  (∀ b, HStr b ∈ S → (0 < count_address b (coll url w))%nat) ∧
  working w' = working w ∧ sets w' = sets w ∧
  permits w' = permits w ∧ locked w' = locked w.
Proof.
  intros Hf. unfold get_existing_proxies.
  rewrite exec_try_except, exec_bind, exec_request.
  cbn [handle handle_basic]. rewrite Hf. cbn [ok status Z.eqb Pos.eqb].
  rewrite exec_bind. cbn [read_json json exec].
  destruct (coll url w) as [|it its] eqn:Hc; cbn [store_json truthy exec].
  { intros [= <- <-]. split; [|done]. intros b Hb.
    by apply not_elem_of_empty in Hb. }
  rewrite exec_bind. cbn [lift items exec].
  destruct (addresses_pure (it :: its).*2) as [[S' HS']|[e He]].
  - rewrite HS'. cbn. intros [= <- <-]. split; [|done]. intros b Hb.
    destruct (addresses_sound _ _ HS' _ Hb) as (v & p & Hv & Hg & _ & Hh).
    apply hash_str in Hh as ->.
    apply list_elem_of_fmap in Hv as (it' & -> & Hin).
    apply count_address_pos. exists it'. split; [done|].
    by apply has_address_spec.
  - rewrite He. cbn. intros [= <- <-]. split; [|done]. intros b Hb.
    by apply not_elem_of_empty in Hb.
Qed.

(** The gather of an ingestion cycle whose bulk source gave [body]: what
    the pool keeps and what each task has achieved, at the end of the
    schedule. *)
Lemma fetch_cycle_pool env sched w x body S w3 :
  bulk_reply env (tick w) = Resp x → status x = 200 →
  text x = Some body →
  exec env sched (get_existing_proxies FIREBASE_BASE_URL)
    (record (IoLog INFO "API provided proxies. Validating...")
       (advance (record (IoBulk (Resp x)) w))) = (Done S, w3) →
  let existing := length (sets w3) in
  let wg := set_sets (sets w3 ++ [S]) w3 in
  let tasks := validation_tasks body existing in
  let cands := strip <$> split 10 (strip body) in
  let c := run_pool env (sched (length tasks)) (task_body <$> tasks, wg) in
  Forall2
    (λ F p, respects env ingest_rely (ingest_inv env w wg existing cands)
              (ingest_guar env w wg existing cands) F c.2 p)
    (task_stored env <$> tasks) c.1 ∧
  ingest_inv env w wg existing cands c.2.
Proof.
  intros Hb Hs Ht HS existing wg tasks cands c.
  set (w2 := record _ (advance (record _ w))) in HS.
  pose proof (exec_no_post env sched (λ _ _, False)
                (get_existing_proxies FIREBASE_BASE_URL) w2
                (no_post_get_existing_proxies _)) as [Hp3 Hno3].
  rewrite HS in Hp3, Hno3. cbn [snd] in Hp3, Hno3.
  assert (ingest_inv env w wg existing cands wg) as Hinv.
  { destruct Hp3 as [l3 Hl3].
    assert (trace wg = trace w ++ [IoBulk (Resp x);
              IoLog INFO "API provided proxies. Validating..."] ++ l3) as Hl.
    { unfold wg. cbn. rewrite Hl3. unfold w2. cbn. by rewrite <- !app_assoc. }
    split_and!.
    - by eexists.
    - rewrite (since_app _ _ _ Hl).
      apply (preceded_app _ []); [apply preceded_nil|].
      apply io_justified_other.
      intros c0 d r Hin. cbn in Hin.
      apply elem_of_cons in Hin as [?|Hin]; [done|].
      apply elem_of_cons in Hin as [?|Hin]; [done|].
      eapply Hno3. erewrite since_app; done.
    - intros Hsv b Hk. unfold known, wg in Hk. cbn in Hk.
      unfold existing, ref in Hk. rewrite lookup_app_r in Hk by done.
      rewrite Nat.sub_diag in Hk. cbn in Hk.
      destruct (exec_get_existing_sound env sched _ w2 S w3 (Hsv _) HS)
        as (Hsound & Hw & _).
      unfold wg. cbn. rewrite Hw. by apply Hsound. }
  destruct (run_pool_respects env ingest_rely
              (ingest_inv env w wg existing cands)
              (ingest_guar env w wg existing cands)
              (ingest_guar_rely env w wg existing cands)
              (ingest_inv_step env w wg existing cands)
              (task_stored env <$> tasks)
              (sched (length tasks)) (task_body <$> tasks, wg))
    as (H1 & _ & H2); [|done|done].
  apply validation_tasks_respects, Hinv.
Qed.

(** What one ingestion cycle keeps, whatever the schedule: every insert
    is justified. *)
Lemma fetch_cycle_inv env sched w :
  let g := gather_start env sched w in
  let w' := (exec env sched fetch_and_store_cycle w).2 in
  trace w `prefix_of` trace w' ∧
  preceded (io_justified env g.1 g.2 (candidates env w)) (since w w').
Proof.
  intros g w'. subst w'.
  assert (∀ w' l, trace w' = trace w ++ l →
            (∀ c data r, IoPost c data r ∉ l) →
            trace w `prefix_of` trace w' ∧
            preceded (io_justified env g.1 g.2 (candidates env w)) (since w w'))
    as Hquiet.
  { intros w' l Hl Hno. split; [by exists l|].
    rewrite (since_app w w' l Hl).
    apply (preceded_app _ [] l); [apply preceded_nil|].
    by apply io_justified_other. }
  destruct (bulk_reply env (tick w)) as [e|x] eqn:Hb.
  { unfold fetch_and_store_cycle. cbn -[trace since]. rewrite Hb. cbn -[trace since].
    eapply Hquiet; [cbn; rewrite <- ?app_assoc; reflexivity|].
    intros c d r Hin. by mem_inv Hin. }
  destruct (decide (status x = 200)) as [Hs|Hs].
  2: { unfold fetch_and_store_cycle. cbn -[trace since]. rewrite Hb. cbn -[trace since].
       apply Z.eqb_neq in Hs. rewrite Hs. cbn -[trace since].
       eapply Hquiet; [cbn; rewrite <- ?app_assoc; reflexivity|].
       intros c d r Hin. by mem_inv Hin. }
  destruct (text x) as [body|] eqn:Ht.
  2: { unfold fetch_and_store_cycle. cbn -[trace since]. rewrite Hb. cbn -[trace since].
       rewrite Hs. cbn -[trace since]. unfold read_text. rewrite Ht. cbn -[trace since].
       eapply Hquiet; [cbn; rewrite <- ?app_assoc; reflexivity|].
       intros c d r Hin. by mem_inv Hin. }
  clear Hquiet.
  set (w2 := record (IoLog INFO "API provided proxies. Validating...")
               (advance (record (IoBulk (Resp x)) w))).
  destruct (exec_get_existing_proxies env sched FIREBASE_BASE_URL w2)
    as (S & HS & _).
  destruct (exec env sched (get_existing_proxies FIREBASE_BASE_URL) w2)
    as [o w3] eqn:He. cbn [fst snd] in *. subst o.
  assert (g = (set_sets (sets w3 ++ [S]) w3, length (sets w3))) as ->.
  { unfold g, gather_start. rewrite Hb. fold w2. by rewrite He. }
  assert (candidates env w = strip <$> split 10 (strip body)) as ->.
  { unfold candidates. by rewrite Hb, Ht. }
  rewrite (fetch_cycle_unfold env sched w x body S w3 Hb Hs Ht He).
  destruct (fetch_cycle_pool env sched w x body S w3 Hb Hs Ht He)
    as (_ & H1 & H2 & _).
  cbn [fst snd].
  set (c := run_pool _ _ _) in *.
  destruct (gather_result c.1) as [[e|]|]; cbn [snd]; [| |done].
  - split; [etrans; [done|]; cbn; by eexists (_ :: _ :: nil); rewrite <- app_assoc|].
    erewrite since_snoc; [|done|cbn; rewrite <- app_assoc; reflexivity].
    apply preceded_app; [done|]. intros tr'. by repeat constructor.
  - split; [etrans; [done|]; cbn; by eexists (_ :: _ :: nil); rewrite <- app_assoc|].
    erewrite since_snoc; [|done|cbn; rewrite <- app_assoc; reflexivity].
    apply preceded_app; [done|]. intros tr'. by repeat constructor.
Qed.

(** X7. Under every schedule and environment, every insert request of an
    ingestion cycle goes to the working set, inserts a candidate of the
    bulk list, and comes after a probe of that very address, made in the
    same cycle, that the proxy answered with status 200: no interleaving
    of the validation tasks lets an address in without its own successful
    probe. *)
Theorem insert_follows_live_probe env sched w :
  let w' := (exec env sched fetch_and_store_cycle w).2 in
  ∀ tr1 tr2 c data r,
    since w w' = tr1 ++ IoPost c data r :: tr2 →
    c = Working ∧
    ∃ a t1 t2 n,
      data = proxy_data a t1 t2 ∧ a ∈ candidates env w ∧
      IoProbe (PStr a) (probe_reply env n (PStr a)) ∈ tr1 ∧
      alive (probe_reply env n (PStr a)) = true.
Proof.
  intros w' tr1 tr2 c data r Hs.
  destruct (fetch_cycle_inv env sched w) as [_ H].
  destruct (H _ _ _ Hs) as (-> & a & t1 & t2 & n & _ & -> & ? & ? & ? & _).
  split; [done|]. by exists a, t1, t2, n.
Qed.

Lemma insert_follows_live_probe_witness :
  let w := empty_world in
  let w' := (exec demo_env round_robin fetch_and_store_cycle w).2 in
  let tr1 := take 5 (since w w') in
  let data := proxy_data some_addr 103 104 in
  let r := ok (PDict [(u "name", PStr (key_of 0))]) in
  since w w' = tr1 ++ IoPost Working data r :: drop 6 (since w w') ∧
  Working = Working ∧
  ∃ a t1 t2 n,
    data = proxy_data a t1 t2 ∧ a ∈ candidates demo_env w ∧
    IoProbe (PStr a) (probe_reply demo_env n (PStr a)) ∈ tr1 ∧
    alive (probe_reply demo_env n (PStr a)) = true.
Proof.
  intros w w' tr1 data r.
  assert (since w w' = tr1 ++ IoPost Working data r :: drop 6 (since w w'))
    as H by (by vm_compute).
  split; [exact H|].
  exact (insert_follows_live_probe demo_env round_robin w tr1
           (drop 6 (since w w')) Working data r H).
Defined.

(** ** Eviction: the tasks of a cycle, interleaved *)

#[global] Instance evict_rely_refl : Reflexive evict_rely.
Proof. intros w. by split. Qed.

#[global] Instance evict_rely_trans : Transitive evict_rely.
Proof.
  intros w1 w2 w3 [H1 H2] [H3 H4]. split; by etrans.
Qed.

Section Checks.
Context (env : Env) (w0 : World) (tasks : list task).

Lemma evict_guar_rely X (e : event X) w :
  evict_guar env w0 tasks w X e → evict_rely w (handle_basic env e w).2.
Proof.
  intros HQ. split; [apply handle_basic_trace|].
  destruct e; cbn in *; try done; repeat case_match; cbn; try done.
  destruct HQ as [-> _]. cbn. apply sublist_filter.
Qed.

Lemma evict_inv_step X (e : event X) w :
  evict_inv env w0 tasks w → evict_guar env w0 tasks w X e →
  evict_inv env w0 tasks (handle_basic env e w).2.
Proof.
  intros [H1 H2] HQ.
  destruct (handle_basic env e w).1 as [x|] eqn:Hx.
  2: { by rewrite handle_basic_none. }
  pose proof (handle_basic_io env e w x Hx) as Ht.
  split; [etrans; [done|apply handle_basic_trace]|].
  rewrite (since_snoc w0 w _ _ H1 Ht).
  destruct e; cbn [io_of]; rewrite ?app_nil_r; try done;
    apply preceded_snoc; done.
Qed.

Lemma gone_stable key :
  stable_under evict_rely (λ w, serving env → key ∉ (working w).*1).
Proof.
  intros w w' [_ Hs] H Hserv Hin. apply (H Hserv).
  apply list_elem_of_fmap in Hin as (it & -> & Hit).
  apply list_elem_of_fmap. exists it. split; [done|].
  by eapply elem_of_sublist.
Qed.

Lemma evict_const_stable (P : Prop) : stable_under evict_rely (λ _, P).
Proof. by intros w w' _. Qed.

Lemma check_and_delete_respects key a w :
  trace w0 `prefix_of` trace w →
  CheckAndDelete key a ∈ tasks →
  respects env evict_rely (evict_inv env w0 tasks) (evict_guar env w0 tasks)
    (evicted env key a) w (check_and_delete key a).
Proof.
  intros Hw Hin.
  unfold check_and_delete, with_semaphore, finally, is_proxy_alive.
  pose (R := respects env evict_rely (evict_inv env w0 tasks)
               (evict_guar env w0 tasks) (evicted env key a)).
  assert (∀ (K : World → Prop) w',
            stable_under evict_rely K → K w' →
            (∀ w1, K w1 → evicted env key a w1) →
            R w' (Vis SemRelease (λ _, Ret ()))) as Hrel.
  { intros K w' HK Hw' HF.
    apply (respects_skip env _ _ _ _ evict_guar_rely K); [done..|].
    intros _ w'' Hw''.
    apply (respects_ret env evict_rely _ _ _ K); [done..|].
    intros w1 H1 _. by apply HF. }
  set (K0 := λ w' : World, trace w0 `prefix_of` trace w').
  assert (stable_under evict_rely K0) as HK0.
  { intros w1 w2 [Hp _] H. unfold K0. by etrans. }
  cbn -[handle_basic respects].
  (* the permit *)
  apply (respects_skip env _ _ _ _ evict_guar_rely K0); [done..|].
  intros ? w1 Hw1; cbn -[handle_basic respects].
  (* the probe *)
  set (K2 := λ (n : nat) (w' : World),
         trace w0 `prefix_of` trace w' ∧
         IoProbe a (probe_reply env n a) ∈ since w0 w').
  assert (∀ n, stable_under evict_rely (K2 n)) as HK2.
  { intros n w' w'' [Hp _] [H1 H2]. split; [by etrans|].
    by eapply since_mono. }
  apply (respects_vis env _ _ _ _ K0
           (λ (rp : reply) w', ∃ n, rp = probe_reply env n a ∧ K2 n w'));
    [done..| |].
  { intros w2 rp Hw2 _ Hrp.
    pose proof (handle_basic_io env _ _ _ Hrp) as Ht2. cbn [io_of] in Ht2.
    exists (tick w2). cbn in Hrp. injection Hrp as <-.
    split; [done|]. split.
    - etrans; [done|]. apply handle_basic_trace.
    - rewrite (since_snoc w0 w2 _ _ Hw2 Ht2). apply elem_of_app. right.
      apply list_elem_of_here. }
  intros rp w2 (n & -> & Hw2).
  set (K3 := λ w' : World, serving env → key ∉ (working w').*1).
  assert (∀ w', K3 w' → evicted env key a w') as HK3
    by (intros w' H ??; by apply H).
  assert (alive (probe_reply env n a) = true →
          R w2 (Vis SemRelease (λ _, Ret ()))) as Hlive.
  { intros Hal.
    apply (Hrel (λ _, alive (probe_reply env n a) = true));
      [apply evict_const_stable|done|].
    intros w' Hal' _ Hdead. specialize (Hdead n). congruence. }
  (* the delete, after a failed probe *)
  assert (alive (probe_reply env n a) = false →
          ∀ k : reply → prog (),
            (∀ rd w', K3 w' → R w' (k rd)) →
            R w2 (Vis (HttpDelete FIREBASE_BASE_URL key) k)) as Hdel.
  { intros Hal k Hk.
    apply (respects_vis env _ _ _ _ (K2 n) (λ (_ : reply) w', K3 w'));
      [apply HK2|done| | |done].
    - intros w3 [_ Hpr] _. split; [done|]. by exists a, n.
    - intros w3 rd _ _ _ Hserv. cbn. rewrite Hserv. cbn.
      unfold store_delete. rewrite list_elem_of_fmap.
      intros ([k' v'] & -> & [Hne _]%list_elem_of_filter). by apply Hne. }
  destruct (probe_reply env n a) as [e|xp] eqn:Hrp;
    cbn -[handle_basic respects].
  2: destruct (status xp =? 200) eqn:Hst; cbn -[handle_basic respects];
       [by apply Hlive|].
  all: apply Hdel; [done|]; intros [e'|x'] w3 Hw3;
    cbn -[handle_basic respects].
  all: try destruct (status x' =? 200); cbn -[handle_basic respects].
  all: try (by apply (Hrel K3); [apply gone_stable|..]).
  all: apply (respects_skip env _ _ _ _ evict_guar_rely K3);
    [apply gone_stable|done|done|];
    intros ? w4 Hw4; cbn -[handle_basic respects];
    by apply (Hrel K3); [apply gone_stable|..].
Qed.
End Checks.

Lemma cleanup_tasks_ret its tasks :
  cleanup_tasks its = Ret tasks →
  Forall (λ t, ∃ k a, t = CheckAndDelete k a) tasks ∧
  ∀ k a, CheckAndDelete k a ∈ tasks ↔
         ∃ v, (k, v) ∈ its ∧ get v (u "address") PNone = inr a ∧
              truthy a = true.
Proof.
  revert tasks. induction its as [|[k v] its IH]; intros tasks; cbn [cleanup_tasks].
  { intros [= <-]. split; [done|]. intros k a. split.
    - by intros ?%elem_of_nil.
    - intros (v & Hin & _). by apply elem_of_nil in Hin. }
  destruct (get v (u "address") PNone) as [e|a] eqn:Hg; cbn; [done|].
  destruct (truthy a) eqn:Ha.
  - destruct (cleanup_tasks its) as [tasks'|e|X e k'] eqn:Ht; cbn; try done.
    intros [= <-]. destruct (IH _ eq_refl) as [IH1 IH2]. split.
    { apply Forall_cons. split; [by eexists _, _|done]. }
    intros k' a'. rewrite elem_of_cons, IH2. split.
    + intros [[= -> ->]|(v' & ? & ?)].
      * exists v. split; [apply list_elem_of_here|done].
      * exists v'. split; [by apply list_elem_of_further|done].
    + intros (v' & [[= -> ->]|Hin]%elem_of_cons & Hg' & Ha').
      * left. congruence.
      * right. by exists v'.
  - intros Ht. destruct (IH _ Ht) as [IH1 IH2]. split; [done|].
    intros k' a'. rewrite IH2. split.
    + intros (v' & ? & ?). exists v'. split; [by apply list_elem_of_further|done].
    + intros (v' & [[= -> ->]|Hin]%elem_of_cons & Hg' & Ha');
        [congruence|by exists v'].
Qed.

Lemma cleanup_tasks_objects its :
  objects its → ∃ tasks, cleanup_tasks its = Ret tasks.
Proof.
  unfold objects. induction its as [|[k v] its IH]; cbn [cleanup_tasks];
    [by eexists|].
  rewrite fmap_cons. intros [[d Hd] Hits]%Forall_cons. cbn in Hd. subst v.
  destruct (IH Hits) as [tasks Ht].
  cbn. destruct (truthy _); rewrite Ht; cbn; by eexists.
Qed.

Lemma exec_cleanup_cycle env sched w :
  exec env sched cleanup_cycle w
  = exec env sched (cleanup_rest (store_reply env FIREBASE_BASE_URL w))
      (advance (record (IoGet FIREBASE_BASE_URL
                          (store_reply env FIREBASE_BASE_URL w)) w)).
Proof. done. Qed.

(** One eviction cycle whose read gave the items [its], up to its
    gather. *)
Lemma cleanup_cycle_scan env sched w x it its tasks :
  store_reply env FIREBASE_BASE_URL w = Resp x →
  status x = 200 → json x = Some (PDict (it :: its)) →
  cleanup_tasks (it :: its) = Ret tasks →
  let wg := record (IoLog INFO "Scanning proxies in DB...")
              (advance (record (IoGet FIREBASE_BASE_URL (Resp x)) w)) in
  let c := run_pool env (sched (length tasks)) (task_body <$> tasks, wg) in
  exec env sched cleanup_cycle w =
  match gather_result c.1 with
  | Some None => (Done (), record (IoSleep CLEANUP_INTERVAL) c.2)
  | Some (Some e) =>
      (Done (), record (IoSleep CLEANUP_INTERVAL)
                  (record (IoLog ERROR "Cleanup loop error") c.2))
  | None => (Pending, c.2)
  end.
Proof.
  intros Hr Hs Hj Ht wg c.
  rewrite exec_cleanup_cycle, Hr. unfold cleanup_rest.
  rewrite exec_bind, exec_try_except. cbn [enter mbind prog_bind bind].
  rewrite Hs. cbn [Z.eqb Pos.eqb]. unfold read_json. rewrite Hj.
  cbn [bind truthy len lift items log trigger mbind prog_bind]. rewrite Ht.
  cbn [bind gather trigger mbind prog_bind exec handle handle_basic].
  fold wg. fold c.
  destruct (gather_result c.1) as [[e|]|]; cbn; done.
Qed.

Lemma cleanup_cycle_cases env sched w :
  let w' := (exec env sched cleanup_cycle w).2 in
  (∃ l, trace w' = trace w ++ l ∧ Forall io_quiet l ∧
        working w' = working w) ∨
  (∃ x it its tasks,
     store_reply env FIREBASE_BASE_URL w = Resp x ∧
     status x = 200 ∧ json x = Some (PDict (it :: its)) ∧
     cleanup_tasks (it :: its) = Ret tasks).
Proof.
  intros w'. subst w'. rewrite exec_cleanup_cycle.
  destruct (store_reply env FIREBASE_BASE_URL w) as [e|x] eqn:Hr.
  { left. cbn. eexists. split; [by rewrite <- !app_assoc|].
    split; [|done]. by repeat constructor. }
  destruct (decide (status x = 200)) as [Hs|Hs].
  2: { left. unfold cleanup_rest. cbn. apply Z.eqb_neq in Hs. rewrite Hs. cbn.
       eexists. split; [by rewrite <- !app_assoc|].
       split; [|done]. by repeat constructor. }
  destruct (json x) as [data|] eqn:Hj.
  2: { left. unfold cleanup_rest, read_json. cbn. rewrite Hs, Hj. cbn.
       eexists. split; [by rewrite <- !app_assoc|].
       split; [|done]. by repeat constructor. }
  assert (∀ p : prog (),
    all_events (with_tasks quiet_event) p →
    let w1 := advance (record (IoGet FIREBASE_BASE_URL (Resp x)) w) in
    let w' := (exec env sched
                 (try_except p (λ _, log ERROR "Cleanup loop error");;
                  trigger (Sleep CLEANUP_INTERVAL)) w1).2 in
    ∃ l, trace w' = trace w ++ l ∧ Forall io_quiet l ∧ working w' = working w)
    as Hquiet.
  { intros p Hp w1 w'.
    assert (keeps io_quiet eq eq w1 w') as ([l Hl] & Hq & Hw & _).
    { apply (exec_sat env quiet_event); try apply _.
      - intros X e w0 He. apply keeps_step; try apply _.
        + intros y. destruct e; try done; by repeat constructor.
        + destruct e; try done.
        + destruct e; try done.
      - apply all_events_bind; [|done].
        by apply all_events_try_except. }
    exists (IoGet FIREBASE_BASE_URL (Resp x) :: l). split_and!.
    - rewrite Hl. cbn. by rewrite <- app_assoc.
    - apply Forall_cons. split; [done|]. apply Forall_forall.
      rewrite (since_app w1 w' l Hl) in Hq. done.
    - by rewrite <- Hw. }
  destruct data as [|[]|z|[|c s]|[|v l]|[|it its]].
  10: { destruct (cleanup_tasks_pure (it :: its)) as [(tasks & Ht & _)|[e He]].
    + right. by exists x, it, its, tasks.
    + left. unfold cleanup_rest, read_json.
      cbn [enter mbind prog_bind bind]. rewrite Hs, Hj.
      cbn [Z.eqb Pos.eqb bind truthy len lift items log trigger mbind
           prog_bind]. rewrite He.
      apply Hquiet. cbn. by split. }
  all: left; unfold cleanup_rest, read_json;
    cbn [enter mbind prog_bind bind]; rewrite Hs, Hj;
    cbn [Z.eqb Pos.eqb bind];
    cbn [truthy bind len lift items log trigger mbind prog_bind];
    try destruct (z =? 0); cbn [negb bind];
    apply Hquiet; cbn; try done; by split.
Qed.

Lemma io_condemned_quiet env tasks l :
  Forall io_quiet l → ∀ tr', Forall (io_condemned env tasks tr') l.
Proof.
  intros Hl tr'. eapply Forall_impl; [done|]. by intros [].
Qed.

Lemma check_tasks_respects env w0 tasks wg :
  trace w0 `prefix_of` trace wg →
  Forall (λ t, ∃ k a, t = CheckAndDelete k a) tasks →
  Forall2 (λ F p, respects env evict_rely (evict_inv env w0 tasks)
              (evict_guar env w0 tasks) F wg p)
    (task_evicted env <$> tasks) (task_body <$> tasks).
Proof.
  intros H0 Ht. apply Forall2_fmap, Forall_Forall2_diag, Forall_forall.
  intros t Hin.
  destruct (proj1 (Forall_forall _ _) Ht t Hin) as (k & a & ->).
  cbn [task_evicted task_body]. by apply check_and_delete_respects.
Qed.

Lemma store_json_items s it its : store_json s = PDict (it :: its) → s = it :: its.
Proof. destruct s; cbn; [done|]. by intros [= <- <-]. Qed.

(** What one eviction cycle keeps, whatever the schedule: every delete
    is justified by a failed probe of a task of the cycle, and the tasks
    are those of the entries read. *)
Lemma cleanup_cycle_inv env sched w :
  ∃ tasks,
    evict_inv env w tasks (exec env sched cleanup_cycle w).2 ∧
    ∀ k a, CheckAndDelete k a ∈ tasks →
           truthy a = true ∧
           (store_fault env (tick w) = None →
            ∃ v, (k, v) ∈ working w ∧ get v (u "address") PNone = inr a).
Proof.
  destruct (cleanup_cycle_cases env sched w)
    as [(l & Hl & Hq & _)|(x & it & its & tasks & Hr & Hs & Hj & Ht)].
  { exists []. split; [|by intros k a ?%elem_of_nil].
    split; [by exists l|]. rewrite (since_app _ _ l Hl).
    apply (preceded_app _ [] l); [apply preceded_nil|].
    by apply io_condemned_quiet. }
  exists tasks. destruct (cleanup_tasks_ret _ _ Ht) as [Hshape Hmem]. split.
  2: { intros k a Hin. apply Hmem in Hin as (v & Hin & Hg & Ha).
       split; [done|]. intros Hf. exists v. split; [|done].
       unfold store_reply in Hr. rewrite Hf in Hr. injection Hr as <-.
       cbn in Hj. injection Hj as Hj. apply store_json_items in Hj.
       cbn in Hj. by rewrite Hj. }
  rewrite (cleanup_cycle_scan env sched w x it its tasks Hr Hs Hj Ht).
  set (wg := record _ (advance (record _ w))).
  assert (evict_inv env w tasks wg) as Hinv.
  { split; [unfold wg; cbn; by eexists [_; _]; rewrite <- ?app_assoc|].
    unfold wg. erewrite since_app by (cbn; rewrite <- ?app_assoc; reflexivity).
    apply (preceded_app _ [] [_; _]); [apply preceded_nil|].
    intros tr'. by repeat constructor. }
  destruct (run_pool_respects env evict_rely (evict_inv env w tasks)
              (evict_guar env w tasks)
              (evict_guar_rely env w tasks) (evict_inv_step env w tasks)
              (task_evicted env <$> tasks)
              (sched (length tasks)) (task_body <$> tasks, wg))
    as (_ & _ & [H1 H2]).
  { apply check_tasks_respects; [apply Hinv|done]. }
  { done. }
  set (c := run_pool env (sched (length tasks)) (task_body <$> tasks, wg)) in *.
  destruct (gather_result c.1) as [[e|]|]; cbn [snd]; [| |done].
  - split; [etrans; [done|]; cbn; by eexists [_; _]; rewrite <- ?app_assoc|].
    erewrite since_snoc; [|done|cbn; rewrite <- ?app_assoc; reflexivity].
    apply preceded_app; [done|]. intros tr'. by repeat constructor.
  - split; [etrans; [done|]; cbn; by eexists [_]|].
    erewrite since_snoc; [|done|cbn; reflexivity].
    apply preceded_app; [done|]. intros tr'. by repeat constructor.
Qed.

(** X15. Under every schedule and environment, every delete request of an
    eviction cycle goes to the working set and comes after a probe, made in
    the same cycle, that failed; the address probed is non-empty and, when
    the read of the working set was served, it is the address of the entry
    that is deleted. *)
Theorem delete_follows_failed_probe env sched w :
  let w' := (exec env sched cleanup_cycle w).2 in
  ∀ tr1 tr2 c key r,
    since w w' = tr1 ++ IoDelete c key r :: tr2 →
    c = Working ∧
    ∃ a n,
      IoProbe a (probe_reply env n a) ∈ tr1 ∧
      alive (probe_reply env n a) = false ∧
      truthy a = true ∧
      (store_fault env (tick w) = None →
       ∃ val, (key, val) ∈ working w ∧
              get val (u "address") PNone = inr a).
Proof.
  intros w' tr1 tr2 c key r Hs.
  destruct (cleanup_cycle_inv env sched w) as (tasks & [_ H] & Ht).
  destruct (H _ _ _ Hs) as (-> & a & n & Hin & ? & ?).
  split; [done|]. exists a, n. destruct (Ht _ _ Hin). done.
Qed.

Lemma delete_follows_failed_probe_witness :
  let w := aged_world in
  let w' := (exec dead_env round_robin cleanup_cycle w).2 in
  let tr1 := take 3 (since w w') in
  since w w' = tr1 ++ IoDelete Working old_key (ok PNone)
                 :: drop 4 (since w w') ∧
  Working = Working ∧
  ∃ a n,
    IoProbe a (probe_reply dead_env n a) ∈ tr1 ∧
    alive (probe_reply dead_env n a) = false ∧
    truthy a = true ∧
    (store_fault dead_env (tick w) = None →
     ∃ val, (old_key, val) ∈ working w ∧
            get val (u "address") PNone = inr a).
Proof.
  intros w w' tr1.
  assert (since w w' = tr1 ++ IoDelete Working old_key (ok PNone)
                         :: drop 4 (since w w'))
    as H by (by vm_compute).
  split; [exact H|].
  exact (delete_follows_failed_probe dead_env round_robin w tr1
           (drop 4 (since w w')) Working old_key (ok PNone) H).
Defined.

(** ** Eviction with a serving store *)

Lemma deleted_app l1 l2 : deleted (l1 ++ l2) = deleted l1 ++ deleted l2.
Proof.
  induction l1 as [|y l1 IH]; [done|].
  destruct y as [| | | |[] k r| |]; cbn; by rewrite ?IH.
Qed.

Lemma deleted_elem key tr :
  key ∈ deleted tr ↔ ∃ r, IoDelete Working key r ∈ tr.
Proof.
  induction tr as [|y tr IH].
  { split; [by intros ?%elem_of_nil|]. intros [r Hr]. by apply elem_of_nil in Hr. }
  split.
  - intros Hin.
    assert (key ∈ deleted tr → ∃ r, IoDelete Working key r ∈ y :: tr) as Hr.
    { intros [r' ?]%IH. exists r'. by apply list_elem_of_further. }
    destruct y as [| | | |c k r| |]; cbn in Hin; try by apply Hr.
    destruct c; [|by apply Hr].
    apply elem_of_cons in Hin as [->|Hin]; [|by apply Hr].
    exists r. apply list_elem_of_here.
  - intros [r' [<-|Hin]%elem_of_cons]; [apply list_elem_of_here|].
    assert (key ∈ deleted tr) as Hk by (apply IH; eauto).
    destruct y as [| | | |c k r| |]; cbn; try done.
    destruct c; [by apply list_elem_of_further|done].
Qed.

#[global] Instance deletes_applied_refl : Reflexive deletes_applied.
Proof.
  intros w. split; [done|]. rewrite since_refl by done. cbn.
  induction (working w) as [|it l IH]; [done|].
  rewrite filter_cons_True; [by f_equal|]. by intros ?%elem_of_nil.
Qed.

#[global] Instance deletes_applied_trans : Transitive deletes_applied.
Proof.
  intros w1 w2 w3 [H1 H2] [H3 H4]. split; [by etrans|].
  rewrite H4, H2, list_filter_filter, (since_trans w1 w2 w3 H1 H3), deleted_app.
  apply list_filter_iff. intros it. rewrite not_elem_of_app. tauto.
Qed.

Lemma handle_basic_deletes_applied env {X} (e : event X) w :
  serving env → removes_only X e →
  deletes_applied w (handle_basic env e w).2.
Proof.
  intros Hs He. split; [apply handle_basic_trace|].
  assert (∀ l : store, l = filter (λ it, it.1 ∉ deleted []) l) as Hid.
  { intros l. induction l as [|it l IH]; [done|].
    rewrite filter_cons_True; [by f_equal|]. by intros ?%elem_of_nil. }
  destruct e; try done; cbn in *; rewrite ?Hs; cbn; repeat case_match; cbn;
    try (rewrite since_refl by done; apply Hid);
    try (since_tac; apply Hid).
  subst url. cbn. since_tac. cbn. unfold store_delete.
  apply list_filter_iff. intros it. rewrite list_elem_of_singleton. done.
Qed.

Lemma cleanup_cycle_deletes_applied env sched w :
  serving env → deletes_applied w (exec env sched cleanup_cycle w).2.
Proof.
  intros Hs. apply (exec_sat env removes_only); try apply _.
  - intros. by apply handle_basic_deletes_applied.
  - apply cleanup_cycle_tasks; try done.
    intros k a _. apply check_and_delete_removes_only.
Qed.

Lemma round_robin_returns env tasks w :
  idle w →
  all_returned
    (run_pool env (round_robin (length tasks)) (task_body <$> tasks, w)).1.
Proof.
  intros Hw. unfold round_robin.
  destruct (pool_ok_start tasks w Hw) as [Hc Hb].
  destruct (rounds_complete env (task_steps * length tasks) _ _ Hc)
    as (ann' & Hc' & Hret); [lia|].
  cbn [fst] in Hret. by rewrite length_fmap in Hret.
Qed.

(** One eviction cycle under the round-robin schedule, with a serving
    store and a working set of objects: every task returns, having done
    its part. *)
Lemma cleanup_cycle_served env w :
  idle w → serving env → objects (working w) →
  ∃ tasks,
    (exec env round_robin cleanup_cycle w).1 = Done () ∧
    cleanup_tasks (working w) = Ret tasks ∧
    Forall (λ t, task_evicted env t (exec env round_robin cleanup_cycle w).2)
      tasks ∧
    evict_inv env w tasks (exec env round_robin cleanup_cycle w).2.
Proof.
  intros Hw Hs Hobj.
  destruct (cleanup_tasks_objects _ Hobj) as [tasks Ht]. exists tasks.
  destruct (working w) as [|it its] eqn:Hits.
  { cbn in Ht. injection Ht as <-.
    unfold cleanup_cycle. cbn. rewrite Hs. cbn. rewrite Hits. cbn.
    split_and!; try done.
    split; [cbn; by eexists [_; _; _]; rewrite <- ?app_assoc|].
    since_tac. apply (preceded_app _ [] [_; _; _]); [apply preceded_nil|].
    intros tr'. by repeat constructor. }
  assert (store_reply env FIREBASE_BASE_URL w
          = Resp {| status := 200; text := None;
                    json := Some (PDict (it :: its)) |}) as Hr.
  { unfold store_reply. rewrite Hs. cbn. by rewrite Hits. }
  rewrite (cleanup_cycle_scan env round_robin w _ it its tasks Hr eq_refl
             eq_refl Ht).
  set (wg := record _ (advance (record _ w))).
  destruct (cleanup_tasks_ret _ _ Ht) as [Hshape Hmem].
  assert (evict_inv env w tasks wg) as Hinv.
  { split; [unfold wg; cbn; by eexists [_; _]; rewrite <- ?app_assoc|].
    unfold wg. erewrite since_app by (cbn; rewrite <- ?app_assoc; reflexivity).
    apply (preceded_app _ [] [_; _]); [apply preceded_nil|].
    intros tr'. by repeat constructor. }
  destruct (run_pool_respects env evict_rely (evict_inv env w tasks)
              (evict_guar env w tasks)
              (evict_guar_rely env w tasks) (evict_inv_step env w tasks)
              (task_evicted env <$> tasks)
              (round_robin (length tasks)) (task_body <$> tasks, wg))
    as (Hresp & _ & Hinv').
  { apply check_tasks_respects; [apply Hinv|done]. }
  { done. }
  pose proof Hinv' as [H1 H2].
  assert (idle wg) as Hwg by (destruct Hw; by split).
  pose proof (round_robin_returns env tasks wg Hwg) as Hret.
  set (c := run_pool env (round_robin (length tasks)) (task_body <$> tasks, wg))
    in *.
  rewrite (gather_result_returned _ Hret). cbn [fst snd].
  split_and!; [done|done| |].
  - pose proof (respects_returned env evict_rely _ _ _ _ _ Hresp Hinv' Hret)
      as HF.
    apply Forall_fmap in HF. eapply Forall_impl; [exact HF|].
    intros [p r|k a]; cbn; [done|]. intros H. done.
  - split; [etrans; [done|]; cbn; by eexists [_]|].
    erewrite since_snoc; [|done|cbn; reflexivity].
    apply preceded_app; [done|]. intros tr'. by repeat constructor.
Qed.

Lemma list_filter_iff_in {A} (P Q : A → Prop) `{!∀ x, Decision (P x)}
    `{!∀ x, Decision (Q x)} (l : list A) :
  (∀ x, x ∈ l → P x ↔ Q x) → filter P l = filter Q l.
Proof.
  induction l as [|x l IH]; intros Hl; [done|].
  assert (filter P l = filter Q l) as IH'.
  { apply IH. intros y Hy. apply Hl. by apply list_elem_of_further. }
  pose proof (Hl x (list_elem_of_here _ _)) as Hx.
  destruct (decide (P x)) as [HP|HP].
  - rewrite !filter_cons_True by tauto. by f_equal.
  - rewrite !filter_cons_False by tauto. done.
Qed.

(** X16. With a store that serves every request, proxies that answer every
    probe alike, and a working set of objects with distinct keys, one
    eviction cycle, started with the semaphore free and run round-robin,
    returns and leaves in the working set exactly the entries that have
    no non-empty address or whose proxy answers; the stable set is
    unchanged. *)
Theorem eviction_removes_exactly env w verdict :
  idle w → serving env →
  (∀ n a, alive (probe_reply env n a) = verdict a) →
  NoDup (working w).*1 → objects (working w) →
  let r := exec env round_robin cleanup_cycle w in
  r.1 = Done () ∧
  working r.2 = filter (λ it, survives verdict it.2) (working w) ∧
  stable r.2 = stable w.
Proof.
  intros Hw Hs Hv Hnd Hobj r. subst r.
  destruct (cleanup_cycle_served env w Hw Hs Hobj)
    as (tasks & Hd & Ht & HF & [_ Hinv]).
  destruct (cleanup_cycle_deletes_applied env round_robin w Hs) as [_ Hda].
  destruct (cleanup_tasks_ret _ _ Ht) as [_ Hmem].
  set (r := exec env round_robin cleanup_cycle w) in *.
  split_and!; [done| |].
  2: { assert (keeps io_removes_only (flip sublist) eq w r.2) as (_ & _ & _ & H).
       { apply (exec_sat env removes_only); try apply _.
         - intros. by apply eviction_step.
         - apply cleanup_cycle_tasks; try done.
           intros k a _. apply check_and_delete_removes_only. }
       done. }
  rewrite Hda. apply list_filter_iff_in. intros [k v] Hin. cbn [fst snd].
  assert (∃ d, v = PDict d) as [d ->].
  { apply (proj1 (Forall_forall _ _) Hobj). by apply (list_elem_of_fmap_2 snd _ (k, v)). }
  unfold survives. cbn [get].
  set (a := default PNone (lookup_item (u "address") d)).
  assert (get (PDict d) (u "address") PNone = inr a) as Hg by done.
  split.
  - intros Hk. destruct (truthy a) eqn:Ha; [|done]. cbn [negb orb].
    destruct (verdict a) eqn:Hva; [done|]. exfalso.
    assert (CheckAndDelete k a ∈ tasks) as Ht' by (apply Hmem; eauto).
    pose proof (proj1 (Forall_forall _ _) HF _ Ht') as Hev. cbn [task_evicted] in Hev.
    apply Hev; [done| |].
    + intros n. by rewrite Hv.
    + apply (list_elem_of_fmap_2 fst _ (k, PDict d)). rewrite Hda.
      by apply list_elem_of_filter.
  - intros Hsv [rd Hrd]%deleted_elem.
    apply list_elem_of_split in Hrd as (tr1 & tr2 & Hsp).
    destruct (Hinv _ _ _ Hsp) as (_ & a' & n & Hin' & _ & Hal).
    apply Hmem in Hin' as (v' & Hin' & Hg' & Ha').
    pose proof (lookup_item_NoDup _ _ _ _ Hnd Hin Hin') as <-.
    rewrite Hg in Hg'. injection Hg' as <-.
    rewrite Hv in Hal. rewrite Ha', Hal in Hsv. done.
Qed.

Lemma eviction_removes_exactly_witness :
  let w := orphan_world in
  let verdict := λ _ : pyval, false in
  let r := exec dead_env round_robin cleanup_cycle w in
  (idle w ∧ serving dead_env ∧
   (∀ n a, alive (probe_reply dead_env n a) = verdict a) ∧
   NoDup (working w).*1 ∧ objects (working w)) ∧
  r.1 = Done () ∧
  working r.2 = [(old_key, orphan_record)] ∧
  stable r.2 = stable w.
Proof.
  intros w verdict r.
  assert (idle w) as H1 by done.
  assert (serving dead_env) as H2 by done.
  assert (∀ n a, alive (probe_reply dead_env n a) = verdict a) as H3 by done.
  assert (NoDup (working w).*1) as H4.
  { cbn. apply NoDup_cons. split; [|apply NoDup_singleton].
    intros H%list_elem_of_singleton. by vm_compute in H. }
  assert (objects (working w)) as H5.
  { repeat (apply Forall_cons; split; [by eexists|]). apply Forall_nil_2. }
  split; [done|].
  destruct (eviction_removes_exactly dead_env w verdict H1 H2 H3 H4 H5)
    as (Hd & Hw & Hs).
  split_and!; [exact Hd| |exact Hs].
  fold r in Hw. rewrite Hw. by vm_compute.
Defined.

#[global] Instance grows_by_posts_refl : Reflexive grows_by_posts.
Proof. intros w. split; [done|]. exists []. by rewrite app_nil_r. Qed.

#[global] Instance grows_by_posts_trans : Transitive grows_by_posts.
Proof.
  intros w1 w2 w3 [H1 (l1 & Hl1 & Hp1)] [H2 (l2 & Hl2 & Hp2)].
  split; [by etrans|]. exists (l1 ++ l2). split.
  { by rewrite Hl2, Hl1, app_assoc. }
  rewrite (since_trans w1 w2 w3 H1 H2). apply Forall_app. split.
  - eapply Forall_impl; [done|]. intros it [r Hr]. exists r.
    apply elem_of_app. by left.
  - eapply Forall_impl; [done|]. intros it [r Hr]. exists r.
    apply elem_of_app. by right.
Qed.

Lemma handle_basic_grows_by_posts env {X} (e : event X) w :
  inserts_into Working X e → grows_by_posts w (handle_basic env e w).2.
Proof.
  intros He. split; [apply handle_basic_trace|].
  destruct e; try done; cbn in *; repeat case_match; cbn; subst;
    try (exists []; by rewrite app_nil_r).
  eexists [_]. split; [done|]. apply Forall_singleton. eexists.
  since_tac. cbn. mem.
Qed.

Lemma fetch_cycle_grows_by_posts env sched w :
  grows_by_posts w (exec env sched fetch_and_store_cycle w).2.
Proof.
  apply (exec_sat env (inserts_into Working)); try apply _.
  - intros. by apply handle_basic_grows_by_posts.
  - apply fetch_and_store_cycle_tasks; try done.
    apply validate_and_add_inserts_into.
Qed.

(** The records of [a] in the working set after an ingestion cycle that
    made no insert for [a] are those from before. *)
Lemma fetch_cycle_count env sched w a :
  let w' := (exec env sched fetch_and_store_cycle w).2 in
  (∀ c t1 t2 r, IoPost c (proxy_data a t1 t2) r ∉ since w w') →
  count_address a (working w') = count_address a (working w).
Proof.
  intros w' Hno.
  destruct (fetch_cycle_grows_by_posts env sched w) as [_ (l & Hl & Hp)].
  fold w' in Hl, Hp. rewrite Hl, count_address_app.
  rewrite (count_address_none a l); [lia|].
  apply Forall_forall. intros [k d] Hin.
  apply (proj1 (Forall_forall _ _) Hp) in Hin as [r Hr]. cbn in *.
  destruct (has_address a d) eqn:Hd; [|done].
  pose proof Hr as Hr'.
  apply list_elem_of_split in Hr as (tr1 & tr2 & Hs).
  destruct (fetch_cycle_inv env sched w) as [_ H].
  destruct (H _ _ _ Hs) as (_ & a' & t1' & t2' & n & wc & -> & _).
  rewrite has_address_proxy_data in Hd. apply bool_decide_eq_true in Hd as ->.
  by destruct (Hno Working t1' t2' r).
Qed.

(** X8. An address that the working set already holds is never inserted
    again.  When the read of the working set is served and its records
    are objects with a hashable address, an ingestion cycle makes, under
    every schedule, no insert request for an address of which the working
    set has a record, and leaves the number of its records unchanged. *)
Theorem known_address_not_reinserted env sched w a :
  store_fault env (S (tick w)) = None →
  Forall stable_ok (working w).*2 →
  a ≠ [] →
  (0 < count_address a (working w))%nat →
  let w' := (exec env sched fetch_and_store_cycle w).2 in
  (∀ c t1 t2 r, IoPost c (proxy_data a t1 t2) r ∉ since w w') ∧
  count_address a (working w') = count_address a (working w).
Proof.
  intros Hf Hok Ha Hpos w'.
  assert (∀ c t1 t2 r, IoPost c (proxy_data a t1 t2) r ∉ since w w') as Hno.
  { intros c t1 t2 r Hin.
    apply list_elem_of_split in Hin as (tr1 & tr2 & Hs).
    destruct (fetch_cycle_inv env sched w) as [_ H].
    destruct (H _ _ _ Hs)
      as (_ & a' & t1' & t2' & n & wc & Hd & _ & _ & _ & Hwc & Hk).
    injection Hd as <- _ _. apply Hk. clear H Hs.
    unfold gather_start in *.
    set (w2 := record _ (advance (record _ w))) in *.
    destruct (get_existing_proxies_served env sched FIREBASE_BASE_URL w2)
      as (S & HS & HinS); [done..|].
    rewrite HS in Hwc |- *. cbn [fst snd] in *.
    apply Hwc. unfold known, ref. cbn. rewrite lookup_app_r by done.
    rewrite Nat.sub_diag. cbn. apply HinS.
    apply count_address_pos in Hpos as ([k v] & Hin & Hv).
    exists v, (PStr a). split_and!; try done.
    - by apply (list_elem_of_fmap_2 snd _ (k, v)).
    - by apply has_address_spec.
    - cbn. by rewrite bool_decide_eq_false_2. }
  split; [done|]. by apply fetch_cycle_count.
Qed.

Lemma known_address_not_reinserted_witness :
  let w := aged_world in
  let w' := (exec demo_env round_robin fetch_and_store_cycle w).2 in
  (store_fault demo_env (S (tick w)) = None ∧
   Forall stable_ok (working w).*2 ∧
   some_addr ≠ [] ∧
   (0 < count_address some_addr (working w))%nat) ∧
  (∀ c t1 t2 r, IoPost c (proxy_data some_addr t1 t2) r ∉ since w w') ∧
  count_address some_addr (working w')
  = count_address some_addr (working w).
Proof.
  intros w w'.
  assert (Forall stable_ok (working w).*2) as Hok.
  { apply Forall_cons. split; [|apply Forall_nil_2].
    by exists (PStr some_addr), (HStr some_addr). }
  assert (some_addr ≠ []) as Hne by done.
  assert (0 < count_address some_addr (working w))%nat as Hc
    by (vm_compute; lia).
  split; [done|].
  exact (known_address_not_reinserted demo_env round_robin w some_addr
           eq_refl Hok Hne Hc).
Defined.

(** X9. An ingestion cycle adds records only for live candidates: under
    every schedule and environment, an address that is not among the
    stripped lines of the bulk list, or whose proxy answers no probe with
    status 200, has after the cycle the records it had before. *)
Theorem only_live_candidates_are_added env sched w a :
  (a ∈ candidates env w → ∀ n, alive (probe_reply env n (PStr a)) = false) →
  let w' := (exec env sched fetch_and_store_cycle w).2 in
  (∀ c t1 t2 r, IoPost c (proxy_data a t1 t2) r ∉ since w w') ∧
  count_address a (working w') = count_address a (working w).
Proof.
  intros Hdead w'.
  assert (∀ c t1 t2 r, IoPost c (proxy_data a t1 t2) r ∉ since w w') as Hno.
  { intros c t1 t2 r Hin.
    apply list_elem_of_split in Hin as (tr1 & tr2 & Hs).
    destruct (fetch_cycle_inv env sched w) as [_ H].
    destruct (H _ _ _ Hs)
      as (_ & a' & t1' & t2' & n & wc & Hd & Hc & _ & Hal & _).
    injection Hd as <- _ _. rewrite (Hdead Hc n) in Hal. done. }
  split; [done|]. by apply fetch_cycle_count.
Qed.

Lemma only_live_candidates_are_added_witness :
  let w := empty_world in
  let a := u "bad:entry" in
  let w' := (exec demo_env round_robin fetch_and_store_cycle w).2 in
  (a ∈ candidates demo_env w ∧
   ∀ n, alive (probe_reply demo_env n (PStr a)) = false) ∧
  (∀ c t1 t2 r, IoPost c (proxy_data a t1 t2) r ∉ since w w') ∧
  count_address a (working w') = count_address a (working w).
Proof.
  intros w a w'.
  assert (a ∈ candidates demo_env w) as Hin by (vm_compute; mem).
  assert (∀ n, alive (probe_reply demo_env n (PStr a)) = false) as Hd
    by (intros n; by vm_compute).
  split; [done|].
  exact (only_live_candidates_are_added demo_env round_robin w a (λ _, Hd)).
Defined.

(** One ingestion cycle under the round-robin schedule: every validation
    task returns, having done its part. *)
Lemma fetch_cycle_served env w x body :
  idle w → serving env →
  bulk_reply env (tick w) = Resp x → status x = 200 →
  text x = Some body →
  let r := exec env round_robin fetch_and_store_cycle w in
  r.1 = Done () ∧
  ∀ p, p ∈ split 10 (strip body) → stored env (strip p) r.2.
Proof.
  intros Hw Hsv Hb Hs Ht r. subst r.
  set (w2 := record (IoLog INFO "API provided proxies. Validating...")
               (advance (record (IoBulk (Resp x)) w))).
  destruct (exec_get_existing_proxies env round_robin FIREBASE_BASE_URL w2)
    as (S & HS & _).
  destruct (exec env round_robin (get_existing_proxies FIREBASE_BASE_URL) w2)
    as [o w3] eqn:He. cbn [fst snd] in *. subst o.
  rewrite (fetch_cycle_unfold env round_robin w x body S w3 Hb Hs Ht He).
  destruct (fetch_cycle_pool env round_robin w x body S w3 Hb Hs Ht He)
    as (Hresp & Hinv).
  destruct (exec_get_existing_sound env round_robin _ w2 S w3 (Hsv _) He)
    as (_ & _ & _ & Hp3 & Hl3).
  set (existing := length (sets w3)) in *.
  set (wg := set_sets (sets w3 ++ [S]) w3) in *.
  set (tasks := validation_tasks body existing) in *.
  assert (idle wg) as Hwg.
  { unfold w2 in Hp3, Hl3. cbn in Hp3, Hl3. destruct Hw as [Hwp Hwl].
    split; unfold wg; cbn; congruence. }
  pose proof (round_robin_returns env tasks wg Hwg) as Hret.
  set (c := run_pool env (round_robin (length tasks)) (task_body <$> tasks, wg))
    in *.
  rewrite (gather_result_returned _ Hret). cbn [fst snd].
  split; [done|]. intros p Hp.
  pose proof (respects_returned env ingest_rely _ _ _ _ _ Hresp Hinv Hret) as HF.
  apply Forall_fmap in HF.
  assert (ValidateAndAdd p existing ∈ tasks) as Hin.
  { unfold tasks, validation_tasks.
    by apply (list_elem_of_fmap_2 (λ p, ValidateAndAdd p existing)). }
  pose proof (proj1 (Forall_forall _ _) HF _ Hin) as Hst. cbn in Hst.
  intros H1 H2 H3. by apply Hst.
Qed.

(** X10. Every live candidate is stored.  With a store that serves every
    request and a bulk source that answers with a list, an ingestion cycle
    started with the semaphore and the lock free and run round-robin
    returns, and every non-blank candidate of the list whose proxy answers
    every probe with status 200 has a record in the working set
    afterwards. *)
Theorem live_candidate_is_stored env w x body a :
  idle w → serving env →
  bulk_reply env (tick w) = Resp x → status x = 200 →
  text x = Some body →
  a ∈ strip <$> split 10 (strip body) → a ≠ [] →
  (∀ n, alive (probe_reply env n (PStr a)) = true) →
  let r := exec env round_robin fetch_and_store_cycle w in
  r.1 = Done () ∧ (0 < count_address a (working r.2))%nat.
Proof.
  intros Hw Hsv Hb Hs Ht Ha Hne Hlive r.
  destruct (fetch_cycle_served env w x body Hw Hsv Hb Hs Ht) as [Hd Hst].
  split; [done|].
  apply list_elem_of_fmap in Ha as (p & -> & Hp). by apply (Hst p).
Qed.

Lemma live_candidate_is_stored_witness :
  let w := empty_world in
  let x := {| status := 200;
              text := Some (some_addr ++ [10%N] ++ u "bad:entry" ++ [10%N]
                            ++ some_addr ++ [10%N]);
              json := None |} in
  let body := some_addr ++ [10%N] ++ u "bad:entry" ++ [10%N]
              ++ some_addr ++ [10%N] in
  let r := exec demo_env round_robin fetch_and_store_cycle w in
  (idle w ∧ serving demo_env ∧
   bulk_reply demo_env (tick w) = Resp x ∧ status x = 200 ∧
   text x = Some body ∧
   some_addr ∈ strip <$> split 10 (strip body) ∧ some_addr ≠ [] ∧
   ∀ n, alive (probe_reply demo_env n (PStr some_addr)) = true) ∧
  r.1 = Done () ∧ (0 < count_address some_addr (working r.2))%nat.
Proof.
  intros w x body r.
  assert (idle w) as H1 by done.
  assert (serving demo_env) as H2 by done.
  assert (some_addr ∈ strip <$> split 10 (strip body)) as H3
    by (vm_compute; mem).
  assert (some_addr ≠ []) as H4 by done.
  assert (∀ n, alive (probe_reply demo_env n (PStr some_addr)) = true) as H5
    by (intros n; by vm_compute).
  split; [done|].
  exact (live_candidate_is_stored demo_env w x body some_addr H1 H2 eq_refl
           eq_refl eq_refl H3 H4 H5).
Defined.

(** ** Tasks run one after the other *)

Lemma bracketed_step env sched ph n {X} (e : event X) k w :
  bracketed ph (S n) (Vis e k) → resources ph w →
  ∃ x w1 ph',
    handle_basic env e w = (Some x, w1) ∧
    handle env sched e w = (Some x, w1) ∧
    bracketed ph' n (k x) ∧ resources ph' w1 ∧
    (permits w1 + match ph' with Out => 0 | _ => 1 end
     = permits w + match ph with Out => 0 | _ => 1 end)%nat.
Proof.
  intros Hb [Hp Hl]. cbn in Hb.
  assert (∀ ph0, plain e → (∀ x, bracketed ph0 n (k x)) → ph0 = ph →
    ∃ x w1 ph',
      handle_basic env e w = (Some x, w1) ∧
      handle env sched e w = (Some x, w1) ∧
      bracketed ph' n (k x) ∧ resources ph' w1 ∧
      (permits w1 + match ph' with Out => 0 | _ => 1 end
       = permits w + match ph with Out => 0 | _ => 1 end)%nat) as Hplain.
  { intros ph0 Hpl Hk ->.
    destruct (handle_basic_plain env e w Hpl) as (y & w1 & Hh & Hp1 & Hl1).
    exists y, w1, ph. split_and!; [done| |apply Hk| |lia].
    - destruct e; try done.
    - split; intros ?; [rewrite Hp1; by apply Hp|rewrite Hl1; by apply Hl]. }
  destruct e, ph; cbn in Hb;
    try (by destruct Hb as [[] _]);
    try (destruct Hb as [Hpl Hb]; by eapply Hplain).
  - (* SemAcquire, Out *)
    cbn [handle handle_basic].
    destruct (permits w) as [|m] eqn:Em; [by destruct Hp|].
    exists (), (set_permits m w), InSem. split_and!; try done; [|cbn; lia].
    split; [done|]. intros _. cbn. by apply Hl.
  - (* SemRelease, InSem *)
    cbn [handle handle_basic].
    exists (), (set_permits (S (permits w)) w), Out.
    split_and!; try done; [|cbn; lia].
    split; [done|]. intros _. cbn. by apply Hl.
  - (* LockAcquire, InSem *)
    cbn [handle handle_basic]. rewrite Hl by done.
    exists (), (set_locked true w), InLock. split_and!; try done.
  - (* LockRelease, InLock *)
    cbn [handle handle_basic].
    exists (), (set_locked false w), InSem. split_and!; try done.
Qed.

Lemma step_task_ret env (ps : pool) w i :
  ps !! i = Some (Ret ()) → step_task env (ps, w) i = (ps, w).
Proof. intros H. unfold step_task. cbn. by rewrite H. Qed.

Lemma run_pool_ret env n (ps : pool) w i :
  ps !! i = Some (Ret ()) → run_pool env (replicate n i) (ps, w) = (ps, w).
Proof.
  intros H. induction n as [|n IH]; [done|].
  cbn [replicate]. by rewrite run_pool_cons, step_task_ret.
Qed.

(** A task resumed alone as often as it has events runs to its end, as
    if it were run on its own. *)
Lemma run_pool_alone env sched n i : ∀ ph (p : prog unit) (ps : pool) w,
  ps !! i = Some p → bracketed ph n p → resources ph w →
  run_pool env (replicate n i) (ps, w)
  = (<[i := Ret ()]> ps, (exec env sched p w).2) ∧
  (exec env sched p w).1 = Done () ∧
  resources Out (exec env sched p w).2 ∧
  (permits (exec env sched p w).2
   = permits w + match ph with Out => 0 | _ => 1 end)%nat.
Proof.
  induction n as [|n IH]; intros ph p ps w Hi Hb Hr.
  { destruct p as [[]| |]; try done. cbn in Hb. subst ph.
    rewrite list_insert_id by done. cbn. split_and!; try done; lia. }
  destruct p as [[]|e|X e k]; [|done|].
  { cbn in Hb. subst ph. rewrite run_pool_ret by done.
    rewrite list_insert_id by done. cbn. split_and!; try done; lia. }
  destruct (bracketed_step env sched ph n e k w Hb Hr)
    as (x & w1 & ph' & Hh & Hh' & Hb' & Hr' & Hp').
  cbn [replicate]. rewrite run_pool_cons. unfold step_task at 1.
  cbn [fst snd]. rewrite Hi, Hh. cbn [exec]. rewrite Hh'.
  assert (i < length ps)%nat as Hlt by by eapply lookup_lt_Some.
  destruct (IH ph' (k x) (<[i := k x]> ps) w1) as (H1 & H2 & H3 & H4);
    [by apply list_lookup_insert_eq|done|done|].
  rewrite H1, list_insert_insert_eq. split_and!; try done; lia.
Qed.

Lemma run_pool_one_by_one env sched tasks : ∀ (pre : pool) w,
  resources Out w →
  let w' := foldl (λ w t, (exec env sched (task_body t) w).2) w tasks in
  run_pool env (i ← seq (length pre) (length tasks); replicate task_steps i)
    (pre ++ (task_body <$> tasks), w)
  = (pre ++ replicate (length tasks) (Ret ()), w').
Proof.
  induction tasks as [|t tasks IH]; intros pre w Hr; [done|].
  cbn [length seq mbind list_bind foldl fmap list_fmap].
  rewrite run_pool_app.
  destruct (run_pool_alone env sched task_steps (length pre) Out (task_body t)
              (pre ++ task_body t :: (task_body <$> tasks)) w)
    as (H1 & _ & H2 & _); [|apply task_body_bracketed|done|].
  { by rewrite list_lookup_middle. }
  rewrite H1. rewrite insert_app_r_alt by done. rewrite Nat.sub_diag.
  cbn [insert list_insert]. rewrite (cons_middle (Ret ())), app_assoc.
  pose proof (IH (pre ++ [Ret ()]) _ H2) as IH'.
  rewrite length_app in IH'. cbn [length] in IH'.
  rewrite Nat.add_1_r in IH'. cbn zeta in IH'. rewrite IH'.
  cbn [replicate]. by rewrite <- app_assoc.
Qed.

Lemma inserted_once_frame a existing wg w w' :
  sets w' = sets w → working w' = working w →
  inserted_once a existing wg w → inserted_once a existing wg w'.
Proof. unfold inserted_once, known. by intros -> ->. Qed.

Lemma inserted_once_add a existing wg w w' a' l :
  sets w' = alter (λ s, {[HStr a']} ∪ s) existing (sets w) →
  working w' = working w ++ l →
  (l = [] ∨ ∃ k t1 t2, l = [(k, proxy_data a' t1 t2)]) →
  ¬ known existing a' w →
  inserted_once a existing wg w → inserted_once a existing wg w'.
Proof.
  unfold inserted_once, known, ref. intros -> -> Hl Hnk (Hlt & H1 & H2).
  rewrite length_alter, count_address_app.
  destruct (lookup_lt_is_Some_2 _ _ Hlt) as [s Hs].
  rewrite list_lookup_alter_eq, Hs in *. cbn in *.
  assert (count_address a l = if bool_decide (a' = a) then length l else 0%nat)
    as Hc.
  { destruct Hl as [->|(k & t1 & t2 & ->)]; [by case_bool_decide|].
    by rewrite count_address_singleton, has_address_proxy_data. }
  assert (length l ≤ 1)%nat as Hle
    by (destruct Hl as [->|(k & t1 & t2 & ->)]; cbn; lia).
  rewrite Hc. split; [done|]. case_bool_decide as Ha.
  - subst a'. specialize (H2 Hnk). split; [lia|]. intros Hn. destruct Hn.
    apply elem_of_union. left. by apply elem_of_singleton.
  - split; [lia|]. intros Hn. rewrite Nat.add_0_r. apply H2. intros Hk.
    apply Hn. apply elem_of_union. by right.
Qed.

(** What a validation task run on its own does to the store and to the
    known set: nothing, or one addition for an address that was not known. *)
Lemma validate_and_add_alone env sched p existing w :
  resources Out w →
  let w' := (exec env sched (validate_and_add p existing) w).2 in
  (sets w' = sets w ∧ working w' = working w) ∨
  (¬ known existing (strip p) w ∧
   sets w' = alter (λ s, {[HStr (strip p)]} ∪ s) existing (sets w) ∧
   ∃ l, working w' = working w ++ l ∧
        (l = [] ∨ ∃ k t1 t2, l = [(k, proxy_data (strip p) t1 t2)])).
Proof.
  intros [Hp Hl].
  unfold validate_and_add, with_semaphore, with_lock, finally, is_proxy_alive.
  set (a' := strip p). cbn.
  destruct (permits w) eqn:E; [by destruct Hp|]. cbn.
  case_bool_decide as Ha; cbn; [by left|].
  rewrite Hl by done. cbn.
  case_bool_decide as Hk; cbn; [by left|].
  destruct (probe_reply env (tick w) (PStr a')) as [e|x]; cbn; [by left|].
  destruct (status x =? 200); cbn; [|by left].
  destruct (store_fault env _) as [[e'|x']|] eqn:Hf; cbn.
  - by left.
  - destruct (status x' =? 200); cbn; [|by left].
    right. split_and!; [done|done|]. exists []. split; [by rewrite app_nil_r|].
    by left.
  - right. split_and!; [done|done|]. eexists [_]. split; [done|].
    right. by eexists _, _, _.
Qed.

(** A validation task run on its own inserts at most one record of any
    address, and none for an address of the known set. *)
Lemma validate_alone_once env sched p existing a wg w :
  resources Out w → inserted_once a existing wg w →
  inserted_once a existing wg
    (exec env sched (validate_and_add p existing) w).2.
Proof.
  intros Hr HJ.
  destruct (validate_and_add_alone env sched p existing w Hr)
    as [[Hs Hw]|(Hk & Hs & l & Hw & Hl)].
  - by eapply inserted_once_frame.
  - by eapply inserted_once_add.
Qed.

Lemma foldl_once env sched (ps : list str) existing a wg : ∀ w,
  resources Out w → inserted_once a existing wg w →
  inserted_once a existing wg
    (foldl (λ w t, (exec env sched (task_body t) w).2) w
       ((λ p, ValidateAndAdd p existing) <$> ps)).
Proof.
  induction ps as [|p ps IH]; intros w Hr HJ; [done|].
  cbn [fmap list_fmap foldl task_body]. apply IH.
  - destruct (run_pool_alone env sched task_steps 0 Out
                (validate_and_add p existing)
                [validate_and_add p existing] w eq_refl
                (validate_and_add_bracketed _ _) Hr) as (_ & _ & H & _).
    done.
  - by apply validate_alone_once.
Qed.

Lemma exec_plain_frame env sched {A} (p : prog A) w :
  all_events (λ X e, plain e) p →
  permits (exec env sched p w).2 = permits w ∧
  locked (exec env sched p w).2 = locked w.
Proof.
  revert w. induction p as [a|e|X e k IH]; intros w Hp; cbn; try done.
  destruct Hp as [He Hk].
  destruct (handle_basic_plain env e w He) as (x & w' & Hh & Hp' & Hl').
  assert (handle env sched e w = handle_basic env e w) as -> by by destruct e.
  rewrite Hh. destruct (IH x w' (Hk x)) as [H1 H2]. split; congruence.
Qed.

Lemma get_existing_proxies_plain url :
  all_events (λ X e, plain e) (get_existing_proxies url).
Proof. by apply get_existing_proxies_events. Qed.

Lemma get_existing_proxies_frame env sched url w :
  working (exec env sched (get_existing_proxies url) w).2 = working w ∧
  sets (exec env sched (get_existing_proxies url) w).2 = sets w.
Proof.
  unfold get_existing_proxies.
  rewrite exec_try_except, exec_bind, exec_request. cbn [handle handle_basic].
  destruct (match store_fault env (tick w) with Some r => r | None => _ end)
    as [e|x]; cbn; [done|].
  destruct (status x =? 200); cbn; [|done]. unfold read_json.
  destruct (json x) as [data|]; cbn; [|done].
  destruct (truthy data); cbn; [|done].
  destruct (items data) as [e|its]; cbn; [done|].
  destruct (addresses_pure its.*2) as [[S ->]|[e ->]]; cbn; done.
Qed.

(** X11. When the validation tasks run one after the other, no address is
    inserted twice: under the schedule that runs each task to its end
    before the next, and in every environment, an ingestion cycle started
    with the semaphore and the lock free adds at most one record of any
    address to the working set. *)
Theorem one_by_one_inserts_once env w a :
  idle w →
  let w' := (exec env one_by_one fetch_and_store_cycle w).2 in
  (count_address a (working w') ≤ count_address a (working w) + 1)%nat.
Proof.
  intros Hw w'. subst w'.
  destruct (bulk_reply env (tick w)) as [e|x] eqn:Hb.
  { unfold fetch_and_store_cycle. cbn. rewrite Hb. cbn. lia. }
  destruct (decide (status x = 200)) as [Hs|Hs].
  2: { unfold fetch_and_store_cycle. cbn. rewrite Hb. cbn.
       apply Z.eqb_neq in Hs. rewrite Hs. cbn. lia. }
  destruct (text x) as [body|] eqn:Ht.
  2: { unfold fetch_and_store_cycle. cbn. rewrite Hb. cbn.
       rewrite Hs. cbn. unfold read_text. rewrite Ht. cbn. lia. }
  set (w2 := record (IoLog INFO "API provided proxies. Validating...")
               (advance (record (IoBulk (Resp x)) w))).
  destruct (exec_get_existing_proxies env one_by_one FIREBASE_BASE_URL w2)
    as (S & HS & _).
  destruct (get_existing_proxies_frame env one_by_one FIREBASE_BASE_URL w2)
    as [Hw3 _].
  destruct (exec_plain_frame env one_by_one
              (get_existing_proxies FIREBASE_BASE_URL) w2
              (get_existing_proxies_plain _)) as [Hp3 Hl3].
  destruct (exec env one_by_one (get_existing_proxies FIREBASE_BASE_URL) w2)
    as [o w3] eqn:He. cbn [fst snd] in *. subst o.
  rewrite (fetch_cycle_unfold env one_by_one w x body S w3 Hb Hs Ht He).
  set (existing := length (sets w3)).
  set (wg := set_sets (sets w3 ++ [S]) w3).
  assert (resources Out wg) as Hr.
  { destruct Hw as [Hwp Hwl]. split; intros _; unfold wg; cbn.
    - rewrite Hp3. unfold w2. cbn. by rewrite Hwp.
    - rewrite Hl3. unfold w2. cbn. done. }
  assert (inserted_once a existing wg wg) as HJ.
  { split_and!; [|lia|lia]. unfold wg, existing. cbn. rewrite length_app. cbn. lia. }
  unfold validation_tasks. rewrite length_fmap. unfold one_by_one.
  pose proof (run_pool_one_by_one env one_by_one
                ((λ p, ValidateAndAdd p existing) <$> split 10 (strip body))
                [] wg Hr) as Hrun.
  cbn zeta in Hrun. rewrite length_fmap in Hrun. cbn [length app] in Hrun.
  rewrite Hrun. cbn [fst snd].
  pose proof (foldl_once env one_by_one (split 10 (strip body)) existing a wg
                wg Hr HJ) as (_ & Hc & _).
  assert (working wg = working w) as Hwg by done.
  rewrite Hwg in Hc.
  destruct (gather_result _) as [[e|]|]; cbn; done.
Qed.

Lemma one_by_one_inserts_once_witness :
  let w := empty_world in
  let w' := (exec demo_env one_by_one fetch_and_store_cycle w).2 in
  idle w ∧
  (count_address some_addr (working w')
   ≤ count_address some_addr (working w) + 1)%nat ∧
  working w' = [(key_of 0, proxy_data some_addr 103 104)].
Proof.
  intros w w'. assert (idle w) as H by done.
  split_and!; [done| |by vm_compute].
  exact (one_by_one_inserts_once demo_env w some_addr H).
Defined.

(** ** The semaphore bounds the tasks in flight *)

Lemma permit_held_in_flight h p : permit_held h p → in_flight p = h.
Proof.
  destruct p as [a|e|X e k]; cbn; [done|done|].
  destruct e; try done; by intros [-> _].
Qed.

Lemma validate_and_add_permit_held p r :
  permit_held false (validate_and_add p r).
Proof.
  unfold validate_and_add, with_semaphore, with_lock, finally, is_proxy_alive.
  cbn. split; [done|]. intros _. case_bool_decide; cbn; [done|].
  split; [done|]. intros _. split; [done|]. intros []; cbn; [done|].
  split; [done|]. intros _. split; [done|].
  intros [e|x]; cbn; [done|]. destruct (status x =? 200); cbn; [|done].
  split; [done|]. intros t1. split; [done|]. intros t2. split; [done|].
  intros [e|x']; cbn; [done|]. destruct (status x' =? 200); cbn; [|done].
  repeat (split; [done|]; intros _). done.
Qed.

Lemma check_and_delete_permit_held k a :
  permit_held false (check_and_delete k a).
Proof.
  unfold check_and_delete, with_semaphore, finally, is_proxy_alive.
  cbn. split; [done|]. intros _. split; [done|].
  intros [e|x]; cbn.
  2: destruct (status x =? 200); cbn; [done|].
  all: split; [done|]; intros [e'|x']; cbn; [done|];
    destruct (status x' =? 200); cbn; done.
Qed.

Lemma step_task_flying env c i :
  Forall (λ p, ∃ h, permit_held h p) c.1 →
  Forall (λ p, ∃ h, permit_held h p) (step_task env c i).1 ∧
  (flying (step_task env c i).1 + permits (step_task env c i).2
   = flying c.1 + permits c.2)%nat.
Proof.
  intros Hc. unfold step_task.
  destruct (c.1 !! i) as [[a|e|X e k]|] eqn:Hi; try done.
  destruct (Forall_lookup_1 _ _ _ _ Hc Hi) as [h Hh].
  destruct (handle_basic env e c.2) as [[x|] w'] eqn:Hx; cbn [fst snd]; [|done].
  assert (∃ h', permit_held h' (k x) ∧
            ((if h' then 1 else 0) + permits w'
             = (if in_flight (Vis e k) then 1 else 0) + permits c.2)%nat)
    as (h' & Hh' & Hn).
  { destruct e; cbn in Hh, Hx; try done; destruct Hh as [-> Hk];
      try (exists true; split; [apply Hk|]; cbn;
           revert Hx; repeat case_match; intros; simplify_eq; cbn; done).
    exists false. split; [apply Hk|]. simplify_eq. cbn. lia. }
  split.
  - apply Forall_insert; [done|]. by exists h'.
  - unfold flying.
    pose proof (sum_list_with_insert
                  (λ p : prog (), if in_flight p then 1 else 0)%nat
                  c.1 i (Vis e k) (k x) Hi) as Hs.
    cbn beta in Hs. rewrite (permit_held_in_flight _ _ Hh') in Hs. lia.
Qed.

Lemma run_pool_flying env l c :
  Forall (λ p, ∃ h, permit_held h p) c.1 →
  (flying (run_pool env l c).1 + permits (run_pool env l c).2
   = flying c.1 + permits c.2)%nat.
Proof.
  revert c. induction l as [|i l IH]; intros c Hc; [done|].
  rewrite run_pool_cons. destruct (step_task_flying env c i Hc) as [H1 H2].
  rewrite IH by done. done.
Qed.

(** X5. At every point of a gather, under every schedule and environment,
    the tasks that have taken a permit and not yet given it back, together
    with the free permits, number [CONCURRENCY_LIMIT]: never more than 200
    tasks are past the semaphore at once, and no permit is lost or given
    back twice. *)
Theorem semaphore_bounds_tasks env tasks w l :
  idle w →
  let c := run_pool env l (task_body <$> tasks, w) in
  (flying c.1 + permits c.2 = CONCURRENCY_LIMIT)%nat ∧
  (flying c.1 ≤ CONCURRENCY_LIMIT)%nat.
Proof.
  intros [Hp _] c.
  assert (Forall (λ p, ∃ h, permit_held h p) (task_body <$> tasks)) as Hh.
  { apply Forall_fmap, Forall_forall. intros [p r|k a] _; exists false.
    - apply validate_and_add_permit_held.
    - apply check_and_delete_permit_held. }
  pose proof (run_pool_flying env l (task_body <$> tasks, w) Hh) as H.
  fold c in H. cbn [fst snd] in H.
  assert (flying (task_body <$> tasks) = 0%nat) as H0.
  { unfold flying. apply sum_list_with_0, Forall_forall.
    intros p Hin.
    apply (proj1 (Forall_forall _ _) Hh) in Hin as Hin'.
    apply list_elem_of_fmap in Hin as (t & -> & _).
    destruct t; [pose proof (validate_and_add_permit_held proxy_addr existing_proxies) as Hv
                |pose proof (check_and_delete_permit_held key proxy_addr) as Hv];
      cbn [task_body]; by rewrite (permit_held_in_flight _ _ Hv). }
  rewrite H0, Hp in H. lia.
Qed.

Lemma semaphore_bounds_tasks_witness :
  let w := empty_world in
  let tasks := [ValidateAndAdd some_addr 0%nat;
                CheckAndDelete old_key (PStr some_addr)] in
  let c := run_pool demo_env [0; 1; 0]%nat (task_body <$> tasks, w) in
  idle w ∧
  (flying c.1 + permits c.2 = CONCURRENCY_LIMIT)%nat ∧
  (flying c.1 ≤ CONCURRENCY_LIMIT)%nat ∧
  flying c.1 = 2%nat.
Proof.
  intros w tasks c. assert (idle w) as H by done.
  split; [done|].
  destruct (semaphore_bounds_tasks demo_env tasks w [0; 1; 0]%nat H)
    as [H1 H2].
  split_and!; [exact H1|exact H2|by vm_compute].
Defined.

(** ** The loops *)

Lemma cycle_of_returns env l w :
  idle w →
  ∃ w', exec env round_robin (cycle_of l) w = (Done (), w') ∧ idle w' ∧
        last (trace w') = Some (IoSleep (interval l)).
Proof.
  intros Hw.
  destruct (exec_completes env (cycle_of l) w (cycle_of_completes l) Hw)
    as [Hp Hi].
  destruct (cycle_of_shape l) as (body & msg & Hc).
  pose proof (guarded_then_sleep env round_robin body msg (interval l) w)
    as [Hf Hl].
  cbn zeta in Hf, Hl. rewrite <- Hc in Hf, Hl.
  destruct (exec env round_robin (cycle_of l) w) as [[[]|e|] w'];
    cbn [fst snd] in *; [|by destruct (Hf e)|done].
  exists w'. split_and!; [done|done|by apply Hl].
Qed.

Lemma loop_of_unfold l n :
  loop_of l n = (log INFO (start_message l);; iterations n (cycle_of l)).
Proof. by destruct l. Qed.

Lemma iterations_run env l n : ∀ w,
  idle w →
  ∃ w', exec env round_robin (iterations n (cycle_of l)) w = (Done (), w') ∧
        idle w' ∧
        w' = run_cycles env (replicate n (l, round_robin)) w ∧
        (n ≠ 0%nat → last (trace w') = Some (IoSleep (interval l))).
Proof.
  induction n as [|n IH]; intros w Hw.
  { exists w. by split_and!. }
  destruct (cycle_of_returns env l w Hw) as (w1 & H1 & Hi1 & Hl1).
  destruct (IH w1 Hi1) as (w' & H' & Hi' & Hr' & Hl').
  exists w'. cbn [iterations]. rewrite exec_bind, H1.
  split_and!; [done|done| |].
  - cbn [replicate run_cycles foldl fst snd]. rewrite H1. exact Hr'.
  - intros _. destruct n as [|n]; [|by apply Hl'].
    cbn in H'. by injection H' as <-.
Qed.

(** X22. The loops keep running.  Whatever the bulk source, the proxies and
    the store answer, the first [n] iterations of each loop, started with
    its semaphore and lock free and run round-robin, all complete: no
    exception ends the loop and no task is left waiting.  The loop logs
    its start, then runs its cycles one after the other, each ending with
    the sleep of the loop's interval, and leaves the semaphore and the
    lock free. *)
Theorem loops_keep_running env l n w :
  idle w →
  let r := exec env round_robin (loop_of l n) w in
  r.1 = Done () ∧ idle r.2 ∧
  r.2 = run_cycles env (replicate n (l, round_robin))
          (record (IoLog INFO (start_message l)) w) ∧
  (n ≠ 0%nat → last (trace r.2) = Some (IoSleep (interval l))).
Proof.
  intros Hw r. subst r. rewrite loop_of_unfold, exec_bind.
  cbn [log trigger exec handle handle_basic].
  destruct (iterations_run env l n (record (IoLog INFO (start_message l)) w))
    as (w' & -> & Hi & Hr & Hl); [done|].
  done.
Qed.

Lemma loops_keep_running_witness :
  let w := aged_world in
  let r := exec dead_env round_robin (loop_of Eviction 2) w in
  idle w ∧
  r.1 = Done () ∧ idle r.2 ∧
  r.2 = run_cycles dead_env (replicate 2 (Eviction, round_robin))
          (record (IoLog INFO (start_message Eviction)) w) ∧
  (2%nat ≠ 0%nat → last (trace r.2) = Some (IoSleep (interval Eviction))).
Proof.
  intros w r. assert (idle w) as H by done.
  split; [done|].
  exact (loops_keep_running dead_env Eviction 2 w H).
Defined.

(** ** Promotion of records without an address *)

Lemma count_no_address_app s1 s2 :
  count_no_address (s1 ++ s2)
  = (count_no_address s1 + count_no_address s2)%nat.
Proof. unfold count_no_address. by rewrite filter_app, length_app. Qed.

Lemma hash_none p : hash p = inr HNone ↔ p = PNone.
Proof. split; [|by intros ->]. by destruct p as [|[]| | | |]. Qed.

Lemma no_address_stable_data p t key age :
  no_address (stable_data p t key age) ↔ p = PNone.
Proof.
  unfold no_address, stable_data, get. cbn [lookup_item].
  rewrite bool_decide_eq_true_2 by done. cbn. by destruct p.
Qed.

Lemma count_no_address_singleton k v :
  count_no_address [(k, v)] = if no_address v then 1%nat else 0%nat.
Proof.
  unfold count_no_address. destruct (no_address v) eqn:E.
  - rewrite filter_cons_True; [done|]. cbn. by rewrite E.
  - rewrite filter_cons_False; [done|]. cbn. rewrite E. by intros [].
Qed.

Section Addressless.
Context (env : Env) (sched : schedule) (thr : Z) (c0 : nat).
Hypothesis Hserving : serving env.

Lemma promote_none t key val S w :
  record_ok val → none_inv c0 S (stable w) →
  ∃ S' w',
    exec env sched (promote thr t key val S) w = (Done S', w') ∧
    none_inv c0 S' (stable w') ∧ S ⊆ S' ∧
    (∀ age, no_address val → age_of t val = inr age → thr ≤ age →
            HNone ∈ S') ∧
    working w' = working w.
Proof.
  intros [(p & h & Hp & Hh) Hage] Hinv.
  destruct (Hage t) as [age Ha]. unfold promote. rewrite Hp, Ha. cbn.
  assert (no_address val → p = PNone) as Hna.
  { unfold no_address. rewrite Hp. by destruct p. }
  destruct (thr <=? age) eqn:Hthr; cbn.
  2: { exists S, w. split_and!; try done. intros age' _ [= <-] ?. lia. }
  rewrite Hh. cbn. case_bool_decide as HS; cbn.
  2: { exists S, w. split_and!; try done. intros age' Hv _ _.
       rewrite (Hna Hv) in Hh. cbn in Hh. injection Hh as <-.
       done. }
  rewrite Hserving. cbn. eexists _, _. split; [done|]. cbn.
  unfold store_insert. split_and!.
  - unfold none_inv in *.
    rewrite count_no_address_app, count_no_address_singleton, Hinv.
    pose proof (no_address_stable_data p t key age) as Hpa.
    destruct (no_address (stable_data p t key age)).
    + rewrite (proj1 Hpa I) in Hh. cbn in Hh. injection Hh as <-.
      rewrite (bool_decide_eq_false_2 (HNone ∈ S)) by done.
      rewrite bool_decide_eq_true_2; [lia|].
      apply elem_of_union. left. by apply elem_of_singleton.
    + assert (h ≠ HNone) as Hne.
      { intros ->. apply hash_none in Hh. apply Hpa in Hh. done. }
      rewrite Nat.add_0_r. f_equal.
      rewrite (bool_decide_ext (HNone ∈ {[h]} ∪ S) (HNone ∈ S)); [done|].
      rewrite elem_of_union, elem_of_singleton. split; [|by right].
      by intros [?|?].
  - apply union_subseteq_r.
  - intros age' Hv _ _. rewrite (Hna Hv) in Hh. cbn in Hh. injection Hh as <-.
    apply elem_of_union. left. by apply elem_of_singleton.
  - done.
Qed.

Lemma promote_all_none t its S w :
  Forall record_ok its.*2 → none_inv c0 S (stable w) →
  ∃ S' w',
    exec env sched (promote_all thr t its S) w = (Done S', w') ∧
    none_inv c0 S' (stable w') ∧ S ⊆ S' ∧
    (∀ key val age, (key, val) ∈ its → no_address val →
                    age_of t val = inr age → thr ≤ age → HNone ∈ S') ∧
    working w' = working w.
Proof.
  revert S w. induction its as [|[key val] its IH]; intros S w Hits Hinv.
  { exists S, w. split_and!; try done. intros ??? Hin. by apply elem_of_nil in Hin. }
  cbn in Hits. apply Forall_cons in Hits as [Hval Hits].
  change (promote_all thr t ((key, val) :: its) S)
    with (promote thr t key val S ≫= promote_all thr t its).
  rewrite exec_bind.
  destruct (promote_none t key val S w Hval Hinv)
    as (S1 & w1 & -> & Hinv1 & HS1 & Ht1 & Hw1).
  destruct (IH S1 w1 Hits Hinv1) as (S2 & w2 & -> & Hinv2 & HS2 & Ht2 & Hw2).
  exists S2, w2. split_and!; try done; [by etrans| |congruence].
  intros k v age [[= -> ->]|Hin]%elem_of_cons Hv Ha Hle.
  - apply HS2. by eapply Ht1.
  - by eapply Ht2.
Qed.
End Addressless.

(** X21. A record of the working set without an address is promoted again
    at every cycle.  With a store that serves every request, readable
    records, and in the working set a record without address that is
    older than the threshold at the scan, one promotion cycle adds exactly
    one record without address to the stable set, whatever the stable set
    already holds: the known-stable snapshot never lists the missing
    address. *)
Theorem addressless_record_is_promoted_again env sched thr w key val :
  serving env →
  Forall record_ok (working w).*2 →
  (key, val) ∈ working w →
  no_address val →
  (∀ n, ∃ age, age_of (clock env n) val = inr age ∧ thr ≤ age) →
  let r := exec env sched (stability_cycle thr) w in
  r.1 = Done () ∧
  count_no_address (stable r.2) = (count_no_address (stable w) + 1)%nat ∧
  working r.2 = working w.
Proof.
  intros Hs Hw Hin Hv Hold r. subst r. unfold stability_cycle.
  rewrite exec_bind, exec_try_except, exec_bind, exec_request.
  cbn [handle handle_basic]. rewrite Hs.
  cbn [ok status Z.eqb Pos.eqb]. rewrite exec_bind. cbn [read_json json exec].
  set (w1 := advance (record _ w)).
  destruct (working w) as [|it its] eqn:Hits; [by apply elem_of_nil in Hin|].
  cbn [coll FIREBASE_BASE_URL store_json truthy]. rewrite Hits.
  cbn [store_json truthy exec].
  rewrite exec_bind. cbn [trigger exec handle handle_basic]. rewrite exec_bind.
  destruct (exec_get_existing_proxies env sched STABLE_PROXIES_URL (advance w1))
    as (S & HS & _).
  pose proof (get_existing_proxies_frame env sched STABLE_PROXIES_URL
                (advance w1)) as [Hw3 _].
  assert (stable (exec env sched (get_existing_proxies STABLE_PROXIES_URL)
                    (advance w1)).2 = stable w) as Hst3.
  { assert (keeps io_quiet eq eq (advance w1)
              (exec env sched (get_existing_proxies STABLE_PROXIES_URL)
                 (advance w1)).2) as (_ & _ & _ & H).
    { apply (exec_sat env quiet_event); try apply _.
      - intros X e w0 He. apply keeps_step; try apply _.
        + intros y. destruct e; try done; by repeat constructor.
        + destruct e; try done.
        + destruct e; try done.
      - by apply get_existing_proxies_events. }
    by rewrite <- H. }
  assert (HNone ∉ S) as HnS.
  { intros Hn.
    assert (∃ w', exec env sched (get_existing_proxies STABLE_PROXIES_URL)
                    (advance w1) = (Done S, w')) as [w' He].
    { destruct (exec _ _ _ _) as [o w']; cbn in HS; subst; by eexists. }
    revert He. unfold get_existing_proxies.
    rewrite exec_try_except, exec_bind, exec_request.
    cbn [handle handle_basic]. rewrite Hs. cbn [ok status Z.eqb Pos.eqb].
    rewrite exec_bind. cbn [read_json json exec].
    destruct (coll STABLE_PROXIES_URL (advance w1)) as [|it' its'];
      cbn [store_json truthy exec].
    { intros [= <- _]. by apply not_elem_of_empty in Hn. }
    rewrite exec_bind. cbn [lift items exec].
    destruct (addresses_pure (it' :: its').*2) as [[S' HS']|[e He']].
    - rewrite HS'. cbn. intros [= <- _].
      destruct (addresses_sound _ _ HS' _ Hn) as (v & p & _ & _ & Ht & Hh).
      apply hash_none in Hh as ->. done.
    - rewrite He'. cbn. intros [= <- _]. by apply not_elem_of_empty in Hn. }
  destruct (exec env sched (get_existing_proxies STABLE_PROXIES_URL)
              (advance w1)) as [o w3]. cbn [fst snd] in *. subst o.
  rewrite exec_bind. cbn [lift items exec]. rewrite exec_bind.
  destruct (promote_all_none env sched thr (count_no_address (stable w)) Hs
              (clock env (tick w1)) (it :: its) S w3)
    as (S' & w4 & -> & Hinv & _ & Ht & Hw4); [done| |].
  { unfold none_inv. rewrite Hst3, bool_decide_eq_false_2 by done. lia. }
  cbn. split; [done|].
  destruct (Hold (tick w1)) as (age & Ha & Hle).
  unfold none_inv in Hinv.
  rewrite bool_decide_eq_true_2 in Hinv by (by eapply Ht).
  split; [done|]. rewrite Hw4, Hw3. done.
Qed.

Lemma addressless_record_is_promoted_again_witness :
  let w := nameless_world in
  let thr := STABILITY_THRESHOLD in
  let w1 := (exec demo_env never (stability_cycle thr) w).2 in
  let r := exec demo_env never (stability_cycle thr) w1 in
  (serving demo_env ∧
   Forall record_ok (working w1).*2 ∧
   (old_key, nameless_record) ∈ working w1 ∧
   no_address nameless_record ∧
   ∀ n, ∃ age, age_of (clock demo_env n) nameless_record = inr age ∧
               thr ≤ age) ∧
  r.1 = Done () ∧
  count_no_address (stable r.2) = (count_no_address (stable w1) + 1)%nat ∧
  working r.2 = working w1 ∧
  count_no_address (stable r.2) = 2%nat.
Proof.
  intros w thr w1 r.
  assert (serving demo_env) as H1 by done.
  assert (Forall record_ok (working w1).*2) as H2.
  { apply Forall_cons. split; [|apply Forall_nil_2]. split.
    - by exists PNone, HNone.
    - intros t. by eexists. }
  assert ((old_key, nameless_record) ∈ working w1) as H3 by (vm_compute; mem).
  assert (no_address nameless_record) as H4 by done.
  assert (∀ n, ∃ age, age_of (clock demo_env n) nameless_record = inr age ∧
                      thr ≤ age) as H5.
  { intros n. eexists. split; [reflexivity|]. unfold thr, STABILITY_THRESHOLD.
    cbn. lia. }
  split; [done|].
  destruct (addressless_record_is_promoted_again demo_env never thr w1 old_key
              nameless_record H1 H2 H3 H4 H5) as (Hd & Hc & Hw).
  split_and!; [exact Hd|exact Hc|exact Hw|by vm_compute].
Defined.
